(** * Allineato: harvesting-and-scoring pipeline

    A shallow embedding of the TypeScript sources of the repository:

    - [DoctorScraper]  the text helpers of [doctor-scraper.ts];
    - [DoctorPage]     [scrapeDoctorInfo], one profile page;
    - [BatchScraper]   the page walk of the link discoverer and the chunk
                       loops of the detail scraper, once the browser has given
                       a page;
    - [Session]        [getDoctorLinksWithPagination] and
                       [scrapeMultipleDoctors] whole, with the browser they
                       launch and close;
    - [ScrapeMain]     the extraction-stage entry point that calls the scraper
                       and writes [doctor-results.json];
    - [Evaluator]      [src/evaluator/index.ts]: [scoreTherapist],
                       [analyzeTherapist], [processBatch] and [main];
    - [Analyze]        the sequential analysis script built on [AnalysisSchema];
    - [Server]         the [/api/therapists] merge of the HTTP server.

    Asynchronous code is written in a state-and-exception monad over a world
    that records the observable events (page loads, scrapes, remote requests,
    file writes, warnings).  Remote collaborators (the browser, the listing
    site, the detail scraper, the text-generation service) are oracles passed
    as arguments, and so is the scheduler that decides in which order the
    callbacks handed to [Promise.all] get to run. *)

From Stdlib Require Import QArith DecimalPos DecimalN.
From stdpp Require Import gmap strings list sorting pretty.

#[global] Set Warnings "-clear-no-such-hyp".

Open Scope string_scope.
Open Scope list_scope.
Open Scope nat_scope.

(** ** JavaScript values that the scripts observe *)

Module Js.

(** A thrown value: an [Error] instance with its [message], or anything
    else, kept as the text [String(value)] would give. *)
Inductive thrown : Type :=
| JsError (message : string)
| JsOther (repr : string).

(** How a call of an (async) function ends. *)
Inductive completion (A : Type) : Type :=
| Return (a : A)
| Throw (e : thrown).
Arguments Return {A} a.
Arguments Throw {A} e.

(** A parsed JSON document ([JSON.parse] keeps the last of repeated keys,
    which is what a finite map holds). *)
#[warnings="-register-all"]
Inductive json : Type :=
| JNull
| JBool (b : bool)
| JNum (q : Q)
| JStr (s : string)
| JArr (items : list json)
| JObj (fields : gmap string json).

(** JavaScript numbers as they come out of JSON: finite, hence rational.
    [0 <= q <= 100] for [z.number().min(0).max(100)]. *)
Definition in_range (lo hi q : Q) : bool := Qle_bool lo q && Qle_bool q hi.

(** [x || null] on a number: [0] is falsy. *)
Definition truthy_num (q : Q) : bool := negb (Qeq_bool q 0).

(** [x || null] on a string: the empty string is falsy. *)
Definition truthy_str (s : string) : bool :=
  match s with EmptyString => false | String _ _ => true end.

(** [a.slice(i, j)] for [0 <= i <= j]. *)
Definition slice {A} (i j : nat) (l : list A) : list A := take (j - i) (drop i l).

End Js.
Import Js.

(** ** The monad of the scripts

    [W] is the world of one process.  [None] is a run that has not finished
    within the fuel given to one of its loops; [Throw] is a rejected promise. *)

Definition M (W A : Type) : Type := W -> option (completion A * W).

Definition ret {W A} (a : A) : M W A := fun w => Some (Return a, w).

Definition throw {W A} (e : thrown) : M W A := fun w => Some (Throw e, w).

Definition diverge {W A} : M W A := fun _ => None.

Definition bind {W A B} (m : M W A) (k : A -> M W B) : M W B :=
  fun w =>
    match m w with
    | None => None
    | Some (Return a, w') => k a w'
    | Some (Throw e, w') => Some (Throw e, w')
    end.

(** [try { body } catch (error) { handler }] *)
Definition try_catch {W A} (body : M W A) (handler : thrown -> M W A) : M W A :=
  fun w =>
    match body w with
    | None => None
    | Some (Return a, w') => Some (Return a, w')
    | Some (Throw e, w') => handler e w'
    end.

Notation "'await' x <- m 'in' k" := (bind m (fun x => k))
  (at level 10, x pattern, m at level 200, k at level 200, only parsing).
Notation "'run' m 'in' k" := (bind m (fun _ => k))
  (at level 10, m at level 200, k at level 200, only parsing).

(** [try { body } finally { cleanup }]: the cleanup runs however the body
    ends; when it throws, that is how the statement ends. *)
Definition try_finally {W A} (body : M W A) (cleanup : M W unit) : M W A :=
  fun w =>
    match body w with
    | None => None
    | Some (c, w') =>
        match cleanup w' with
        | None => None
        | Some (Return _, w'') => Some (c, w'')
        | Some (Throw e, w'') => Some (Throw e, w'')
        end
    end.

(** ** Callbacks that run interleaved

    [Promise.all(items.map(f))] creates one promise per item; every callback
    runs up to its first [await], and from then on the callbacks get to run in
    the order in which what they wait for arrives.  That order is not the
    program's to choose: it is the oracle [schedule], which is asked at every
    step which of the callbacks that still have something to do goes next.
    The oracle is free from the first step on, so every order the event loop
    can produce is the order of some oracle. *)

Section Interleave.
Context {E : Type}.

(** The callbacks that still have something to do, by index from [i] on. *)
Fixpoint ready_from (i : nat) (tasks : list (list E)) : list nat :=
  match tasks with
  | [] => []
  | [] :: rest => ready_from (S i) rest
  | (_ :: _) :: rest => i :: ready_from (S i) rest
  end.

(** The log of callbacks that log [tasks], each in its own order, when
    [schedule] picks who is next. *)
Fixpoint interleave (fuel : nat) (schedule : nat -> nat) (step : nat)
    (tasks : list (list E)) : list E :=
  match fuel with
  | 0 => []
  | S fuel' =>
      let ready := ready_from 0 tasks in
      match ready !! (schedule step `mod` length ready) with
      | None => []
      | Some i =>
          match tasks !! i with
          | Some (e :: rest) =>
              e :: interleave fuel' schedule (S step) (<[i := rest]> tasks)
          | _ => []
          end
      end
  end.

End Interleave.

(** A world with a log of events, among them the two that tell when the
    promise of the callback at [index] is created and when it settles. *)
Class Traced (W E : Type) : Type := {
  log : W -> list E;
  relog : list E -> W -> W;
  started : nat -> E;
  settled : nat -> E
}.

(** How every callback ends and what it logs.  The callbacks of this
    program share no state but the log (a callback reads nothing that another
    callback of the same call writes), so each is run to its end from the world
    the one before left, and what it added to the log is kept apart. *)
Fixpoint settle_all {W E A B} `{!Traced W E} (f : nat -> A -> M W B) (index : nat)
    (items : list A) : M W (list (completion B * list E)) :=
  match items with
  | [] => ret []
  | x :: rest =>
      fun w =>
        match f index x w with
        | None => None
        | Some (c, w') =>
            bind (settle_all f (S index) rest)
                 (fun cs => ret ((c, drop (length (log w)) (log w')) :: cs)) w'
        end
  end.

Fixpoint first_rejection {B} (cs : list (completion B)) : completion (list B) :=
  match cs with
  | [] => Return []
  | Throw e :: _ => Throw e
  | Return b :: rest =>
      match first_rejection rest with
      | Return bs => Return (b :: bs)
      | Throw e => Throw e
      end
  end.

(** What the promise of the callback at [index] adds to the log, from its
    creation to its settling. *)
Definition lifetime {W E} `{!Traced W E} (index : nat) (added : list E) : list E :=
  started index :: added ++ [settled index].

(** What the callbacks that ended as [cs] add to the log between them;
    [schedule] is asked with the length of the log at the call
    ([position]) and the number of the step. *)
Definition merged {W E B} `{!Traced W E} (schedule : nat -> nat -> nat) (position : nat)
    (cs : list (completion B * list E)) : list E :=
  let tasks := imap (fun index c => lifetime index (snd c)) cs in
  interleave (length (concat tasks)) (schedule position) 0 tasks.

(** [await Promise.all(items.map(f))]: the log gets what the callbacks
    logged, in the order the scheduler gives; the result is the list of their
    values in the order of the items, or a rejection (no callback of this
    program is rejected).  The callback receives the element and its index. *)
Definition promise_all {W E A B} `{!Traced W E} (schedule : nat -> nat -> nat)
    (f : nat -> A -> M W B) (items : list A) : M W (list B) :=
  fun w =>
    match settle_all f 0 items w with
    | None => None
    | Some (Throw e, w') => Some (Throw e, w')
    | Some (Return cs, w') =>
        Some (first_rejection (fst <$> cs),
              relog (log w ++ merged schedule (length (log w)) cs) w')
    end.

(** ** doctor-scraper.ts: what the detail scraper returns *)

Module DoctorScraper.

Record DoctorInfo : Type := {
  name : string;
  rating : option Q;
  reviewCount : option Q;
  aboutText : string;
  extendedAbout : option string;
  avatar : option string
}.

(** The texts read off the page are kept as their UTF-16 code units. *)

(** What the [\s] class of a regular expression and [trim] take for
    white space: TAB to CR, SP, NBSP, U+1680, U+2000 to U+200A, U+2028,
    U+2029, U+202F, U+205F, U+3000 and U+FEFF. *)
Definition is_space (c : N) : bool :=
  ((9 <=? c) && (c <=? 13) || (c =? 32) || (c =? 160) || (c =? 5760)
   || (8192 <=? c) && (c <=? 8202) || (c =? 8232) || (c =? 8233)
   || (c =? 8239) || (c =? 8287) || (c =? 12288) || (c =? 65279))%N.

(** [text.replace(/\s+/g, " ")]; [in_run] tells whether the unit before
    belongs to a run of white space that has been replaced already. *)
Fixpoint collapse (in_run : bool) (s : list N) : list N :=
  match s with
  | [] => []
  | c :: rest =>
      if is_space c
      then (if in_run then collapse true rest else 32%N :: collapse true rest)
      else c :: collapse false rest
  end.

Fixpoint trim_start (s : list N) : list N :=
  match s with
  | [] => []
  | c :: rest => if is_space c then trim_start rest else s
  end.

Definition trim_end (s : list N) : list N := reverse (trim_start (reverse s)).

(** [s.trim()] *)
Definition trim (s : list N) : list N := trim_end (trim_start s).

(** [cleanText(text)]; [None] is [undefined] or [null]. *)
Definition cleanText (text : option (list N)) : list N :=
  match text with
  | None | Some [] => []
  | Some s => trim (collapse false s)
  end.

Definition is_digit (c : N) : bool := ((48 <=? c) && (c <=? 57))%N.

Fixpoint take_digits (s : list N) : list N :=
  match s with
  | [] => []
  | c :: rest => if is_digit c then c :: take_digits rest else []
  end.

(** [text.match(/\d+/)]: the first run of digits, as long as it goes. *)
Fixpoint first_digits (s : list N) : option (list N) :=
  match s with
  | [] => None
  | c :: rest => if is_digit c then Some (c :: take_digits rest) else first_digits rest
  end.

(** [parseInt(digits, 10)] on a run of digits (the value is exact as a
    JavaScript number below 2^53). *)
Definition parseInt (digits : list N) : N :=
  foldl (fun acc c => 10 * acc + (c - 48))%N 0%N digits.

(** The review count [scrapeDoctorInfo] reads off the text of the rating
    element: [(reviewText || "").match(/\d+/)], then [parseInt]. *)
Definition parse_reviewCount (reviewText : option (list N)) : option N :=
  parseInt <$> first_digits (default [] reviewText).

End DoctorScraper.

(** ** [scrapeDoctorInfo]: one profile page *)

Module DoctorPage.
Import DoctorScraper.

(** What the run does to the browser, in order. *)
Inductive event : Type :=
| Launch
| NewPage
| Goto (url : string)
| Click (selector : string)
| Sleep (ms : nat)
| ClosePage
| CloseBrowser.

(** The trace, and whether the locals [ownBrowser] and [page] hold an
    object ([false] is [null]). *)
Record World : Type := {
  trace : list event;
  ownBrowser : bool;
  page : bool
}.

(** How each call to the browser ends when the run gets to it; every one of
    them is made at most once.  A text is [None] when [textContent] or
    [getAttribute] gives [null]; [aboutLink] and [moreButton] tell whether
    [page.$] found an element. *)
Record Site : Type := {
  launch : completion unit;
  newPage : completion unit;
  setViewport : completion unit;
  goto : completion unit;
  nameText : completion (option (list N));
  h1Text : completion (option (list N));
  avatarHref : completion (option (list N));
  dataScore : completion (option (list N));
  reviewText : completion (option (list N));
  aboutLink : completion bool;
  aboutLinkClick : completion unit;
  rawAbout : completion (option (list N));
  moreButton : completion bool;
  scrollIntoView : completion unit;
  moreButtonClick : completion unit;
  modal : completion unit;
  rawExtended : completion (option (list N));
  closePage : completion unit;
  closeBrowser : completion unit
}.

Record DoctorInfo {number : Type} : Type := {
  name : list N;
  rating : option number;
  reviewCount : option N;
  aboutText : list N;
  extendedAbout : option (list N);
  avatar : option (list N)
}.
Arguments DoctorInfo number : clear implicits.

Definition emit (e : event) : M World unit :=
  fun w => Some (Return tt, {| trace := trace w ++ [e];
                               ownBrowser := ownBrowser w; page := page w |}).

(** A call to the browser that ends as [c]. *)
Definition outcome {A} (c : completion A) : M World A := fun w => Some (c, w).

(** [try { body } finally { cleanup }]: the cleanup runs however the body
    ends; when it throws, that is how the statement ends. *)
Definition try_finally {A} (body : M World A) (cleanup : M World unit) : M World A :=
  fun w =>
    match body w with
    | None => None
    | Some (c, w') =>
        match cleanup w' with
        | None => None
        | Some (Return _, w'') => Some (c, w'')
        | Some (Throw e, w'') => Some (Throw e, w'')
        end
    end.

(** ["//"] and ["https:"] *)
Definition slashes : list N := [47; 47]%N.
Definition https : list N := [104; 116; 116; 112; 115; 58]%N.

(** [s.startsWith(p)] *)
Fixpoint startsWith (p s : list N) : bool :=
  match p, s with
  | [], _ => true
  | c :: p', d :: s' => (c =? d)%N && startsWith p' s'
  | _ :: _, [] => false
  end.

Section Scraper.
Context {number : Type}.

(** [parseFloat] *)
Variable parseFloat : list N -> number.

Variable site : Site.

(** "1. Get Name": the header's name, else the first [h1], else [""]. *)
Definition get_name : M World (list N) :=
  try_catch
    (await rawName <- outcome (nameText site) in ret (cleanText rawName))
    (fun _ =>
       try_catch
         (await rawName <- outcome (h1Text site) in ret (cleanText rawName))
         (fun _ => ret [])).

(** "Avatar" *)
Definition get_avatar : M World (option (list N)) :=
  try_catch
    (await avatar <- outcome (avatarHref site) in
     ret (match avatar with
          | Some href => if startsWith slashes href then Some (https ++ href) else Some href
          | None => None
          end))
    (fun _ => ret None).

(** "2. Rating": [ratingStr ? parseFloat(ratingStr) : null] *)
Definition get_rating : M World (option number) :=
  try_catch
    (await ratingStr <- outcome (dataScore site) in
     ret (match ratingStr with
          | Some (c :: s) => Some (parseFloat (c :: s))
          | Some [] | None => None
          end))
    (fun _ => ret None).

(** "3. Review Count" *)
Definition get_reviewCount : M World (option N) :=
  try_catch
    (await text <- outcome (reviewText site) in ret (parse_reviewCount text))
    (fun _ => ret None).

(** "Click on .about-item > a:nth-child(2) if available" *)
Definition open_about : M World unit :=
  try_catch
    (await linkExists <- outcome (aboutLink site) in
     if linkExists : bool then
       run emit (Click ".about-item > a:nth-child(2)") in
       run outcome (aboutLinkClick site) in
       emit (Sleep 500)
     else ret tt)
    (fun _ => ret tt).

(** "4. About Text" *)
Definition get_aboutText : M World (list N) :=
  try_catch
    (await raw <- outcome (rawAbout site) in ret (cleanText raw))
    (fun _ => ret []).

(** "5. Extended About (Modal)" *)
Definition get_extendedAbout : M World (option (list N)) :=
  try_catch
    (await buttonExists <- outcome (moreButton site) in
     if buttonExists : bool then
       run outcome (scrollIntoView site) in
       run emit (Click ("#about-section button.btn-block, #about-section "
                        +:+ "button[data-test-id='doctor-about-description-show-more']")) in
       run outcome (moreButtonClick site) in
       run emit (Sleep 500) in
       try_catch
         (run outcome (modal site) in
          await rawExtended <- outcome (rawExtended site) in
          ret (Some (cleanText rawExtended)))
         (fun _ => ret None)
     else ret None)
    (fun _ => ret None).

(** [scrapeDoctorInfo(url, browser)]; [shared] tells whether a browser was
    passed. *)
Definition scrapeDoctorInfo (url : string) (shared : bool) : M World (DoctorInfo number) :=
  run (fun w => Some (Return tt, {| trace := trace w; ownBrowser := false; page := false |})) in
  try_finally
    (try_catch
       (run (if negb shared then
               run emit Launch in
               run outcome (launch site) in
               fun w => Some (Return tt, {| trace := trace w; ownBrowser := true;
                                            page := page w |})
             else ret tt) in
        run emit NewPage in
        run outcome (newPage site) in
        run (fun w => Some (Return tt, {| trace := trace w; ownBrowser := ownBrowser w;
                                          page := true |})) in
        run outcome (setViewport site) in
        run emit (Goto url) in
        run outcome (goto site) in
        await name <- get_name in
        await avatar <- get_avatar in
        await rating <- get_rating in
        await reviewCount <- get_reviewCount in
        run open_about in
        await aboutText <- get_aboutText in
        await extendedAbout <- get_extendedAbout in
        ret {| name := name; rating := rating; reviewCount := reviewCount;
               aboutText := aboutText; extendedAbout := extendedAbout;
               avatar := avatar |})
       (fun error => throw error))
    (run (fun w => if page w then (run emit ClosePage in outcome (closePage site)) w
                   else ret tt w) in
     fun w => if ownBrowser w then (run emit CloseBrowser in outcome (closeBrowser site)) w
              else ret tt w).

End Scraper.
End DoctorPage.

(** ** The batch scraper: link discovery and chunked scraping *)

Module BatchScraper.
Import DoctorScraper.

Record DoctorResult : Type := {
  url : string;
  data : option DoctorInfo;
  error : option string;
  pageNumber : option nat
}.

(** One element of the discoverer's result, [{ links, pageNumber }]. *)
Module PageData.
Record t : Type := { links : list string; pageNumber : nat }.
End PageData.

(** What loading listing page [n] and evaluating the anchor selector on it
    gives: [page.goto] throws; or the page loads and [page.$$eval] throws; or
    the [href] of every matched anchor, in document order. *)
Inductive page_load : Type :=
| LoadFails (e : thrown)
| EvalFails (e : thrown)
| Anchors (hrefs : list string).

(** [Batch] stands for the "Page p - Batch b/n: Processing k doctors..."
    line logged when a chunk is handed to [Promise.all]; [Started] and
    [Settled] tell when the promise of the callback at that index of the chunk
    is created and when it settles. *)
Inductive event : Type :=
| Goto (pageNum : nat)
| Batch (page : nat) (batch : list string)
| Started (index : nat)
| Scrape (target : string)
| Settled (index : nat)
| Sleep (ms : nat)
| Write (results : list DoctorResult).

(** [file] is the content of [doctor-results.json], when the file exists. *)
Record World : Type := {
  file : option (list DoctorResult);
  trace : list event
}.

#[global] Instance world_traced : Traced World event := {
  log := trace;
  relog := fun l w => {| file := file w; trace := l |};
  started := Started;
  settled := Settled
}.

Definition emit (e : event) : M World unit :=
  fun w => Some (Return tt, {| file := file w; trace := trace w ++ [e] |}).

(** The pages loaded so far, and the detail pages scraped so far. *)
Definition gotos (tr : list event) : list nat :=
  omap (fun e => match e with Goto n => Some n | _ => None end) tr.

Definition scrapes (tr : list event) : list string :=
  omap (fun e => match e with Scrape u => Some u | _ => None end) tr.

Definition writes (tr : list event) : list (list DoctorResult) :=
  omap (fun e => match e with Write r => Some r | _ => None end) tr.

(** The chunks handed to [Promise.all] so far. *)
Definition batches (tr : list event) : list (list string) :=
  omap (fun e => match e with Batch _ b => Some b | _ => None end) tr.

(** The promises created so far, and the promises settled so far. *)
Definition starts (tr : list event) : list nat :=
  omap (fun e => match e with Started i => Some i | _ => None end) tr.

Definition settles (tr : list event) : list nat :=
  omap (fun e => match e with Settled i => Some i | _ => None end) tr.

Section Oracles.

(** The listing site, by page number. *)
Variable listing : nat -> page_load.

(** [scrapeDoctorInfo(url, browser)]: the answer to the [n]-th call of the
    run, for the address it is given; the calls are numbered chunk after
    chunk and, inside a chunk, in the order of the callbacks. *)
Variable scrapeDoctorInfo : nat -> string -> completion DoctorInfo.

(** Who runs next among the callbacks of a chunk. *)
Variable schedule : nat -> nat -> nat.

Definition call_scrapeDoctorInfo (target : string) : M World DoctorInfo :=
  fun w =>
    Some (scrapeDoctorInfo (length (scrapes (trace w))) target,
          {| file := file w; trace := trace w ++ [Scrape target] |}).

(** [.filter((href) => href?.startsWith("http"))] inside [$$eval]. *)
Definition http_links (hrefs : list string) : list string :=
  filter (fun href => String.prefix "http" href = true) hrefs.

(** The [for (let pageNum = 1; pageNum <= maxPages; pageNum++)] loop, entered
    at [pageNum] with [todo] iterations left before the bound. *)
Fixpoint page_loop (todo pageNum : nat) (allPages : list PageData.t)
    (allUniqueUrls : gset string) : M World (list PageData.t) :=
  match todo with
  | 0 => ret allPages
  | S todo' =>
      run emit (Goto pageNum) in
      match listing pageNum with
      | LoadFails _ =>
          (* catch (err): logged, the loop goes on *)
          page_loop todo' (S pageNum) allPages allUniqueUrls
      | EvalFails _ =>
          run emit (Sleep 1500) in
          page_loop todo' (S pageNum) allPages allUniqueUrls
      | Anchors hrefs =>
          run emit (Sleep 1500) in
          let links := http_links hrefs in
          let newUniqueLinks := filter (fun link => link ∉ allUniqueUrls) links in
          let allUniqueUrls' :=
            foldl (fun seen link => {[link]} ∪ seen) allUniqueUrls newUniqueLinks in
          let allPages' :=
            if 0 <? length newUniqueLinks
            then allPages ++ [{| PageData.links := newUniqueLinks;
                                 PageData.pageNumber := pageNum |}]
            else allPages in
          if length links =? 0
          then ret allPages'   (* break *)
          else page_loop todo' (S pageNum) allPages' allUniqueUrls'
      end
  end.

(** The [try] block of [getDoctorLinksWithPagination] from the point where
    [browser.newPage()] has given the page ([Session] has the function whole,
    with the calls that open and close the browser): the cookie-consent step
    loads the listing root (page 1) once and swallows every failure, then the
    pages are walked. *)
Definition getDoctorLinksWithPagination (maxPages : nat) : M World (list PageData.t) :=
  run emit (Goto 1) in
  page_loop maxPages 1 [] ∅.

(** The callback of [batch.map(async (url, index) => ...)].  Every callback
    of a chunk runs its [scrapedUrls.has(url)] test when [map] calls it, before
    the first [await] of any of them, so all of them read the set as the chunk
    found it: [scrapedUrls] here. *)
Definition scrape_one (scrapedUrls : gset string) (page : nat)
    (index : nat) (target : string) : M World (option DoctorResult) :=
  try_catch
    (if decide (target ∈ scrapedUrls) then ret None
     else
       run emit (Sleep (200 * index)) in
       await info <- call_scrapeDoctorInfo target in
       ret (Some {| url := target; data := Some info; error := None;
                    pageNumber := Some page |}))
    (fun err =>
       ret (Some {| url := target; data := None;
                    error := Some (match err with
                                   | JsError message => message
                                   | JsOther _ => "Unknown error"
                                   end);
                    pageNumber := Some page |})).

(** [batchResults.filter((r) => r !== null)] *)
Definition not_null {A} (rs : list (option A)) : list A := omap id rs.

(** [for (let i = 0; i < links.length; i += concurrency)] over one page.
    Every callback that passed the test adds its address to [scrapedUrls]
    before the chunk is over, on success and on error. *)
Fixpoint batch_loop (fuel : nat) (concurrency : nat) (page : nat) (links : list string)
    (i : nat) (results : list DoctorResult) (scrapedUrls : gset string)
  : M World (list DoctorResult * gset string) :=
  if length links <=? i then ret (results, scrapedUrls)
  else
    match fuel with
    | 0 => diverge
    | S fuel' =>
        let batch := slice i (i + concurrency) links in
        run emit (Batch page batch) in
        await batchResults <- promise_all schedule (scrape_one scrapedUrls page) batch in
        let results' := results ++ not_null batchResults in
        let scrapedUrls' := list_to_set batch ∪ scrapedUrls in
        run (if i + concurrency <? length links then emit (Sleep 1000) else ret tt) in
        batch_loop fuel' concurrency page links (i + concurrency) results' scrapedUrls'
    end.

(** [for (const pageData of allPages)] *)
Fixpoint pages_loop (concurrency : nat) (allPages : list PageData.t)
    (results : list DoctorResult) (scrapedUrls : gset string)
  : M World (list DoctorResult) :=
  match allPages with
  | [] => ret results
  | pageData :: rest =>
      let links := PageData.links pageData in
      await (results', scrapedUrls') <-
        batch_loop (length links) concurrency (PageData.pageNumber pageData)
                   links 0 results scrapedUrls in
      pages_loop concurrency rest results' scrapedUrls'
  end.

(** The [try] block of [scrapeMultipleDoctors] from the point where
    [puppeteer.launch] has given the browser, with a discoverer whose
    [newPage] and [page.close()] go through ([Session] has the function
    whole). *)
Definition scrapeMultipleDoctors (concurrency maxPages : nat) : M World (list DoctorResult) :=
  await allPages <- getDoctorLinksWithPagination maxPages in
  if length allPages =? 0 then ret []
  else pages_loop concurrency allPages [] ∅.

End Oracles.
End BatchScraper.

(** ** The scraper with its browser *)

Module Session.
Import BatchScraper.

(** How the calls that open and close the browser end: [puppeteer.launch],
    [browser.newPage()] and [page.close()] in the discoverer, and
    [browser.close()]. *)
Record Browser : Type := {
  launch : completion unit;
  newPage : completion unit;
  closePage : completion unit;
  close : completion unit
}.

Definition returns {A} (c : completion A) : bool :=
  match c with Return _ => true | Throw _ => false end.

(** A call that ends as [c]. *)
Definition outcome {A} (c : completion A) : M World A := fun w => Some (c, w).

Section Oracles.
Variable browser : Browser.
Variable listing : nat -> page_load.
Variable scrapeDoctorInfo : nat -> string -> completion DoctorScraper.DoctorInfo.
Variable schedule : nat -> nat -> nat.

(** [getDoctorLinksWithPagination(listPageUrl, maxPages, browser)];
    [shared] tells whether a browser was passed.  In the [finally] block
    [page] holds a page exactly when [newPage] was reached and returned, and
    [ownBrowser] a browser exactly when none was passed and [launch]
    returned. *)
Definition getDoctorLinksWithPagination (maxPages : nat) (shared : bool)
  : M World (list PageData.t) :=
  let ownBrowser := negb shared && returns (launch browser) in
  let page := (shared || returns (launch browser)) && returns (newPage browser) in
  try_finally
    (try_catch
       (run (if shared then ret tt else outcome (launch browser)) in
        run outcome (newPage browser) in
        BatchScraper.getDoctorLinksWithPagination listing maxPages)
       (fun error => throw error))
    (run (if page then outcome (closePage browser) else ret tt) in
     if ownBrowser then outcome (close browser) else ret tt).

(** [scrapeMultipleDoctors(listPageUrl, concurrency, maxPages)]; in its
    [finally] block [browser] holds a browser exactly when [launch]
    returned. *)
Definition scrapeMultipleDoctors (concurrency maxPages : nat) : M World (list DoctorResult) :=
  try_finally
    (try_catch
       (run outcome (launch browser) in
        await allPages <- getDoctorLinksWithPagination maxPages true in
        if length allPages =? 0 then ret []
        else pages_loop scrapeDoctorInfo schedule concurrency allPages [] ∅)
       (fun error => throw error))
    (if returns (launch browser) then outcome (close browser) else ret tt).

End Oracles.
End Session.

(** ** The extraction-stage entry point *)

Inductive exit_status : Type :=
| Completed
| Exited (code : nat).

Module ScrapeMain.
Import BatchScraper.

Definition concurrency : nat := 12.
Definition maxPages : nat := 10.

(** [Bun.write("doctor-results.json", JSON.stringify(results, null, 2))] *)
Definition write_results (results : list DoctorResult) : M World unit :=
  fun w => Some (Return tt, {| file := Some results;
                               trace := trace w ++ [Write results] |}).

(** [result.pageNumber || 1] *)
Definition page_of (result : DoctorResult) : nat :=
  match pageNumber result with
  | Some page => if page =? 0 then 1 else page
  | None => 1
  end.

(** The "Group by page" object: [if (!byPage[page]) byPage[page] = [];
    byPage[page].push(result)] for every result. *)
Definition byPage (results : list DoctorResult) : gmap nat (list DoctorResult) :=
  foldl (fun groups result =>
           <[page_of result := default [] (groups !! page_of result) ++ [result]]> groups)
        ∅ results.

(** The "Successful" and "Failed" counts of the report. *)
Definition successful (results : list DoctorResult) : nat :=
  length (filter (fun r => data r <> None) results).

Definition failed_count (results : list DoctorResult) : nat :=
  length (filter (fun r => data r = None) results).

(** [main]: a scraper that is rejected ends the process with
    [process.exit(1)], and nothing is written. *)
Definition main (browser : Session.Browser) (listing : nat -> page_load)
    (scrapeDoctorInfo : nat -> string -> completion DoctorScraper.DoctorInfo)
    (schedule : nat -> nat -> nat)
  : M World exit_status :=
  try_catch
    (await results <- Session.scrapeMultipleDoctors browser listing scrapeDoctorInfo
                        schedule concurrency maxPages in
     run write_results results in
     ret Completed)
    (fun _ => ret (Exited 1)).

End ScrapeMain.

(** ** The records of [doctor-results.json] as the scoring stage types them *)

Module Profile.

Record Data : Type := {
  name : string;
  rating : Q;
  reviewCount : Q;
  aboutText : string;
  extendedAbout : option string
}.

Record t : Type := {
  url : string;
  data : Data;
  pageNumber : nat
}.

End Profile.

(** What [genAI.models.generateContent] gives for one request: a thrown
    value, a response without text, a text that [JSON.parse] rejects (with the
    message of its [SyntaxError]), or a text that parses to a document. *)
Inductive gen_response : Type :=
| GenThrows (e : thrown)
| GenNoText
| GenNotJson (message : string)
| GenJson (document : json).

Definition parse_string (j : json) : option string :=
  match j with JStr s => Some s | _ => None end.

Definition parse_array {A} (element : json -> option A) (j : json) : option (list A) :=
  match j with JArr items => mapM element items | _ => None end.

(** [.optional()]: the key may be missing; a value that is there is checked. *)
Definition parse_optional {A} (value : json -> option A) (field : option json)
  : option (option A) :=
  match field with
  | None => Some None
  | Some j => Some <$> value j
  end.

(** [z.number().min(0).max(100)] *)
Definition parse_score (j : json) : option Q :=
  match j with
  | JNum q => if in_range 0 100 q then Some q else None
  | _ => None
  end.

Inductive Confidence : Type := high | medium | low.

(** [z.enum(["high", "medium", "low"])] *)
Definition parse_confidence (j : json) : option Confidence :=
  match j with
  | JStr "high" => Some high
  | JStr "medium" => Some medium
  | JStr "low" => Some low
  | _ => None
  end.

(** ** src/evaluator/index.ts *)

Module Evaluator.

Record Flag : Type := { flag : string; evidence : string; impact : string }.

Record Reasoning : Type := {
  summary : string;
  greenFlagsFound : list Flag;
  redFlagsFound : list Flag;
  missingElements : option (list string);
  unexpectedPositives : option (list string)
}.

Record TherapistScore : Type := {
  score : Q;
  reasoning : Reasoning;
  confidence : Confidence
}.

(** [TherapistScore & { url: string; error?: string }]; [scored] holds the
    [TherapistScore] part. *)
Record AnalysisResult : Type := {
  url : string;
  scored : TherapistScore;
  error : option string
}.

Definition MAX_RETRIES : nat := 3.
Definition RETRY_DELAY : nat := 5000.
Definition BATCH_SIZE : nat := 3.
Definition BATCH_DELAY : nat := 1000.

(** [TherapistScoreSchema.parse]: [Some] for a document the schema accepts. *)
Definition parse_flag (j : json) : option Flag :=
  match j with
  | JObj fields =>
      f ← fields !! "flag" ≫= parse_string;
      e ← fields !! "evidence" ≫= parse_string;
      i ← fields !! "impact" ≫= parse_string;
      Some {| flag := f; evidence := e; impact := i |}
  | _ => None
  end.

Definition parse_reasoning (j : json) : option Reasoning :=
  match j with
  | JObj fields =>
      s ← fields !! "summary" ≫= parse_string;
      g ← fields !! "greenFlagsFound" ≫= parse_array parse_flag;
      r ← fields !! "redFlagsFound" ≫= parse_array parse_flag;
      m ← parse_optional (parse_array parse_string) (fields !! "missingElements");
      u ← parse_optional (parse_array parse_string) (fields !! "unexpectedPositives");
      Some {| summary := s; greenFlagsFound := g; redFlagsFound := r;
              missingElements := m; unexpectedPositives := u |}
  | _ => None
  end.

Definition TherapistScoreSchema_parse (j : json) : option TherapistScore :=
  match j with
  | JObj fields =>
      s ← fields !! "score" ≫= parse_score;
      r ← fields !! "reasoning" ≫= parse_reasoning;
      c ← fields !! "confidence" ≫= parse_confidence;
      Some {| score := s; reasoning := r; confidence := c |}
  | _ => None
  end.

(** The output file: a text [JSON.parse] rejects, or the array it holds. *)
Inductive file_content : Type :=
| Unparseable (text : string)
| Stored (results : list AnalysisResult).

(** [Batch] stands for the "Batch i/n - Processing k profiles..." line that
    [processBatch] logs before it hands the batch to [Promise.all];
    [Started] and [Settled] tell when the promise of the callback at that index
    of the batch is created and when it settles. *)
Inductive event : Type :=
| Batch (profiles : list Profile.t)
| Started (index : nat)
| Request (profile : Profile.t)
| Settled (index : nat)
| Sleep (ms : nat)
| Warn (message : string)
| Write (results : list AnalysisResult).

Record World : Type := {
  outputFile : option file_content;
  trace : list event
}.

#[global] Instance world_traced : Traced World event := {
  log := trace;
  relog := fun l w => {| outputFile := outputFile w; trace := l |};
  started := Started;
  settled := Settled
}.

Definition emit (e : event) : M World unit :=
  fun w => Some (Return tt, {| outputFile := outputFile w; trace := trace w ++ [e] |}).

(** The profiles sent to the service so far, one entry per request. *)
Definition requests (tr : list event) : list Profile.t :=
  omap (fun e => match e with Request p => Some p | _ => None end) tr.

Definition warnings (tr : list event) : list string :=
  omap (fun e => match e with Warn m => Some m | _ => None end) tr.

Definition writes (tr : list event) : list (list AnalysisResult) :=
  omap (fun e => match e with Write r => Some r | _ => None end) tr.

(** The batches handed to [Promise.all] so far. *)
Definition batches (tr : list event) : list (list Profile.t) :=
  omap (fun e => match e with Batch b => Some b | _ => None end) tr.

(** The promises created so far, and the promises settled so far. *)
Definition starts (tr : list event) : list nat :=
  omap (fun e => match e with Started i => Some i | _ => None end) tr.

Definition settles (tr : list event) : list nat :=
  omap (fun e => match e with Settled i => Some i | _ => None end) tr.

(** [Bun.write(outputFile, JSON.stringify(results, null, 2))] *)
Definition write_results (results : list AnalysisResult) : M World unit :=
  fun w => Some (Return tt, {| outputFile := Some (Stored results);
                               trace := trace w ++ [Write results] |}).

Section Service.

(** The message of the [ZodError] raised for a document the schema rejects. *)
Variable zodMessage : json -> string.

(** Who runs next among the callbacks of a batch. *)
Variable schedule : nat -> nat -> nat.

(** [TherapistMatchingService.scoreTherapist].  The prompt is the builder's
    fixed template with the profile text put in, so the request is recorded by
    the profile it is about; [answer] is what the service gives back. *)
Definition scoreTherapist (answer : gen_response) (therapistProfile : Profile.t)
  : M World TherapistScore :=
  run emit (Request therapistProfile) in
  match answer with
  | GenThrows e => throw e
  | GenNoText => throw (JsError "Empty response from Gemini")
  | GenNotJson message => throw (JsError message)
  | GenJson document =>
      match TherapistScoreSchema_parse document with
      | Some scoreResult => ret scoreResult
      | None => throw (JsError (zodMessage document))
      end
  end.

(** [error instanceof Error ? error.message : String(error)] *)
Definition error_text (err : thrown) : string :=
  match err with
  | JsError message => message
  | JsOther repr => repr
  end.

(** The "Failed" object of the [catch] block. *)
Definition failed (therapistUrl : string) (err : thrown) : AnalysisResult :=
  {| url := therapistUrl;
     scored := {| score := 0;
                  reasoning := {| summary := "ANALYSIS FAILED: " +:+ error_text err;
                                  greenFlagsFound := [];
                                  redFlagsFound := [];
                                  missingElements := None;
                                  unexpectedPositives := None |};
                  confidence := low |};
     error := Some (error_text err) |}.

(** [analyzeTherapist(service, therapistProfile, ..., retryCount)].
    [answers k] is the service's answer to the attempt made with
    [retryCount = k]; [fuel] bounds the depth of the recursion. *)
Fixpoint analyzeTherapist (fuel : nat) (answers : nat -> gen_response)
    (therapistProfile : Profile.t) (retryCount : nat) : M World AnalysisResult :=
  match fuel with
  | 0 => diverge
  | S fuel' =>
      try_catch
        (await scoreResult <- scoreTherapist (answers retryCount) therapistProfile in
         ret {| url := Profile.url therapistProfile;
                scored := scoreResult;
                error := None |})
        (fun err =>
           if retryCount <? MAX_RETRIES then
             run emit (Sleep RETRY_DELAY) in
             analyzeTherapist fuel' answers therapistProfile (S retryCount)
           else
             ret (failed (Profile.url therapistProfile) err))
  end.

(** [processBatch]: [remote j] holds the answers to the attempts on the
    [j]-th profile of the batch. *)
Definition processBatch (remote : nat -> nat -> gen_response)
    (profiles : list Profile.t) : M World (list AnalysisResult) :=
  run emit (Batch profiles) in
  promise_all schedule
    (fun index p => analyzeTherapist (S MAX_RETRIES) (remote index) p 0)
    profiles.

(** Step 4 of [main]: the earlier results, when the output file exists and
    parses; a warning and no results when it does not parse. *)
Definition read_results : M World (list AnalysisResult) :=
  fun w =>
    match outputFile w with
    | Some (Stored results) => Some (Return results, w)
    | Some (Unparseable text) => Some (Throw (JsError ("JSON Parse error: " +:+ text)), w)
    | None => Some (Return [], w)
    end.

Definition load_results : M World (list AnalysisResult) :=
  fun w =>
    match outputFile w with
    | None => ret [] w
    | Some _ =>
        try_catch read_results
          (fun _ => run emit (Warn "File output corrotto, ricomincio.") in ret []) w
    end.

(** [for (let i = 0; i < profilesToAnalyze.length; i += BATCH_SIZE)
       batches.push(profilesToAnalyze.slice(i, i + BATCH_SIZE))] *)
Fixpoint make_batches (fuel : nat) (profilesToAnalyze : list Profile.t) (i : nat)
    (batches : list (list Profile.t)) : option (list (list Profile.t)) :=
  if length profilesToAnalyze <=? i then Some batches
  else
    match fuel with
    | 0 => None
    | S fuel' =>
        make_batches fuel' profilesToAnalyze (i + BATCH_SIZE)
          (batches ++ [slice i (i + BATCH_SIZE) profilesToAnalyze])
    end.

(** [results.sort((a, b) => b.score - a.score)]: a stable sort, highest
    score first. *)
Fixpoint insert_by_score (r : AnalysisResult) (sorted : list AnalysisResult)
  : list AnalysisResult :=
  match sorted with
  | [] => [r]
  | r' :: rest =>
      if Qle_bool (score (scored r')) (score (scored r))
      then r :: r' :: rest
      else r' :: insert_by_score r rest
  end.

Definition sort_by_score (results : list AnalysisResult) : list AnalysisResult :=
  foldr insert_by_score [] results.

(** [for (let i = 0; i < batches.length; i++)], entered at [i] with the
    batches from [i] on; [remote k] holds the answers for the [k]-th profile
    of [profilesToAnalyze]. *)
Fixpoint batches_loop (remote : nat -> nat -> gen_response) (total : nat)
    (batches : list (list Profile.t)) (i : nat) (results : list AnalysisResult)
  : M World (list AnalysisResult) :=
  match batches with
  | [] => ret results
  | batch :: rest =>
      await batchResults <- processBatch (fun j => remote (i * BATCH_SIZE + j)) batch in
      let results' := results ++ batchResults in
      run write_results results' in
      run (if i <? total - 1 then emit (Sleep BATCH_DELAY) else ret tt) in
      batches_loop remote total rest (S i) results'
  end.

(** The profiles [main] keeps after looking at the earlier results. *)
Definition pending (results : list AnalysisResult) (profiles : list Profile.t)
  : list Profile.t :=
  let analyzedUrls : gset string := list_to_set (url <$> results) in
  filter (fun p => Profile.url p ∉ analyzedUrls) profiles.

(** [main], from the point where the input file has been read and parsed:
    [apiKey] tells whether [GEMINI_API_KEY] is set, [profiles] is the parsed
    input. *)
Definition main (apiKey : bool) (profiles : list Profile.t)
    (remote : nat -> nat -> gen_response) : M World exit_status :=
  if negb apiKey then ret (Exited 1)
  else
    await results <- load_results in
    let profilesToAnalyze := pending results profiles in
    if length profilesToAnalyze =? 0 then ret (Exited 0)
    else
      match make_batches (length profilesToAnalyze) profilesToAnalyze 0 [] with
      | None => diverge
      | Some batches =>
          await results' <- batches_loop remote (length batches) batches 0 results in
          let sorted := sort_by_score results' in
          run write_results sorted in
          ret Completed
      end.

End Service.
End Evaluator.

(** ** The sequential analysis script built on [AnalysisSchema] *)

Module Analyze.

Record Reasoning : Type := {
  summary : string;
  green_flags : list string;
  red_flags : list string
}.

Record AnalysisResult : Type := {
  score : Q;
  detected_approach : string;
  reasoning : Reasoning;
  confidence : Confidence
}.

(** [AnalysisResult & { name: string; url: string }] *)
Record Entry : Type := {
  name : string;
  url : string;
  analysis : AnalysisResult
}.

Definition parse_reasoning (j : json) : option Reasoning :=
  match j with
  | JObj fields =>
      s ← fields !! "summary" ≫= parse_string;
      g ← fields !! "green_flags" ≫= parse_array parse_string;
      r ← fields !! "red_flags" ≫= parse_array parse_string;
      Some {| summary := s; green_flags := g; red_flags := r |}
  | _ => None
  end.

(** [AnalysisSchema.parse] *)
Definition AnalysisSchema_parse (j : json) : option AnalysisResult :=
  match j with
  | JObj fields =>
      s ← fields !! "score" ≫= parse_score;
      d ← fields !! "detected_approach" ≫= parse_string;
      r ← fields !! "reasoning" ≫= parse_reasoning;
      c ← fields !! "confidence" ≫= parse_confidence;
      Some {| score := s; detected_approach := d; reasoning := r; confidence := c |}
  | _ => None
  end.

(** A record of [doctor-results.json] as the script reads it.  The file is
    what the extraction stage wrote: [data] is [None] ([null]) for a profile
    that could not be scraped. *)
Module Input.
Record t : Type := { url : string; data : option Profile.Data }.
End Input.

Inductive event : Type :=
| Request (profile : Input.t)
| Sleep (ms : nat)
| Write (results : list Entry).

Record World : Type := {
  outputFile : option (list Entry);
  trace : list event
}.

Definition emit (e : event) : M World unit :=
  fun w => Some (Return tt, {| outputFile := outputFile w; trace := trace w ++ [e] |}).

Definition write_results (results : list Entry) : M World unit :=
  fun w => Some (Return tt, {| outputFile := Some results;
                               trace := trace w ++ [Write results] |}).

Section Service.

Variable zodMessage : json -> string.

(** The body of the [try] block, up to [AnalysisSchema.parse]. *)
Definition analyse (answer : gen_response) (p : Input.t) : M World AnalysisResult :=
  run emit (Request p) in
  match answer with
  | GenThrows e => throw e
  | GenNoText => throw (JsError "No response text")
  | GenNotJson message => throw (JsError message)
  | GenJson document =>
      match AnalysisSchema_parse document with
      | Some analysis => ret analysis
      | None => throw (JsError (zodMessage document))
      end
  end.

(** [for (let i = 0; i < profiles.length; i++)], entered at [i] with the
    profiles from [i] on; [remote i] is the answer to the request for
    [profiles[i]].  The line that logs [p.data.name] stands before the [try]:
    on a record whose [data] is [null] it throws a [TypeError] that nothing
    catches.  The [catch] block only logs. *)
Fixpoint profiles_loop (remote : nat -> gen_response) (profiles : list Input.t)
    (i : nat) (results : list Entry) : M World (list Entry) :=
  match profiles with
  | [] => ret results
  | p :: rest =>
      match Input.data p with
      | None => throw (JsError "null is not an object (evaluating 'p.data.name')")
      | Some data =>
          await results' <-
            try_catch
              (await analysis <- analyse (remote i) p in
               let results' :=
                 results ++ [{| name := Profile.name data;
                                url := Input.url p;
                                analysis := analysis |}] in
               run write_results results' in
               run emit (Sleep 500) in
               ret results')
              (fun _ => ret results) in
          profiles_loop remote rest (S i) results'
      end
  end.

Fixpoint insert_by_score (r : Entry) (sorted : list Entry) : list Entry :=
  match sorted with
  | [] => [r]
  | r' :: rest =>
      if Qle_bool (score (analysis r')) (score (analysis r))
      then r :: r' :: rest
      else r' :: insert_by_score r rest
  end.

Definition sort_by_score (results : list Entry) : list Entry :=
  foldr insert_by_score [] results.

(** [main]: [apiKey] tells whether [GEMINI_API_KEY] is set, [profiles] is
    the parsed input file.  Nothing is returned; a run that throws is logged
    by [main().catch(console.error)]. *)
Definition main (apiKey : bool) (profiles : list Input.t) (remote : nat -> gen_response)
  : M World unit :=
  if negb apiKey then throw (JsError "Missing GEMINI_API_KEY")
  else
    await results <- profiles_loop remote profiles 0 [] in
    let sorted := sort_by_score results in
    run write_results sorted in
    ret tt.

End Service.
End Analyze.

(** ** The [/api/therapists] merge of the HTTP server *)

Module Server.

(** A row of [analysis_results.json] as the endpoint types it. *)
Record Therapist : Type := {
  url : string;
  nome_terapeuta : string;
  score : Q;
  approccio_rilevato : string;
  match_reasoning : string;
  logistica_check : option string;
  logistica_online : option string;
  logistica_estero : option string;
  logistica_match : option string;
  logistica : option string;
  criticita : option string
}.

(** The [data] of a row of [doctor-results.json]; [None] is a key that is
    missing (or [null]). *)
Record DoctorData : Type := {
  name : string;
  rating : option Q;
  reviewCount : option Q;
  aboutText : string;
  extendedAbout : option string;
  avatar : option string
}.

Module Doc.
Record t : Type := { url : string; data : DoctorData; pageNumber : nat }.
End Doc.

(** [{ ...therapist, rating, reviewCount, avatar }]; [None] is [null]. *)
Module Merged.
Record t : Type := {
  therapist : Therapist;
  rating : option Q;
  reviewCount : option Q;
  avatar : option string
}.
End Merged.

(** [new Map(doctorData.map((doc) => [doc.url, doc.data]))]: entries are set
    in order, a later one replaces an earlier one with the same key. *)
Definition doctorMap (doctorData : list Doc.t) : gmap string DoctorData :=
  foldl (fun m doc => <[Doc.url doc := Doc.data doc]> m) ∅ doctorData.

(** [value || null] *)
Definition num_or_null (value : option Q) : option Q :=
  match value with
  | Some q => if truthy_num q then Some q else None
  | None => None
  end.

Definition str_or_null (value : option string) : option string :=
  match value with
  | Some s => if truthy_str s then Some s else None
  | None => None
  end.

Definition merge (map : gmap string DoctorData) (therapist : Therapist) : Merged.t :=
  {| Merged.therapist := therapist;
     Merged.rating := num_or_null (map !! url therapist ≫= rating);
     Merged.reviewCount := num_or_null (map !! url therapist ≫= reviewCount);
     Merged.avatar := str_or_null (map !! url therapist ≫= avatar) |}.

Definition mergedData (analysisData : list Therapist) (doctorData : list Doc.t)
  : list Merged.t :=
  merge (doctorMap doctorData) <$> analysisData.

End Server.

(** * Concrete inputs *)

Module Sample.

Definition info (n : string) : DoctorScraper.DoctorInfo :=
  {| DoctorScraper.name := n; DoctorScraper.rating := None;
     DoctorScraper.reviewCount := None; DoctorScraper.aboutText := "";
     DoctorScraper.extendedAbout := None; DoctorScraper.avatar := None |}.

(** A scraper that fails on one address and succeeds on every other. *)
Definition scrape (n : nat) (target : string) : completion DoctorScraper.DoctorInfo :=
  if String.eqb target "http://b" then Throw (JsError "net::ERR_TIMED_OUT")
  else Return (info target).

(** Page 1 shows the same profile twice. *)
Definition twice (pageNum : nat) : BatchScraper.page_load :=
  match pageNum with
  | 1 => BatchScraper.Anchors ["http://a"; "http://a"]
  | _ => BatchScraper.Anchors []
  end.

(** Scenario A: three pages, the second without links. *)
Definition gap (pageNum : nat) : BatchScraper.page_load :=
  match pageNum with
  | 1 => BatchScraper.Anchors ["http://a"]
  | 2 => BatchScraper.Anchors []
  | _ => BatchScraper.Anchors ["http://c"]
  end.

(** Page 2 repeats page 1, page 3 brings a new link, page 4 fails to load. *)
Definition repeats (pageNum : nat) : BatchScraper.page_load :=
  match pageNum with
  | 1 => BatchScraper.Anchors ["http://a"; "mailto:x"]
  | 2 => BatchScraper.Anchors ["http://a"]
  | 3 => BatchScraper.Anchors ["http://b"]
  | 4 => BatchScraper.LoadFails (JsError "timeout")
  | _ => BatchScraper.Anchors []
  end.

Definition fresh : BatchScraper.World :=
  {| BatchScraper.file := None; BatchScraper.trace := [] |}.


(** Two pages with one profile each, then an empty page. *)
Definition two_pages (pageNum : nat) : BatchScraper.page_load :=
  match pageNum with
  | 1 => BatchScraper.Anchors ["http://a"]
  | 2 => BatchScraper.Anchors ["http://b"]
  | _ => BatchScraper.Anchors []
  end.

(** A run that finds [doctor-results.json] holding the record of a profile. *)
Definition resumed : BatchScraper.World :=
  {| BatchScraper.file :=
       Some [{| BatchScraper.url := "http://a";
                BatchScraper.data := Some (info "http://a");
                BatchScraper.error := None;
                BatchScraper.pageNumber := Some 1 |}];
     BatchScraper.trace := [] |}.


Definition profile (u : string) : Profile.t :=
  {| Profile.url := u;
     Profile.data := {| Profile.name := "Dott. " +:+ u;
                        Profile.rating := 5;
                        Profile.reviewCount := 12;
                        Profile.aboutText := "Psicoterapeuta";
                        Profile.extendedAbout := None |};
     Profile.pageNumber := 1 |}.

Definition zodMessage (document : json) : string := "ZodError".

(** A service that never answers with a text. *)
Definition silent (attempt : nat) : gen_response := GenNoText.

Definition fresh_analysis : Analyze.World :=
  {| Analyze.outputFile := None; Analyze.trace := [] |}.

Definition fresh_scoring : Evaluator.World :=
  {| Evaluator.outputFile := None; Evaluator.trace := [] |}.

(** A document [TherapistScoreSchema] accepts, with the given score. *)
Definition score_document (q : Q) : json :=
  JObj (<["score" := JNum q]>
        (<["confidence" := JStr "high"]>
         {["reasoning" :=
             JObj (<["summary" := JStr "Approccio relazionale"]>
                   (<["greenFlagsFound" := JArr []]>
                    {["redFlagsFound" := JArr []]}))]})).

(** Scenario C: two failures, then an answer. *)
Definition third_time (attempt : nat) : gen_response :=
  match attempt with
  | 0 => GenThrows (JsError "503")
  | 1 => GenNoText
  | _ => GenJson (score_document 80)
  end.

(** An earlier result for [a]. *)
Definition earlier : Evaluator.AnalysisResult :=
  {| Evaluator.url := "a";
     Evaluator.scored :=
       {| Evaluator.score := 40;
          Evaluator.reasoning :=
            {| Evaluator.summary := "Approccio strategico";
               Evaluator.greenFlagsFound := [];
               Evaluator.redFlagsFound := [];
               Evaluator.missingElements := None;
               Evaluator.unexpectedPositives := None |};
          Evaluator.confidence := medium |};
     Evaluator.error := None |}.

(** Scenario B: the output file holds the result for [a]. *)
Definition checkpointed : Evaluator.World :=
  {| Evaluator.outputFile := Some (Evaluator.Stored [earlier]);
     Evaluator.trace := [] |}.

(** Scenario D: the output file does not parse. *)
Definition corrupted : Evaluator.World :=
  {| Evaluator.outputFile := Some (Evaluator.Unparseable "{not valid json");
     Evaluator.trace := [] |}.

(** Every profile gets an answer at once. *)
Definition obliging (item attempt : nat) : gen_response :=
  GenJson (score_document 80).

(** A row of the analysis file, and an extraction record for the same url
    whose rating and review count are 0 and whose avatar is the empty string. *)
Definition row : Server.Therapist :=
  {| Server.url := "http://a";
     Server.nome_terapeuta := "Dott. A";
     Server.score := 72;
     Server.approccio_rilevato := "Gestalt";
     Server.match_reasoning := "Lavoro corporeo";
     Server.logistica_check := None;
     Server.logistica_online := None;
     Server.logistica_estero := None;
     Server.logistica_match := None;
     Server.logistica := None;
     Server.criticita := None |}.

Definition unrated : Server.Doc.t :=
  {| Server.Doc.url := "http://a";
     Server.Doc.data := {| Server.name := "Dott. A";
                           Server.rating := Some 0%Q;
                           Server.reviewCount := Some 0%Q;
                           Server.aboutText := "Psicoterapeuta";
                           Server.extendedAbout := None;
                           Server.avatar := Some "" |};
     Server.Doc.pageNumber := 1 |}.

(** The text "  Dott.\n\tRossi  " and the text "(128 recensioni)". *)
Definition padded_name : list N :=
  [32; 32; 68; 111; 116; 116; 46; 10; 9; 82; 111; 115; 115; 105; 32; 32]%N.

Definition clean_name : list N :=
  [68; 111; 116; 116; 46; 32; 82; 111; 115; 115; 105]%N.

(** The score [score_document 80] parses to, and the errors of the two
    failed attempts of [third_time]. *)
Definition accepted : Evaluator.TherapistScore :=
  {| Evaluator.score := 80;
     Evaluator.reasoning :=
       {| Evaluator.summary := "Approccio relazionale";
          Evaluator.greenFlagsFound := [];
          Evaluator.redFlagsFound := [];
          Evaluator.missingElements := None;
          Evaluator.unexpectedPositives := None |};
     Evaluator.confidence := high |}.

Definition failures (attempt : nat) : thrown :=
  match attempt with
  | 0 => JsError "503"
  | _ => JsError "Empty response from Gemini"
  end.

(** A profile page on which everything is found, reached with a browser of
    the run's own; [failing_close] is the same page when [page.close()]
    throws. *)
Definition found : DoctorPage.Site :=
  {| DoctorPage.launch := Return tt;
     DoctorPage.newPage := Return tt;
     DoctorPage.setViewport := Return tt;
     DoctorPage.goto := Return tt;
     DoctorPage.nameText := Return (Some padded_name);
     DoctorPage.h1Text := Return None;
     DoctorPage.avatarHref := Return (Some [47; 47; 97; 46; 105; 116; 47; 120]%N);
     DoctorPage.dataScore := Return (Some [52; 46; 53]%N);
     DoctorPage.reviewText := Return (Some [40; 49; 50; 56; 41]%N);
     DoctorPage.aboutLink := Return false;
     DoctorPage.aboutLinkClick := Return tt;
     DoctorPage.rawAbout := Throw (JsError "failed to find element");
     DoctorPage.moreButton := Return false;
     DoctorPage.scrollIntoView := Return tt;
     DoctorPage.moreButtonClick := Return tt;
     DoctorPage.modal := Return tt;
     DoctorPage.rawExtended := Return None;
     DoctorPage.closePage := Return tt;
     DoctorPage.closeBrowser := Return tt |}.

Definition failing_close : DoctorPage.Site :=
  {| DoctorPage.launch := Return tt;
     DoctorPage.newPage := Return tt;
     DoctorPage.setViewport := Return tt;
     DoctorPage.goto := Return tt;
     DoctorPage.nameText := Return (Some padded_name);
     DoctorPage.h1Text := Return None;
     DoctorPage.avatarHref := Return None;
     DoctorPage.dataScore := Return None;
     DoctorPage.reviewText := Return None;
     DoctorPage.aboutLink := Return false;
     DoctorPage.aboutLinkClick := Return tt;
     DoctorPage.rawAbout := Return None;
     DoctorPage.moreButton := Return false;
     DoctorPage.scrollIntoView := Return tt;
     DoctorPage.moreButtonClick := Return tt;
     DoctorPage.modal := Return tt;
     DoctorPage.rawExtended := Return None;
     DoctorPage.closePage := Throw (JsError "Target closed");
     DoctorPage.closeBrowser := Return tt |}.

Definition before_scraping : DoctorPage.World :=
  {| DoctorPage.trace := []; DoctorPage.ownBrowser := false; DoctorPage.page := false |}.

(** A scheduler that lets the callbacks run in turn. *)
Definition in_turn (position step : nat) : nat := step.

(** A browser that does what it is asked, and one that cannot be
    launched. *)
Definition chromium : Session.Browser :=
  {| Session.launch := Return tt;
     Session.newPage := Return tt;
     Session.closePage := Return tt;
     Session.close := Return tt |}.

Definition no_chromium : Session.Browser :=
  {| Session.launch := Throw (JsError "Failed to launch the browser process");
     Session.newPage := Return tt;
     Session.closePage := Return tt;
     Session.close := Return tt |}.

(** A browser whose [close] throws. *)
Definition stuck_chromium : Session.Browser :=
  {| Session.launch := Return tt;
     Session.newPage := Return tt;
     Session.closePage := Return tt;
     Session.close := Throw (JsError "Protocol error: Connection closed") |}.

(** Records of [doctor-results.json]: a scraped profile, and a profile
    that could not be scraped. *)
Definition scraped (u : string) : Analyze.Input.t :=
  {| Analyze.Input.url := u;
     Analyze.Input.data := Some {| Profile.name := "Dott. " +:+ u;
                                   Profile.rating := 5;
                                   Profile.reviewCount := 12;
                                   Profile.aboutText := "Psicoterapeuta";
                                   Profile.extendedAbout := None |} |}.

Definition unscraped (u : string) : Analyze.Input.t :=
  {| Analyze.Input.url := u; Analyze.Input.data := None |}.

(** A document [AnalysisSchema] accepts, with the given score. *)
Definition analysis_document (q : Q) : json :=
  JObj (<["score" := JNum q]>
        (<["detected_approach" := JStr "Gestalt"]>
         (<["confidence" := JStr "high"]>
          {["reasoning" :=
              JObj (<["summary" := JStr "Approccio relazionale"]>
                    (<["green_flags" := JArr []]>
                     {["red_flags" := JArr []]}))]}))).

(** The first profile fails once and then gets an answer; every other
    profile gets an answer at once. *)
Definition first_balks (item attempt : nat) : gen_response :=
  match item, attempt with
  | 0, 0 => GenThrows (JsError "503")
  | _, _ => GenJson (score_document 80)
  end.

End Sample.

(** * The vocabulary of the properties

    What the statements below say about runs of the scripts: which events a
    run adds, what a record says about the item it was made for. *)

(** ** Chunks of callbacks in a log *)

Module Chunks.
Section Chunks.
Context {E : Type}.

(** What the log tells about promises and chunks: [created e] and
    [finished e] give the index of the promise an event creates or settles,
    [handed e] the size of the chunk an event hands to [Promise.all]. *)
Variables (created finished handed : E -> option nat).

(** What a chunk of [n] callbacks logs between its handover and the moment
    [Promise.all] is through: no other chunk is handed over, the promises
    [0 .. n - 1] are created and settled, and none settles before it is
    created. *)
Definition chunk_run (n : nat) (body : list E) : Prop :=
  omap handed body = []
  /\ omap created body ≡ₚ seq 0 n
  /\ omap finished body ≡ₚ seq 0 n
  /\ forall pre, pre `prefix_of` body ->
       length (omap finished pre) <= length (omap created pre).

(** What a callback logs of its own names no promise and no chunk. *)
Definition plain (added : list E) : Prop :=
  omap created added = [] /\ omap finished added = [] /\ omap handed added = [].

(** A log made of chunks of at most [limit] callbacks, each run to its end
    before anything else is logged. *)
Inductive chunked (limit : nat) : list E -> Prop :=
| chunked_nil : chunked limit []
| chunked_other e evs :
    created e = None -> finished e = None -> handed e = None ->
    chunked limit evs -> chunked limit (e :: evs)
| chunked_chunk e n body evs :
    handed e = Some n -> created e = None -> finished e = None ->
    n <= limit -> chunk_run n body ->
    chunked limit evs -> chunked limit (e :: body ++ evs).

End Chunks.
End Chunks.

Module ScraperSpec.
Import DoctorScraper BatchScraper.

(** [runs m tr a evs]: started on trace [tr], whatever the file holds, [m]
    returns [a], adds the events [evs] and leaves the file as it is. *)
Definition runs {A} (m : M World A) (tr : list event) (a : A) (evs : list event) : Prop :=
  forall f, m {| file := f; trace := tr |}
            = Some (Return a, {| file := f; trace := tr ++ evs |}).

(** Events of the page walk, and events of the chunk loops for limit [c]. *)
Definition discovery_event (e : event) : Prop :=
  match e with Goto _ | Sleep _ => True | _ => False end.

Definition chunk_event (c : nat) (e : event) : Prop :=
  match e with
  | Batch _ b => length b <= c
  | Started _ | Scrape _ | Settled _ | Sleep _ => True
  | _ => False
  end.

(** Events of one callback of a chunk. *)
Definition callback_event (e : event) : Prop :=
  match e with Scrape _ | Sleep _ => True | _ => False end.

(** Events of the callbacks and of their promises. *)
Definition inside_chunk (e : event) : Prop :=
  match e with Started _ | Scrape _ | Settled _ | Sleep _ => True | _ => False end.

(** What an event tells about promises and chunks: the index of the
    promise it creates, or of the promise it settles, or the size of the chunk
    it hands to [Promise.all]. *)
Definition created (e : event) : option nat :=
  match e with Started i => Some i | _ => None end.

Definition finished (e : event) : option nat :=
  match e with Settled i => Some i | _ => None end.

Definition handed (e : event) : option nat :=
  match e with Batch _ b => Some (length b) | _ => None end.

(** A log made of chunks of at most [limit] callbacks, each run to its end
    before anything else is logged. *)
Definition chunked (limit : nat) (evs : list event) : Prop :=
  Chunks.chunked created finished handed limit evs.

(** A page on which the selector finds no usable link: the [break]. *)
Definition exhausted (load : page_load) : Prop :=
  match load with
  | Anchors hrefs => http_links hrefs = []
  | LoadFails _ | EvalFails _ => False
  end.

#[global] Instance exhausted_dec load : Decision (exhausted load).
Proof. destruct load; cbn; apply _. Defined.

(** How many pages the loop loads when entered at [pageNum]. *)
Fixpoint walk_length (listing : nat -> page_load) (todo pageNum : nat) : nat :=
  match todo with
  | 0 => 0
  | S todo' =>
      if decide (exhausted (listing pageNum)) then 1
      else S (walk_length listing todo' (S pageNum))
  end.

(** What the callback makes of the scraper's answer. *)
Definition outcome (page : nat) (target : string) (c : completion DoctorInfo)
  : DoctorResult :=
  match c with
  | Return info =>
      {| url := target; data := Some info; error := None; pageNumber := Some page |}
  | Throw err =>
      {| url := target; data := None;
         error := Some (match err with
                        | JsError message => message
                        | JsOther _ => "Unknown error"
                        end);
         pageNumber := Some page |}
  end.

(** A record made from some answer of the scraper for [target]. *)
Definition answered (scrapeDoctorInfo : nat -> string -> completion DoctorInfo)
    (page : nat) (target : string) (r : DoctorResult) : Prop :=
  exists n, r = outcome page target (scrapeDoctorInfo n target).

(** What a chunk's callback gives for [target], [scraped] being the set the
    chunk found. *)
Definition chunk_result (scrapeDoctorInfo : nat -> string -> completion DoctorInfo)
    (scraped : gset string) (page : nat) (target : string)
    (r : option DoctorResult) : Prop :=
  if decide (target ∈ scraped) then r = None
  else exists r', r = Some r' /\ answered scrapeDoctorInfo page target r'.

(** Every address the discoverer hands over, page after page. *)
Definition all_links (allPages : list PageData.t) : list string :=
  concat (PageData.links <$> allPages).

(** The usable links of listing page [n]; none when the page does not load. *)
Definition raw_links (listing : nat -> page_load) (n : nat) : list string :=
  match listing n with
  | Anchors hrefs => http_links hrefs
  | LoadFails _ | EvalFails _ => []
  end.

(** [R] holds between every element of the list and every later one. *)
Definition pairwise {A} (R : A -> A -> Prop) (l : list A) : Prop :=
  forall i j a b, i < j -> l !! i = Some a -> l !! j = Some b -> R a b.

(** Two groups of the discoverer's result, the first one earlier: the page
    numbers go up and no address of the first is in the second. *)
Definition apart (g g' : PageData.t) : Prop :=
  PageData.pageNumber g < PageData.pageNumber g'
  /\ forall x, x ∈ PageData.links g -> x ∉ PageData.links g'.

(** A group as the discoverer emits it: not empty, made of links of its own
    page in the order of the page, every one an http address. *)
Definition well_formed_group (listing : nat -> page_load) (g : PageData.t) : Prop :=
  PageData.links g <> []
  /\ 1 <= PageData.pageNumber g
  /\ PageData.links g `sublist_of` raw_links listing (PageData.pageNumber g)
  /\ Forall (fun x => String.prefix "http" x = true) (PageData.links g).

(** The operations in flight after the events [tr]: the promises created
    and not yet settled. *)
Definition in_flight (tr : list event) : nat :=
  length (starts tr) - length (settles tr).

(** At no point of the log is a promise settled that was not created, and
    at no point are more than [limit] promises in flight. *)
Definition at_most_in_flight (limit : nat) (evs : list event) : Prop :=
  forall pre post, evs = pre ++ post ->
    length (settles pre) <= length (starts pre) /\ in_flight pre <= limit.

(** Whenever a chunk is handed to [Promise.all] it holds at most [limit]
    addresses, and of the chunks handed over before every promise has been
    created and none is in flight; whenever a promise is created it is one of
    the chunk handed over last; at the end every promise of every chunk has
    been created and none is in flight. *)
Definition chunk_after_chunk (limit : nat) (evs : list event) : Prop :=
  (forall pre page chunk post, evs = pre ++ Batch page chunk :: post ->
     length chunk <= limit
     /\ length (starts pre) = length (concat (batches pre))
     /\ in_flight pre = 0)
  /\ (forall pre i post, evs = pre ++ Started i :: post ->
        exists pre0 page chunk mid,
          pre = pre0 ++ Batch page chunk :: mid /\ batches mid = []
          /\ i < length chunk)
  /\ length (starts evs) = length (concat (batches evs))
  /\ in_flight evs = 0.

(** The chunks the loop over a page cuts [links] into, for a limit of at
    least 1: [slice(0, c)], [slice(c, 2c)], ... *)
Fixpoint chunks (fuel c : nat) (links : list string) : list (list string) :=
  match fuel, links with
  | S fuel', _ :: _ => take c links :: chunks fuel' c (drop c links)
  | _, _ => []
  end.

(** The chunks of all pages, in the order in which the loops take them. *)
Definition all_chunks (c : nat) (allPages : list PageData.t) : list (list string) :=
  concat ((fun g => chunks (length (PageData.links g)) c (PageData.links g)) <$> allPages).

(** The addresses the callbacks of the chunks go on to scrape, [scraped]
    being the set the first chunk finds: of every chunk, the addresses that no
    earlier chunk held. *)
Fixpoint attempts (scraped : gset string) (chunks : list (list string)) : list string :=
  match chunks with
  | [] => []
  | chunk :: rest =>
      filter (fun x => x ∉ scraped) chunk ++ attempts (list_to_set chunk ∪ scraped) rest
  end.

(** No chunk holds twice an address that no earlier chunk held. *)
Fixpoint no_fresh_repeats (scraped : gset string) (chunks : list (list string)) : Prop :=
  match chunks with
  | [] => True
  | chunk :: rest =>
      NoDup (filter (fun x => x ∉ scraped) chunk)
      /\ no_fresh_repeats (list_to_set chunk ∪ scraped) rest
  end.

#[global] Instance no_fresh_repeats_dec scraped chunks :
  Decision (no_fresh_repeats scraped chunks).
Proof. revert scraped. induction chunks; intros scraped; cbn; apply _. Defined.

(** The browser does what it is asked: every call that opens or closes
    something returns. *)
Definition dependable (browser : Session.Browser) : Prop :=
  Session.launch browser = Return tt
  /\ Session.newPage browser = Return tt
  /\ Session.closePage browser = Return tt
  /\ Session.close browser = Return tt.

(** The error [scrapeMultipleDoctors] is rejected with, if any: that of
    [puppeteer.launch]; or else that of [browser.close()] in the [finally]
    block, which replaces whatever the [try] block ended with; or else that of
    [browser.newPage()] or of [page.close()] in the discoverer. *)
Definition session_error (browser : Session.Browser) : option thrown :=
  match Session.launch browser, Session.close browser,
        Session.newPage browser, Session.closePage browser with
  | Throw e, _, _, _ => Some e
  | Return _, Throw e, _, _ => Some e
  | Return _, Return _, Throw e, _ => Some e
  | Return _, Return _, Return _, Throw e => Some e
  | Return _, Return _, Return _, Return _ => None
  end.

#[global] Instance dependable_dec browser : Decision (dependable browser).
Proof.
  unfold dependable.
  assert (forall c : completion unit, Decision (c = Return tt)).
  { intros [[]|e]; [left; reflexivity|right; discriminate]. }
  apply _.
Defined.

End ScraperSpec.

Module EvaluatorSpec.
Import Evaluator.

(** [runs m tr a evs]: started on trace [tr], whatever the output file holds,
    [m] returns [a], adds the events [evs] and leaves the file as it is. *)
Definition runs {A} (m : M World A) (tr : list event) (a : A) (evs : list event) : Prop :=
  forall f, m {| outputFile := f; trace := tr |}
            = Some (Return a, {| outputFile := f; trace := tr ++ evs |}).

(** Events of one [analyzeTherapist] call. *)
Definition attempt_event (e : event) : Prop :=
  match e with Request _ | Sleep _ => True | _ => False end.

(** Events of one batch in [processBatch], after the [Batch] line. *)
Definition batch_event (e : event) : Prop :=
  match e with Started _ | Request _ | Settled _ | Sleep _ => True | _ => False end.

(** The operations in flight after the events [tr]: the promises created
    and not yet settled. *)
Definition in_flight (tr : list event) : nat :=
  length (starts tr) - length (settles tr).

(** What an event tells about promises and batches: the index of the
    promise it creates, or of the promise it settles, or the size of the batch
    it hands to [Promise.all]. *)
Definition created (e : event) : option nat :=
  match e with Started i => Some i | _ => None end.

Definition finished (e : event) : option nat :=
  match e with Settled i => Some i | _ => None end.

Definition handed (e : event) : option nat :=
  match e with Batch b => Some (length b) | _ => None end.

(** A log made of batches of at most [limit] callbacks, each run to its end
    before anything else is logged. *)
Definition chunked (limit : nat) (evs : list event) : Prop :=
  Chunks.chunked created finished handed limit evs.

(** At no point of the log is a promise settled that was not created, and
    at no point are more than [limit] promises in flight. *)
Definition at_most_in_flight (limit : nat) (evs : list event) : Prop :=
  forall pre post, evs = pre ++ post ->
    length (settles pre) <= length (starts pre) /\ in_flight pre <= limit.

(** Whenever a batch is handed to [Promise.all] it holds at most [limit]
    profiles, and of the batches handed over before every promise has been
    created and none is in flight; whenever a promise is created it is one of
    the batch handed over last; at the end every promise of every batch has
    been created and none is in flight. *)
Definition batch_after_batch (limit : nat) (evs : list event) : Prop :=
  (forall pre batch post, evs = pre ++ Batch batch :: post ->
     length batch <= limit
     /\ length (starts pre) = length (concat (batches pre))
     /\ in_flight pre = 0)
  /\ (forall pre i post, evs = pre ++ Started i :: post ->
        exists pre0 batch mid,
          pre = pre0 ++ Batch batch :: mid /\ batches mid = []
          /\ i < length batch)
  /\ length (starts evs) = length (concat (batches evs))
  /\ in_flight evs = 0.

(** Batches of which every one but the last holds [BATCH_SIZE] profiles. *)
Fixpoint full_but_last (bs : list (list Profile.t)) : Prop :=
  match bs with
  | [] => True
  | b :: rest => (rest <> [] -> length b = BATCH_SIZE) /\ full_but_last rest
  end.

(** A record as the stage may emit it: the score is within bounds, and a
    record that carries an error has score 0 and says so in its summary. *)
Definition well_scored (r : AnalysisResult) : Prop :=
  (0 <= score (scored r) <= 100)%Q
  /\ (forall message, error r = Some message ->
        score (scored r) = 0%Q
        /\ summary (reasoning (scored r)) = "ANALYSIS FAILED: " +:+ message).

(** How one call of [scoreTherapist] ends, given the service's answer. *)
Definition verdict (zodMessage : json -> string) (answer : gen_response)
  : completion TherapistScore :=
  match answer with
  | GenThrows e => Throw e
  | GenNoText => Throw (JsError "Empty response from Gemini")
  | GenNotJson message => Throw (JsError message)
  | GenJson document =>
      match TherapistScoreSchema_parse document with
      | Some scoreResult => Return scoreResult
      | None => Throw (JsError (zodMessage document))
      end
  end.

(** [requested ps reqs]: the requests [reqs] are those of the profiles [ps],
    in order, each profile sent at least once and at most [MAX_RETRIES + 1]
    times. *)
Inductive requested : list Profile.t -> list Profile.t -> Prop :=
| requested_nil : requested [] []
| requested_cons p ps n reqs :
    1 <= n <= S MAX_RETRIES -> requested ps reqs ->
    requested (p :: ps) (replicate n p ++ reqs).

(** The record [analyzeTherapist] gives for a profile. *)
Definition scored_for (p : Profile.t) (r : AnalysisResult) : Prop :=
  url r = Profile.url p /\ well_scored r.

(** The record of a failed analysis, field by field: [message] is the text
    of the error. *)
Definition failure_record (u message : string) : AnalysisResult :=
  {| url := u;
     scored := {| score := 0;
                  reasoning := {| summary := "ANALYSIS FAILED: " +:+ message;
                                  greenFlagsFound := [];
                                  redFlagsFound := [];
                                  missingElements := None;
                                  unexpectedPositives := None |};
                  confidence := low |};
     error := Some message |}.

(** [message] is what [error instanceof Error ? error.message : String(error)]
    gives for [e]. *)
Definition says (e : thrown) (message : string) : Prop :=
  e = JsError message \/ e = JsOther message.

(** [accounted zodMessage answers p n r]: handed the answers [answers], one
    for every attempt, the analysis of [p] takes [n] requests and gives [r]:
    the attempts before the last one fail; either the last one is accepted and
    [r] carries its score and no error, or it is the attempt number
    [MAX_RETRIES + 1], it fails as well, and [r] is the failure record made of
    the text of its error. *)
Definition accounted (zodMessage : json -> string) (answers : nat -> gen_response)
    (p : Profile.t) (n : nat) (r : AnalysisResult) : Prop :=
  1 <= n <= S MAX_RETRIES
  /\ (forall j, j < n - 1 -> exists e, verdict zodMessage (answers j) = Throw e)
  /\ match verdict zodMessage (answers (n - 1)) with
     | Return s => r = {| url := Profile.url p; scored := s; error := None |}
     | Throw e =>
         n = S MAX_RETRIES
         /\ exists message, says e message /\ r = failure_record (Profile.url p) message
     end.

(** [accounted_from zodMessage remote offset ps ns rs]: position by
    position, the profile of [ps] at index [j], analysed with the answers
    [remote (offset + j)], takes the number of requests [ns] has at index [j]
    and gives the record [rs] has at index [j]. *)
Fixpoint accounted_from (zodMessage : json -> string)
    (remote : nat -> nat -> gen_response) (offset : nat)
    (ps : list Profile.t) (ns : list nat) (rs : list AnalysisResult) : Prop :=
  match ps, ns, rs with
  | [], [], [] => True
  | p :: ps', n :: ns', r :: rs' =>
      accounted zodMessage (remote offset) p n r
      /\ accounted_from zodMessage remote (S offset) ps' ns' rs'
  | _, _, _ => False
  end.

(** The requests of profiles [ps] sent [ns] times each. *)
Definition sent (ps : list Profile.t) (ns : list nat) : list Profile.t :=
  concat (zip_with replicate ns ps).

(** The results [main] starts from, given what the output file holds. *)
Definition loaded (f : option file_content) : list AnalysisResult :=
  match f with
  | Some (Stored results) => results
  | _ => []
  end.

Definition corrupt_warning (f : option file_content) : list string :=
  match f with
  | Some (Unparseable _) => ["File output corrotto, ricomincio."]
  | _ => []
  end.

(** The order of the final report: an earlier record has a score that is
    not below the score of a later one. *)
Definition descending (r r' : AnalysisResult) : Prop :=
  (score (scored r') <= score (scored r))%Q.

(** The records whose score equals [q]. *)
Definition scored_as (q : Q) (r : AnalysisResult) : Prop :=
  Qeq_bool (score (scored r)) q = true.

#[global] Instance scored_as_dec q r : Decision (scored_as q r).
Proof. unfold scored_as. apply _. Defined.

(** [checkpoints before bs ws]: [ws] holds one written array per batch of
    [bs], each made of the array before it (of [before], for the first)
    followed by one record per profile of its batch, in the batch's order. *)
Fixpoint checkpoints (before : list AnalysisResult) (bs : list (list Profile.t))
    (ws : list (list AnalysisResult)) : Prop :=
  match bs, ws with
  | [], [] => True
  | b :: bs', w :: ws' =>
      (exists rs, Forall2 scored_for b rs /\ w = before ++ rs) /\ checkpoints w bs' ws'
  | _, _ => False
  end.

End EvaluatorSpec.

Module AnalyzeSpec.
Import Analyze.

(** The entry the loop pushes for a record, when the record has data and the
    answer passes [AnalysisSchema]; nothing otherwise. *)
Definition entry_for (answer : gen_response) (p : Input.t) : option Entry :=
  match answer, Input.data p with
  | GenJson document, Some data =>
      analysis ← AnalysisSchema_parse document;
      Some {| name := Profile.name data;
              url := Input.url p;
              analysis := analysis |}
  | _, _ => None
  end.

(** The records the loop gets to: those before the first record whose
    [data] is [null]. *)
Fixpoint reached (profiles : list Input.t) : list Input.t :=
  match profiles with
  | [] => []
  | p :: rest =>
      match Input.data p with
      | Some _ => p :: reached rest
      | None => []
      end
  end.

(** Every record has data. *)
Definition complete (profiles : list Input.t) : Prop :=
  Forall (fun p => is_Some (Input.data p)) profiles.

#[global] Instance complete_dec profiles : Decision (complete profiles).
Proof. unfold complete. apply _. Defined.

(** The entries of the records from index [i] on. *)
Fixpoint collected (remote : nat -> gen_response) (profiles : list Input.t) (i : nat)
  : list Entry :=
  match profiles with
  | [] => []
  | p :: rest =>
      match entry_for (remote i) p with
      | Some entry => entry :: collected remote rest (S i)
      | None => collected remote rest (S i)
      end
  end.

(** The profiles sent to the service, one entry per request. *)
Definition requests (tr : list event) : list Input.t :=
  omap (fun e => match e with Request p => Some p | _ => None end) tr.

(** The arrays written to the output file, in order. *)
Definition writes (tr : list event) : list (list Entry) :=
  omap (fun e => match e with Write r => Some r | _ => None end) tr.

(** The time slept, in milliseconds. *)
Definition slept (tr : list event) : nat :=
  sum_list (omap (fun e => match e with Sleep ms => Some ms | _ => None end) tr).

End AnalyzeSpec.

Module TextSpec.
Import DoctorScraper.

(** White space only as single U+0020 units, none of them next to another;
    the last unit may be one. *)
Fixpoint spaced (s : list N) : Prop :=
  match s with
  | [] => True
  | c :: rest =>
      (is_space c = true ->
       c = 32%N /\ match rest with d :: _ => is_space d = false | [] => True end)
      /\ spaced rest
  end.

(** A text in the form [cleanText] gives: it does not start with white
    space, and every white-space unit in it is a U+0020 followed by a unit
    that is not white space. *)
Definition clean (s : list N) : Prop :=
  (forall c, head s = Some c -> is_space c = false)
  /\ (forall i c, s !! i = Some c -> is_space c = true ->
        c = 32%N /\ exists d, s !! S i = Some d /\ is_space d = false).

(** The code units of a decimal numeral. *)
Fixpoint units (u : Decimal.uint) : list N :=
  match u with
  | Decimal.Nil => []
  | Decimal.D0 u' => 48%N :: units u'
  | Decimal.D1 u' => 49%N :: units u'
  | Decimal.D2 u' => 50%N :: units u'
  | Decimal.D3 u' => 51%N :: units u'
  | Decimal.D4 u' => 52%N :: units u'
  | Decimal.D5 u' => 53%N :: units u'
  | Decimal.D6 u' => 54%N :: units u'
  | Decimal.D7 u' => 55%N :: units u'
  | Decimal.D8 u' => 56%N :: units u'
  | Decimal.D9 u' => 57%N :: units u'
  end.

(** [String(n)] for a natural number. *)
Definition decimal (n : N) : list N := units (N.to_uint n).

End TextSpec.

Module DoctorPageSpec.
Import DoctorScraper DoctorPage.

Definition returns {A} (c : completion A) : bool :=
  match c with Return _ => true | Throw _ => false end.

(** The run launched a browser of its own. *)
Definition launched (site : Site) (shared : bool) : bool :=
  negb shared && returns (launch site).

(** The run got a page. *)
Definition opened (site : Site) (shared : bool) : bool :=
  (shared || returns (launch site)) && returns (newPage site).

(** Every call up to and including [page.goto] went through. *)
Definition setup_ok (site : Site) (shared : bool) : bool :=
  opened site shared && returns (setViewport site) && returns (goto site).

(** The calls of the [finally] block: the page is closed when there is one;
    the browser is closed when the run launched it and closing the page did
    not throw. *)
Definition closing (site : Site) (shared : bool) : list event :=
  (if opened site shared then [ClosePage] else [])
  ++ (if launched site shared && (negb (opened site shared) || returns (closePage site))
      then [CloseBrowser] else []).

(** None of the calls of the [finally] block throws. *)
Definition closing_ok (site : Site) (shared : bool) : bool :=
  (negb (opened site shared) || returns (closePage site))
  && (negb (launched site shared) || returns (closeBrowser site)).

(** Clicks and waits on the page. *)
Definition on_page (e : event) : Prop :=
  match e with Click _ | Sleep _ => True | _ => False end.

(** What holds of every record the scraper returns. *)
Definition tidy {number} (site : Site) (info : DoctorInfo number) : Prop :=
  TextSpec.clean (name info)
  /\ TextSpec.clean (aboutText info)
  /\ (forall text, extendedAbout info = Some text ->
        TextSpec.clean text /\ moreButton site = Return true)
  /\ (forall href, avatar info = Some href -> startsWith slashes href = false)
  /\ (forall n, reviewCount info = Some n ->
        exists text, reviewText site = Return (Some text)).


(** The world after the events [evs]. *)
Definition extend (w : World) (evs : list event) : World :=
  {| trace := trace w ++ evs; ownBrowser := ownBrowser w; page := page w |}.

(** The events of the [try] block. *)
Definition on_the_way (e : event) : Prop :=
  match e with ClosePage | CloseBrowser => False | _ => True end.

Section Parts.
Context {number : Type}.
Variable parseFloat : list N -> number.
Variable site : Site.

(** The part of the [try] block after [page.goto]. *)
Definition fields : M World (DoctorInfo number) :=
  await name <- get_name site in
  await avatar <- get_avatar site in
  await rating <- get_rating parseFloat site in
  await reviewCount <- get_reviewCount site in
  run open_about site in
  await aboutText <- get_aboutText site in
  await extendedAbout <- get_extendedAbout site in
  ret {| name := name; rating := rating; reviewCount := reviewCount;
         aboutText := aboutText; extendedAbout := extendedAbout;
         avatar := avatar |}.

(** The [try] block up to [page.goto], followed by [k]. *)
Definition setup_then {A} (url : string) (shared : bool) (k : M World A) : M World A :=
  run (if negb shared then
         run emit Launch in
         run outcome (launch site) in
         fun w => Some (Return tt, {| trace := trace w; ownBrowser := true;
                                      page := page w |})
       else ret tt) in
  run emit NewPage in
  run outcome (newPage site) in
  run (fun w => Some (Return tt, {| trace := trace w; ownBrowser := ownBrowser w;
                                    page := true |})) in
  run outcome (setViewport site) in
  run emit (Goto url) in
  run outcome (goto site) in
  k.

(** The [finally] block. *)
Definition cleanup : M World unit :=
  run (fun w => if page w then (run emit ClosePage in outcome (closePage site)) w
                else ret tt w) in
  fun w => if ownBrowser w then (run emit CloseBrowser in outcome (closeBrowser site)) w
           else ret tt w.

End Parts.

End DoctorPageSpec.

(** * Properties *)

(** ** Running the monad *)

Lemma bind_return {W A B} (m : M W A) (k : A -> M W B) w a w' :
  m w = Some (Return a, w') -> bind m k w = k a w'.
Proof. unfold bind. by intros ->. Qed.

Lemma bind_throw {W A B} (m : M W A) (k : A -> M W B) w e w' :
  m w = Some (Throw e, w') -> bind m k w = Some (Throw e, w').
Proof. unfold bind. by intros ->. Qed.

Lemma try_catch_return {W A} (m : M W A) handler w a w' :
  m w = Some (Return a, w') -> try_catch m handler w = Some (Return a, w').
Proof. unfold try_catch. by intros ->. Qed.

Lemma try_catch_throw {W A} (m : M W A) handler w e w' :
  m w = Some (Throw e, w') -> try_catch m handler w = handler e w'.
Proof. unfold try_catch. by intros ->. Qed.

Lemma first_rejection_returns {B} (bs : list B) :
  first_rejection (Return <$> bs) = Return bs.
Proof. induction bs as [|b bs IH]; cbn; [done|]. by rewrite IH. Qed.

(** ** Callbacks that run interleaved *)

Section InterleaveFacts.
Context {E : Type}.

Lemma ready_from_sound (tasks : list (list E)) : forall k i,
  i ∈ ready_from k tasks ->
  k <= i /\ exists e rest, tasks !! (i - k) = Some (e :: rest).
Proof.
  induction tasks as [|[|e rest] tasks IH]; intros k i Hi; cbn in Hi.
  - by apply elem_of_nil in Hi.
  - apply IH in Hi as [Hk (e & rest & Hi)]. split; [lia|]. exists e, rest.
    by replace (i - k) with (S (i - S k)) by lia.
  - apply elem_of_cons in Hi as [->|Hi].
    + split; [lia|]. exists e, rest. by rewrite Nat.sub_diag.
    + apply IH in Hi as [Hk (e' & rest' & Hi)]. split; [lia|]. exists e', rest'.
      by replace (i - k) with (S (i - S k)) by lia.
Qed.

Lemma ready_from_none (tasks : list (list E)) : forall k,
  ready_from k tasks = [] -> concat tasks = [].
Proof.
  induction tasks as [|[|e rest] tasks IH]; intros k Hk; cbn in *; [done| |done].
  by eapply IH.
Qed.

Lemma concat_insert_cons (l : list (list E)) : forall i e p,
  l !! i = Some p -> concat (<[i := e :: p]> l) ≡ₚ e :: concat l.
Proof.
  induction l as [|q l IH]; intros [|i] e p Hi; try done; cbn in *.
  - by injection Hi as ->.
  - rewrite (IH i e p Hi). by rewrite Permutation_middle.
Qed.

Lemma concat_take_head (tasks : list (list E)) i e rest :
  tasks !! i = Some (e :: rest) ->
  concat tasks ≡ₚ e :: concat (<[i := rest]> tasks).
Proof.
  intros Hi.
  rewrite <- (concat_insert_cons (<[i := rest]> tasks) i e rest).
  - by rewrite list_insert_insert_eq, list_insert_id.
  - rewrite list_lookup_insert_eq; [done|]. by eapply lookup_lt_Some.
Qed.

(** What the scheduler picks is the head of a callback that has one. *)
Lemma interleave_step fuel schedule step (tasks : list (list E)) :
  concat tasks <> [] ->
  exists i e rest,
    tasks !! i = Some (e :: rest)
    /\ interleave (S fuel) schedule step tasks
       = e :: interleave fuel schedule (S step) (<[i := rest]> tasks).
Proof.
  intros Hsome. cbn [interleave].
  destruct (ready_from 0 tasks) as [|r ready] eqn:Hready.
  { by apply ready_from_none in Hready. }
  destruct (lookup_lt_is_Some_2 (r :: ready) (schedule step `mod` length (r :: ready)))
    as [i Hi].
  { apply Nat.mod_upper_bound. done. }
  rewrite Hi. apply list_elem_of_lookup_2 in Hi. rewrite <- Hready in Hi.
  apply ready_from_sound in Hi as [_ (e & rest & Hi)]. rewrite Nat.sub_0_r in Hi.
  exists i, e, rest. by rewrite Hi.
Qed.

Lemma interleave_done fuel schedule step (tasks : list (list E)) :
  concat tasks = [] -> interleave fuel schedule step tasks = [].
Proof.
  intros Hnone. destruct fuel; [done|]. cbn [interleave].
  destruct (ready_from 0 tasks !! _) as [i|] eqn:Hi; [|done].
  apply list_elem_of_lookup_2, ready_from_sound in Hi as [_ (e & rest & Hi)].
  rewrite Nat.sub_0_r in Hi. rewrite Hi.
  apply (f_equal length) in Hnone.
  pose proof (list_elem_of_lookup_2 _ _ _ Hi) as Hin.
  exfalso. apply list_elem_of_split in Hin as (l1 & l2 & ->).
  rewrite concat_app in Hnone. cbn in Hnone. rewrite !length_app in Hnone. cbn in Hnone. lia.
Qed.

(** Given the fuel, the merged log holds what the callbacks logged. *)
Lemma interleave_perm fuel : forall schedule step (tasks : list (list E)),
  length (concat tasks) <= fuel ->
  interleave fuel schedule step tasks ≡ₚ concat tasks.
Proof.
  induction fuel as [|fuel IH]; intros schedule step tasks Hfuel.
  - cbn. destruct (concat tasks); [done|cbn in Hfuel; lia].
  - destruct (decide (concat tasks = [])) as [Hnone|Hsome].
    + by rewrite interleave_done, Hnone.
    + destruct (interleave_step fuel schedule step tasks Hsome) as (i & e & rest & Hi & ->).
      pose proof (concat_take_head tasks i e rest Hi) as Hperm.
      rewrite Hperm. constructor. apply IH.
      apply Permutation_length in Hperm. cbn in Hperm. lia.
Qed.

(** At every point of the merged log, each callback has logged a prefix of
    what it logs in all. *)
Lemma interleave_prefix fuel : forall schedule step (tasks : list (list E)) pre,
  pre `prefix_of` interleave fuel schedule step tasks ->
  exists ps, Forall2 prefix ps tasks /\ pre ≡ₚ concat ps.
Proof.
  induction fuel as [|fuel IH]; intros schedule step tasks pre Hpre.
  - cbn in Hpre. apply prefix_nil_inv in Hpre as ->.
    exists (replicate (length tasks) []). split.
    + clear. induction tasks; cbn; constructor; [apply prefix_nil|done].
    + clear. induction tasks; cbn; [done|]. done.
  - destruct pre as [|e' pre].
    { exists (replicate (length tasks) []). split.
      + clear. induction tasks; cbn; constructor; [apply prefix_nil|done].
      + clear. induction tasks; cbn; done. }
    destruct (decide (concat tasks = [])) as [Hnone|Hsome].
    { rewrite interleave_done in Hpre by done. by apply prefix_nil_inv in Hpre. }
    destruct (interleave_step fuel schedule step tasks Hsome) as (i & e & rest & Hi & Heq).
    rewrite Heq in Hpre.
    pose proof (prefix_cons_inv_1 _ _ _ _ Hpre) as ->.
    apply prefix_cons_inv_2 in Hpre.
    destruct (IH _ _ _ _ Hpre) as (ps & Hps & Hperm).
    assert (Hlen : i < length tasks) by (by eapply lookup_lt_Some).
    destruct (lookup_lt_is_Some_2 ps i) as [p Hp].
    { rewrite (Forall2_length _ _ _ Hps), length_insert. done. }
    assert (Hprest : p `prefix_of` rest).
    { eapply (Forall2_lookup_lr _ _ _ i) in Hps; [exact Hps|exact Hp|].
      by rewrite list_lookup_insert_eq. }
    exists (<[i := e :: p]> ps). split.
    + rewrite <- (list_insert_id tasks i (e :: rest)) by done.
      rewrite <- (list_insert_insert_eq tasks i (e :: rest) rest).
      apply Forall2_insert; [done|]. by apply prefix_cons.
    + rewrite concat_insert_cons by done. by constructor.
Qed.

End InterleaveFacts.

(** ** Chunks of callbacks in a log *)

Module ChunksFacts.
Import Chunks.
Section Chunks.
Context {E : Type}.
Variables (created finished handed : E -> option nat).

Local Abbreviation chunked := (Chunks.chunked created finished handed).
Local Abbreviation chunk_run := (Chunks.chunk_run created finished handed).

Lemma chunked_app limit evs evs' :
  chunked limit evs -> chunked limit evs' -> chunked limit (evs ++ evs').
Proof.
  induction 1 as [|e evs ? ? ? _ IH|e n body evs ? ? ? ? ? _ IH]; intros Hevs'; cbn.
  - done.
  - constructor; auto.
  - rewrite <- (assoc_L (++)).
    apply (Chunks.chunked_chunk created finished handed limit e n body); auto.
Qed.

Lemma chunked_quiet limit evs :
  Forall (fun e => created e = None /\ finished e = None /\ handed e = None) evs ->
  chunked limit evs.
Proof. induction 1 as [|e evs (? & ? & ?) _ IH]; by constructor. Qed.

Lemma chunk_run_counts n body :
  chunk_run n body ->
  length (omap created body) = n /\ length (omap finished body) = n.
Proof.
  intros (_ & Hc & Hs & _). rewrite Hc, Hs. by rewrite length_seq.
Qed.

Lemma prefix_counts (f : E -> option nat) pre l :
  pre `prefix_of` l -> length (omap f pre) <= length (omap f l).
Proof. intros [k ->]. rewrite omap_app, length_app. lia. Qed.

(** At the end of the log nothing is in flight. *)
Lemma chunked_balanced limit evs :
  chunked limit evs -> length (omap created evs) = length (omap finished evs).
Proof.
  induction 1 as [|e evs Hc Hs _ _ IH|e n body evs _ Hc Hs _ Hrun _ IH]; [done| |].
  - cbn. by rewrite Hc, Hs.
  - apply chunk_run_counts in Hrun as [Hn1 Hn2].
    cbn. rewrite Hc, Hs, !omap_app, !length_app. lia.
Qed.

(** At no point is a promise settled that was not created, and at no point
    are more than [limit] in flight. *)
Lemma chunked_bound limit evs :
  chunked limit evs ->
  forall pre post, evs = pre ++ post ->
    length (omap finished pre) <= length (omap created pre)
    /\ length (omap created pre) <= length (omap finished pre) + limit.
Proof.
  induction 1 as [|e evs Hc Hs _ _ IH|e n body evs _ Hc Hs Hn Hrun Hrest IH];
    intros pre post Heq.
  - symmetry in Heq. apply app_eq_nil in Heq as [-> _]. cbn. lia.
  - destruct pre as [|e' pre]; [cbn; lia|].
    injection Heq as <- Heq. cbn. rewrite Hc, Hs. by eapply IH.
  - destruct pre as [|e' pre]; [cbn; lia|].
    injection Heq as <- Heq. cbn. rewrite Hc, Hs.
    pose proof (chunk_run_counts _ _ Hrun) as [Hn1 Hn2].
    destruct Hrun as (_ & _ & _ & Hpre).
    apply app_eq_app in Heq as [l [[Hbody _]|[-> Hevs]]].
    + specialize (Hpre pre). rewrite Hbody in Hpre, Hn1.
      specialize (Hpre (prefix_app_r _ _ _ (reflexivity _))).
      rewrite omap_app, length_app in Hn1. lia.
    + destruct (IH l post Hevs) as [H1 H2].
      rewrite !omap_app, !length_app. lia.
Qed.

(** When a chunk is handed over, nothing is in flight, and the chunk is not
    larger than the limit. *)
Lemma chunked_barrier limit evs :
  chunked limit evs ->
  forall pre e n post, evs = pre ++ e :: post -> handed e = Some n ->
    length (omap created pre) = length (omap finished pre) /\ n <= limit.
Proof.
  induction 1 as [|e evs Hc Hs Hh _ IH|e n body evs Hh Hc Hs Hn Hrun Hrest IH];
    intros pre e' n' post Heq He'.
  - by destruct pre.
  - destruct pre as [|e'' pre].
    + injection Heq as <- _. congruence.
    + injection Heq as <- Heq. cbn. rewrite Hc, Hs. by eapply IH.
  - destruct pre as [|e'' pre].
    + injection Heq as <- _. split; [done|]. congruence.
    + injection Heq as <- Heq. cbn. rewrite Hc, Hs.
      pose proof (chunk_run_counts _ _ Hrun) as [Hn1 Hn2].
      destruct Hrun as (Hquiet & _).
      apply app_eq_app in Heq as [l [[Hbody Hpost]|[-> Hevs]]].
      * destruct l as [|x l].
        -- cbn in Hpost. rewrite (right_id_L [] (++)) in Hbody. subst pre.
           destruct (IH [] e' n' post (eq_sym Hpost) He') as [_ ?]. split; [lia|done].
        -- injection Hpost as <- _. exfalso.
           rewrite Hbody, omap_app in Hquiet. cbn in Hquiet. rewrite He' in Hquiet.
           by apply app_eq_nil in Hquiet as [_ ?].
      * destruct (IH l e' n' post Hevs He') as [IH1 IH2].
        rewrite !omap_app, !length_app. split; [lia|done].
Qed.

(** Every promise of every chunk handed over is created. *)
Lemma chunked_total limit evs :
  chunked limit evs -> length (omap created evs) = sum_list (omap handed evs).
Proof.
  induction 1 as [|e evs Hc Hs Hh _ IH|e n body evs Hh Hc Hs _ Hrun _ IH]; [done| |].
  - cbn. by rewrite Hc, Hh.
  - pose proof (chunk_run_counts _ _ Hrun) as [Hn1 _]. destruct Hrun as (Hquiet & _).
    cbn. rewrite Hc, Hh, !omap_app, length_app, Hquiet, Hn1. cbn. lia.
Qed.

(** The log up to a handover is a log of whole chunks. *)
Lemma chunked_before limit evs :
  chunked limit evs ->
  forall pre e n post, evs = pre ++ e :: post -> handed e = Some n -> chunked limit pre.
Proof.
  induction 1 as [|e evs Hc Hs Hh _ IH|e n body evs Hh Hc Hs Hn Hrun Hrest IH];
    intros pre e' n' post Heq He'.
  - by destruct pre.
  - destruct pre as [|e'' pre]; [constructor|].
    injection Heq as <- Heq. constructor; try done. by eapply IH.
  - destruct pre as [|e'' pre]; [constructor|].
    injection Heq as <- Heq.
    apply app_eq_app in Heq as [l [[Hbody Hpost]|[-> Hevs]]].
    + destruct l as [|x l].
      * cbn in Hpost. rewrite (right_id_L [] (++)) in Hbody. subst pre.
        rewrite <- (right_id_L [] (++) body).
        apply (Chunks.chunked_chunk created finished handed limit e n body []); try done.
        constructor.
      * injection Hpost as <- _. exfalso. destruct Hrun as (Hquiet & _).
        rewrite Hbody, omap_app in Hquiet. cbn in Hquiet. rewrite He' in Hquiet.
        by apply app_eq_nil in Hquiet as [_ ?].
    + apply (Chunks.chunked_chunk created finished handed limit e n body l); try done.
      by eapply IH.
Qed.

(** Every promise belongs to the chunk handed over last: it is created
    after that handover, its index is below the size of the chunk, and at the
    handover nothing was in flight. *)
Lemma chunked_owner limit evs :
  chunked limit evs ->
  forall pre e i post, evs = pre ++ e :: post -> created e = Some i ->
    exists pre0 h n mid,
      pre = pre0 ++ h :: mid /\ handed h = Some n /\ omap handed mid = []
      /\ i < n /\ n <= limit
      /\ length (omap created pre0) = length (omap finished pre0).
Proof.
  induction 1 as [|e evs Hc Hs Hh Hrest IH|e n body evs Hh Hc Hs Hn Hrun Hrest IH];
    intros pre e' i post Heq He'.
  - by destruct pre.
  - destruct pre as [|e'' pre].
    + injection Heq as <- _. congruence.
    + injection Heq as <- Heq.
      destruct (IH pre e' i post Heq He') as (pre0 & h & n & mid & -> & ? & ? & ? & ? & Hbal).
      exists (e :: pre0), h, n, mid. split_and!; try done. cbn. by rewrite Hc, Hs.
  - destruct pre as [|e'' pre].
    + injection Heq as <- _. congruence.
    + injection Heq as <- Heq.
      pose proof (chunk_run_counts _ _ Hrun) as [Hn1 Hn2].
      apply app_eq_app in Heq as [l [[Hbody Hpost]|[-> Hevs]]].
      * destruct l as [|x l].
        -- cbn in Hpost.
           destruct (IH [] e' i post (eq_sym Hpost) He')
             as (pre0 & h & n' & mid & Habs & _).
           by destruct pre0.
        -- injection Hpost as <- _.
           exists [], e, n, pre. destruct Hrun as (Hquiet & Hcr & _).
           split_and!; try done.
           ++ rewrite Hbody, omap_app in Hquiet. by apply app_eq_nil in Hquiet as [? _].
           ++ assert (Hi : i ∈ omap created body).
              { rewrite Hbody, omap_app. apply elem_of_app. right. cbn. rewrite He'. by left. }
              rewrite Hcr in Hi. apply elem_of_seq in Hi. lia.
      * destruct (IH l e' i post Hevs He')
          as (pre0 & h & n' & mid & -> & ? & ? & ? & ? & Hbal).
        exists (e :: body ++ pre0), h, n', mid. split_and!; try done.
        -- cbn. by rewrite (assoc_L (++)).
        -- cbn. rewrite Hc, Hs, !omap_app, !length_app. lia.
Qed.

End Chunks.
End ChunksFacts.

(** ** What one [Promise.all] logs *)

Section Lifetimes.
Context {W E : Type} `{!Traced W E}.
Variables (created finished handed : E -> option nat).
Hypothesis created_started : forall i, created (started i) = Some i.
Hypothesis finished_started : forall i, finished (started i) = None.
Hypothesis handed_started : forall i, handed (started i) = None.
Hypothesis created_settled : forall i, created (settled i) = None.
Hypothesis finished_settled : forall i, finished (settled i) = Some i.
Hypothesis handed_settled : forall i, handed (settled i) = None.

Local Abbreviation plain := (Chunks.plain created finished handed).

Lemma omap_lifetime {X} (f : E -> option X) index added :
  omap f (lifetime index added)
  = option_list (f (started index)) ++ omap f added ++ option_list (f (settled index)).
Proof using.
  unfold lifetime. change (started index :: added ++ [settled index])
    with ([started index] ++ added ++ [settled index]).
  rewrite !omap_app. cbn. by destruct (f (started index)), (f (settled index)).
Qed.

Lemma lifetimes_shift {C} (cs : list (C * list E)) k :
  imap ((fun i (c : C * list E) => lifetime (k + i) c.2) ∘ S) cs
  = imap (fun i c => lifetime (S k + i) c.2) cs.
Proof using.
  apply imap_ext. intros i x _. cbn. by replace (k + S i) with (S (k + i)) by lia.
Qed.

Lemma lifetimes_created {C} (cs : list (C * list E)) : forall k,
  Forall (fun c => plain c.2) cs ->
  omap created (concat (imap (fun i c => lifetime (k + i) c.2) cs)) = seq k (length cs).
Proof using created_started created_settled.
  induction cs as [|c cs IH]; intros k Hcs; [done|].
  apply Forall_cons in Hcs as [(Hc & _ & _) Hcs].
  rewrite imap_cons, lifetimes_shift. cbn [concat length seq].
  rewrite omap_app, omap_lifetime, Nat.add_0_r, created_started, created_settled, Hc.
  unfold option_list. cbn [option_rect app]. f_equal. apply (IH (S k) Hcs).
Qed.

Lemma lifetimes_finished {C} (cs : list (C * list E)) : forall k,
  Forall (fun c => plain c.2) cs ->
  omap finished (concat (imap (fun i c => lifetime (k + i) c.2) cs)) = seq k (length cs).
Proof using finished_started finished_settled.
  induction cs as [|c cs IH]; intros k Hcs; [done|].
  apply Forall_cons in Hcs as [(_ & Hc & _) Hcs].
  rewrite imap_cons, lifetimes_shift. cbn [concat length seq].
  rewrite omap_app, omap_lifetime, Nat.add_0_r, finished_started, finished_settled, Hc.
  unfold option_list. cbn [option_rect app]. f_equal. apply (IH (S k) Hcs).
Qed.

Lemma lifetimes_handed {C} (cs : list (C * list E)) : forall k,
  Forall (fun c => plain c.2) cs ->
  omap handed (concat (imap (fun i c => lifetime (k + i) c.2) cs)) = [].
Proof using handed_started handed_settled.
  induction cs as [|c cs IH]; intros k Hcs; [done|].
  apply Forall_cons in Hcs as [(_ & _ & Hc) Hcs].
  rewrite imap_cons, lifetimes_shift. cbn [concat].
  rewrite omap_app, omap_lifetime, handed_started, handed_settled, Hc.
  unfold option_list. cbn [option_rect app]. apply (IH (S k) Hcs).
Qed.

(** What a projection that sees no promise makes of the callbacks' logs. *)
Lemma lifetimes_other {X C} (g : E -> option X) (cs : list (C * list E)) : forall k,
  (forall i, g (started i) = None) -> (forall i, g (settled i) = None) ->
  omap g (concat (imap (fun i c => lifetime (k + i) c.2) cs))
  = omap g (concat (snd <$> cs)).
Proof using.
  intros k Hs He. revert k. induction cs as [|c cs IH]; intros k; [done|].
  rewrite imap_cons, lifetimes_shift. cbn [concat fmap list_fmap].
  rewrite !omap_app, omap_lifetime, Hs, He. unfold option_list. cbn [option_rect app].
  rewrite (right_id_L [] (++)). f_equal. apply IH.
Qed.

Lemma lifetimes_Forall {C} (P : E -> Prop) (cs : list (C * list E)) : forall k,
  (forall i, P (started i)) -> (forall i, P (settled i)) ->
  Forall P (concat (snd <$> cs)) ->
  Forall P (concat (imap (fun i c => lifetime (k + i) c.2) cs)).
Proof using.
  intros k Hs He. revert k. induction cs as [|c cs IH]; intros k Hcs; [done|].
  cbn [concat fmap list_fmap] in Hcs. apply Forall_app in Hcs as [Hc Hcs].
  rewrite imap_cons, lifetimes_shift. cbn [concat]. apply Forall_app. split.
  - unfold lifetime. constructor; [done|]. apply Forall_app. split; [done|].
    by constructor.
  - by apply IH.
Qed.

(** Whatever part of its log a promise has got to, it is not settled
    before it is created. *)
Lemma lifetime_prefix index added p :
  plain added -> p `prefix_of` lifetime index added ->
  length (omap finished p) <= length (omap created p).
Proof using created_started finished_started.
  intros (Hc & Hf & _) Hp. unfold lifetime in Hp.
  destruct p as [|e p]; [done|].
  pose proof (prefix_cons_inv_1 _ _ _ _ Hp) as ->.
  apply prefix_cons_inv_2 in Hp.
  change (started index :: p) with ([started index] ++ p).
  rewrite !omap_app, !length_app. cbn. rewrite created_started, finished_started. cbn.
  etrans; [apply (ChunksFacts.prefix_counts finished _ _ Hp)|].
  rewrite omap_app, Hf. cbn. destruct (finished (settled index)); cbn; lia.
Qed.

Lemma prefixes_balanced (ps tasks : list (list E)) :
  Forall2 prefix ps tasks ->
  Forall (fun task => forall p, p `prefix_of` task ->
                        length (omap finished p) <= length (omap created p)) tasks ->
  length (omap finished (concat ps)) <= length (omap created (concat ps)).
Proof using.
  induction 1 as [|p task ps tasks Hp _ IH]; intros Htasks; [done|].
  apply Forall_cons in Htasks as [Htask Htasks]. cbn.
  rewrite !omap_app, !length_app. specialize (Htask p Hp). specialize (IH Htasks). lia.
Qed.

(** The log of one [Promise.all] is the run of a chunk. *)
Lemma lifetimes_chunk_run {C} (cs : list (C * list E)) schedule :
  Forall (fun c => plain c.2) cs ->
  Chunks.chunk_run created finished handed (length cs)
    (interleave (length (concat (imap (fun i c => lifetime i c.2) cs))) schedule 0
       (imap (fun i c => lifetime i c.2) cs)).
Proof using All.
  intros Hcs. set (tasks := imap (fun i c => lifetime i c.2) cs).
  pose proof (interleave_perm (length (concat tasks)) schedule 0 tasks (reflexivity _))
    as Hperm.
  pose proof (lifetimes_handed cs 0 Hcs) as Hh.
  pose proof (lifetimes_created cs 0 Hcs) as Hc.
  pose proof (lifetimes_finished cs 0 Hcs) as Hf.
  change (imap _ cs) with tasks in Hh, Hc, Hf.
  split_and!.
  - apply Permutation_nil. by rewrite Hperm, Hh.
  - by rewrite Hperm, Hc.
  - by rewrite Hperm, Hf.
  - intros pre Hpre.
    destruct (interleave_prefix _ _ _ _ _ Hpre) as (ps & Hps & Hpp).
    rewrite Hpp. apply (prefixes_balanced ps tasks Hps).
    apply Forall_forall. intros task Htask. unfold tasks in Htask.
    apply elem_of_lookup_imap in Htask as (i & c & -> & Hlook).
    intros p Hp. eapply lifetime_prefix; [|exact Hp].
    eapply (Forall_lookup_1 _ cs i c Hcs Hlook).
Qed.

(** The log of one [Promise.all], as the scheduler orders it. *)
Lemma merged_chunk_run {B} schedule position (cs : list (completion B * list E)) :
  Forall (fun c => plain c.2) cs ->
  Chunks.chunk_run created finished handed (length cs) (merged schedule position cs).
Proof using All. apply lifetimes_chunk_run. Qed.

End Lifetimes.

Section Merged.
Context {W E : Type} `{!Traced W E}.

Lemma merged_perm {B} schedule position (cs : list (completion B * list E)) :
  merged schedule position cs ≡ₚ concat (imap (fun i c => lifetime i c.2) cs).
Proof. unfold merged. by apply interleave_perm. Qed.

Lemma merged_other {X B} (g : E -> option X) schedule position
    (cs : list (completion B * list E)) :
  (forall i, g (started i) = None) -> (forall i, g (settled i) = None) ->
  omap g (merged schedule position cs) ≡ₚ omap g (concat (snd <$> cs)).
Proof.
  intros Hs He. rewrite merged_perm.
  by rewrite <- (lifetimes_other g cs 0 Hs He).
Qed.

Lemma merged_Forall {B} (P : E -> Prop) schedule position
    (cs : list (completion B * list E)) :
  (forall i, P (started i)) -> (forall i, P (settled i)) ->
  Forall P (concat (snd <$> cs)) ->
  Forall P (merged schedule position cs).
Proof.
  intros Hs He Hcs. rewrite merged_perm. by apply (lifetimes_Forall P cs 0).
Qed.

End Merged.

(** ** Slices *)

Lemma slice_take_drop {A} i c (l : list A) : slice i (i + c) l = take c (drop i l).
Proof. unfold slice. by replace (i + c - i) with c by lia. Qed.

(** ** The schemas *)

Lemma parse_score_range j q : parse_score j = Some q -> (0 <= q <= 100)%Q.
Proof.
  destruct j as [| |x| | |]; try done. cbn. unfold in_range.
  destruct (Qle_bool 0 x) eqn:H0; [|done]. destruct (Qle_bool x 100) eqn:H1; [|done].
  intros [= <-]. split; by apply Qle_bool_iff.
Qed.
(** ** The batch scraper *)

Module ScraperFacts.
Import DoctorScraper BatchScraper ScraperSpec.

Lemma scraper_runs_ret {A} (a : A) tr : runs (ret a) tr a [].
Proof. intros f. unfold ret. by rewrite (right_id_L [] (++)). Qed.

Lemma scraper_runs_emit e tr : runs (emit e) tr tt [e].
Proof. by intros f. Qed.

Lemma scraper_runs_bind {A B} (m : M World A) (k : A -> M World B) tr a evs b evs' :
  runs m tr a evs -> runs (k a) (tr ++ evs) b evs' -> runs (bind m k) tr b (evs ++ evs').
Proof.
  intros Hm Hk f. unfold bind. rewrite Hm, Hk. by rewrite (assoc_L (++)).
Qed.

Lemma scraper_runs_try {A} (m : M World A) handler tr a evs :
  runs m tr a evs -> runs (try_catch m handler) tr a evs.
Proof. intros Hm f. unfold try_catch. by rewrite Hm. Qed.

Lemma discovery_no_batches evs : Forall discovery_event evs -> batches evs = [].
Proof. induction 1 as [|[] ? H]; cbn in *; done. Qed.

Lemma discovery_no_writes evs : Forall discovery_event evs -> writes evs = [].
Proof. induction 1 as [|[] ? H]; cbn in *; done. Qed.

Lemma discovery_no_scrapes evs : Forall discovery_event evs -> scrapes evs = [].
Proof. induction 1 as [|[] ? H]; cbn in *; done. Qed.

Lemma discovery_chunked c evs : Forall discovery_event evs -> chunked c evs.
Proof.
  intros Hevs. apply ChunksFacts.chunked_quiet.
  eapply Forall_impl; [exact Hevs|]. by intros [].
Qed.

Lemma chunk_no_writes c evs : Forall (chunk_event c) evs -> writes evs = [].
Proof. induction 1 as [|[] ? H]; cbn in *; done. Qed.

Lemma chunk_no_gotos c evs : Forall (chunk_event c) evs -> gotos evs = [].
Proof. induction 1 as [|[] ? H]; cbn in *; done. Qed.

Lemma chunk_no_batches_inside evs : Forall inside_chunk evs -> batches evs = [].
Proof. induction 1 as [|[] ? H]; cbn in *; done. Qed.

Section Oracles.
Variable listing : nat -> page_load.
Variable scrapeDoctorInfo : nat -> string -> completion DoctorInfo.

Local Abbreviation walk_length := (ScraperSpec.walk_length listing).
Local Abbreviation answered := (ScraperSpec.answered scrapeDoctorInfo).
Local Abbreviation chunk_result := (ScraperSpec.chunk_result scrapeDoctorInfo).

Lemma page_loop_runs todo : forall pageNum allPages seen tr,
  exists pages evs,
    runs (page_loop listing todo pageNum allPages seen) tr pages evs
    /\ gotos evs = seq pageNum (walk_length todo pageNum)
    /\ Forall discovery_event evs.
Proof using listing. clear scrapeDoctorInfo.
  induction todo as [|todo IH]; intros pageNum allPages seen tr.
  - exists allPages, []. split; [apply scraper_runs_ret|done].
  - cbn [page_loop walk_length].
    destruct (listing pageNum) as [e|e|hrefs] eqn:Hload.
    + destruct (IH (S pageNum) allPages seen (tr ++ [Goto pageNum]))
        as (pages & evs & Hrun & Hg & Hev).
      exists pages, ([Goto pageNum] ++ evs). split; [|split].
      * eapply scraper_runs_bind; [apply scraper_runs_emit|done].
      * rewrite decide_False by (cbn; tauto).
        change (gotos ([Goto pageNum] ++ evs)) with (pageNum :: gotos evs).
        by rewrite Hg.
      * by constructor.
    + edestruct IH as (pages & evs & Hrun & Hg & Hev).
      exists pages, ([Goto pageNum] ++ [Sleep 1500] ++ evs). split; [|split].
      * eapply scraper_runs_bind; [apply scraper_runs_emit|].
        eapply scraper_runs_bind; [apply scraper_runs_emit|]. apply Hrun.
      * rewrite decide_False by (cbn; tauto).
        change (gotos ([Goto pageNum] ++ [Sleep 1500] ++ evs))
          with (pageNum :: gotos evs).
        by rewrite Hg.
      * by repeat constructor.
    + destruct (length (http_links hrefs) =? 0) eqn:Hlen.
      * apply Nat.eqb_eq, nil_length_inv in Hlen.
        eexists _, ([Goto pageNum] ++ [Sleep 1500] ++ []). split; [|split].
        -- eapply scraper_runs_bind; [apply scraper_runs_emit|].
           eapply scraper_runs_bind; [apply scraper_runs_emit|]. apply scraper_runs_ret.
        -- by rewrite decide_True by done.
        -- by repeat constructor.
      * apply Nat.eqb_neq in Hlen.
        edestruct IH as (pages & evs & Hrun & Hg & Hev).
        eexists _, ([Goto pageNum] ++ [Sleep 1500] ++ evs). split; [|split].
        -- eapply scraper_runs_bind; [apply scraper_runs_emit|].
           eapply scraper_runs_bind; [apply scraper_runs_emit|]. apply Hrun.
        -- rewrite decide_False by (cbn; intros E; by rewrite E in Hlen).
           change (gotos ([Goto pageNum] ++ [Sleep 1500] ++ evs))
             with (pageNum :: gotos evs).
           by rewrite Hg.
        -- by repeat constructor.
Qed.

Lemma walk_length_stop todo : forall pageNum k,
  pageNum <= k -> exhausted (listing k) -> pageNum + walk_length todo pageNum <= S k.
Proof using listing.
  induction todo as [|todo IH]; intros pageNum k Hle Hk; cbn; [lia|].
  case_decide; [lia|].
  assert (pageNum <> k) by (intros ->; done).
  specialize (IH (S pageNum) k ltac:(lia) Hk). lia.
Qed.

Lemma walk_length_go todo : forall pageNum k,
  k < todo -> (forall i, pageNum <= i < pageNum + k -> ~ exhausted (listing i)) ->
  k < walk_length todo pageNum.
Proof using listing.
  induction todo as [|todo IH]; intros pageNum k Hk Hno; [lia|]. cbn.
  destruct k as [|k].
  - case_decide; lia.
  - rewrite decide_False by (apply Hno; lia).
    apply ->Nat.succ_lt_mono. apply IH; [lia|]. intros i Hi. apply Hno. lia.
Qed.

Lemma getDoctorLinksWithPagination_runs maxPages tr :
  exists pages evs,
    runs (getDoctorLinksWithPagination listing maxPages) tr pages evs
    /\ gotos evs = 1 :: seq 1 (walk_length maxPages 1)
    /\ Forall discovery_event evs.
Proof using listing.
  destruct (page_loop_runs maxPages 1 [] ∅ (tr ++ [Goto 1]))
    as (pages & evs & Hrun & Hg & Hev).
  exists pages, ([Goto 1] ++ evs). split; [|split].
  - eapply scraper_runs_bind; [apply scraper_runs_emit|done].
  - change (gotos ([Goto 1] ++ evs)) with (1 :: gotos evs). by rewrite Hg.
  - by constructor.
Qed.

Lemma scrapes_app tr tr' : scrapes (tr ++ tr') = scrapes tr ++ scrapes tr'.
Proof using. apply omap_app. Qed.

Lemma scrape_one_skipped scraped page index target tr :
  target ∈ scraped ->
  runs (scrape_one scrapeDoctorInfo scraped page index target) tr None [].
Proof using scrapeDoctorInfo.
  intros Hin. apply scraper_runs_try. rewrite decide_True by done. apply scraper_runs_ret.
Qed.

Lemma scrape_one_scraped scraped page index target tr :
  target ∉ scraped ->
  runs (scrape_one scrapeDoctorInfo scraped page index target) tr
       (Some (outcome page target (scrapeDoctorInfo (length (scrapes tr)) target)))
       [Sleep (200 * index); Scrape target].
Proof using scrapeDoctorInfo.
  intros Hin f. unfold scrape_one. rewrite decide_False by done.
  unfold try_catch, bind, emit, call_scrapeDoctorInfo, ret. cbn [trace file].
  rewrite scrapes_app. change (scrapes [Sleep (200 * index)]) with (@nil string).
  rewrite (right_id_L [] (++)).
  rewrite <- (assoc_L (++)). cbn [app].
  by destruct (scrapeDoctorInfo _ _).
Qed.

(** Markers and what the projections make of them. *)
Lemma callback_plain evs :
  Forall callback_event evs ->
  omap created evs = [] /\ omap finished evs = [] /\ omap handed evs = [].
Proof using. clear.
  induction 1 as [|e evs He _ (IH1 & IH2 & IH3)]; [done|].
  destruct e; try done; cbn; by rewrite ?IH1, ?IH2, ?IH3.
Qed.

Lemma callback_chunk_event c evs :
  Forall callback_event evs -> Forall (chunk_event c) evs.
Proof using. clear. intros H. eapply Forall_impl; [exact H|]. by intros []. Qed.

Lemma settle_all_cons {A B} (f : nat -> A -> M World B) index x rest tr c es cs evs :
  (forall fl, f index x {| file := fl; trace := tr |}
              = Some (c, {| file := fl; trace := tr ++ es |})) ->
  runs (settle_all f (S index) rest) (tr ++ es) cs evs ->
  runs (settle_all f index (x :: rest)) tr ((c, es) :: cs) (es ++ evs).
Proof using. clear.
  intros Hx Hrest fl. cbn [settle_all]. rewrite Hx.
  erewrite bind_return by apply Hrest. unfold ret. cbn [log world_traced trace].
  by rewrite drop_app_length, (assoc_L (++)).
Qed.

(** One chunk, callback after callback: every address the set did not hold
    is scraped, and gets a record. *)
Lemma scrape_all_runs scraped page batch : forall index tr,
  exists rs cs evs,
    runs (settle_all (scrape_one scrapeDoctorInfo scraped page) index batch) tr cs evs
    /\ fst <$> cs = Return <$> rs
    /\ concat (snd <$> cs) = evs
    /\ Forall (fun c => Forall callback_event c.2) cs
    /\ Forall2 (chunk_result scraped page) batch rs
    /\ url <$> not_null rs = scrapes evs
    /\ scrapes evs = filter (fun x => x ∉ scraped) batch.
Proof using scrapeDoctorInfo. clear listing.
  induction batch as [|target batch IH]; intros index tr.
  - exists [], [], []. split; [apply scraper_runs_ret|done].
  - destruct (decide (target ∈ scraped)) as [Hin|Hin].
    + destruct (IH (S index) (tr ++ [])) as (rs & cs & evs & Hrun & Hfst & Hsnd & Hcb & Hrs & Hurl & Hscr).
      exists (None :: rs), ((Return None, []) :: cs), ([] ++ evs). split_and!.
      * eapply settle_all_cons; [|exact Hrun].
        intros fl. by rewrite (scrape_one_skipped scraped page index target tr Hin fl).
      * cbn. by rewrite Hfst.
      * cbn. by rewrite Hsnd.
      * by constructor.
      * constructor; [|done]. unfold chunk_result. by rewrite decide_True.
      * done.
      * cbn [app]. rewrite filter_cons_False by tauto. exact Hscr.
    + destruct (IH (S index) (tr ++ [Sleep (200 * index); Scrape target]))
        as (rs & cs & evs & Hrun & Hfst & Hsnd & Hcb & Hrs & Hurl & Hscr).
      set (r := outcome page target (scrapeDoctorInfo (length (scrapes tr)) target)).
      exists (Some r :: rs),
        ((Return (Some r), [Sleep (200 * index); Scrape target]) :: cs),
        ([Sleep (200 * index); Scrape target] ++ evs).
      split_and!.
      * eapply settle_all_cons; [|exact Hrun].
        intros fl. by rewrite (scrape_one_scraped scraped page index target tr Hin fl).
      * cbn. by rewrite Hfst.
      * cbn. by rewrite Hsnd.
      * constructor; [by repeat constructor|done].
      * constructor; [|done]. unfold chunk_result. rewrite decide_False by done.
        eexists. split; [done|]. by eexists.
      * change (scrapes ([Sleep (200 * index); Scrape target] ++ evs))
          with (target :: scrapes evs).
        cbn. rewrite <- Hurl. f_equal. unfold r. by destruct (scrapeDoctorInfo _ _).
      * rewrite filter_cons_True by done.
        change (scrapes ([Sleep (200 * index); Scrape target] ++ evs))
          with (target :: scrapes evs).
        by rewrite Hscr.
Qed.

Lemma promise_all_merged {A B} schedule (f : nat -> A -> M World B) items tr cs evs bs :
  runs (settle_all f 0 items) tr cs evs ->
  concat (snd <$> cs) = evs ->
  fst <$> cs = Return <$> bs ->
  runs (promise_all schedule f items) tr bs (merged schedule (length tr) cs).
Proof using. clear.
  intros Hrun Hevs Hbs fl. unfold promise_all. rewrite Hrun.
  by rewrite Hbs, first_rejection_returns.
Qed.

(** One chunk handed to [Promise.all]. *)
Lemma promise_all_runs schedule scraped page c batch tr :
  exists rs evs,
    runs (promise_all schedule (scrape_one scrapeDoctorInfo scraped page) batch) tr rs evs
    /\ Forall2 (chunk_result scraped page) batch rs
    /\ Forall (chunk_event c) evs
    /\ batches evs = []
    /\ url <$> not_null rs ≡ₚ scrapes evs
    /\ scrapes evs ≡ₚ filter (fun x => x ∉ scraped) batch
    /\ gotos evs = [] /\ writes evs = []
    /\ Chunks.chunk_run created finished handed (length batch) evs
    /\ url <$> not_null rs = filter (fun x => x ∉ scraped) batch.
Proof using scrapeDoctorInfo. clear listing.
  destruct (scrape_all_runs scraped page batch 0 tr)
    as (rs & cs & evs & Hrun & Hfst & Hsnd & Hcb & Hrs & Hurl & Hscr).
  assert (Hall : Forall callback_event evs).
  { rewrite <- Hsnd. apply Forall_concat, Forall_fmap. exact Hcb. }
  assert (Hchunk : Forall (chunk_event c) (merged schedule (length tr) cs)).
  { apply merged_Forall; [done|done|]. rewrite Hsnd. by apply callback_chunk_event. }
  assert (Hscrapes : scrapes (merged schedule (length tr) cs) ≡ₚ scrapes evs).
  { unfold scrapes. rewrite merged_other by done. by rewrite Hsnd. }
  exists rs, (merged schedule (length tr) cs). split_and!.
  - by eapply promise_all_merged.
  - done.
  - done.
  - eapply chunk_no_batches_inside, merged_Forall; [done|done|]. rewrite Hsnd.
    eapply Forall_impl; [exact Hall|]. by intros [].
  - by rewrite Hscrapes, Hurl.
  - by rewrite Hscrapes, Hscr.
  - by eapply chunk_no_gotos.
  - by eapply chunk_no_writes.
  - rewrite (Forall2_length _ _ _ Hrs).
    assert (Hlen : length rs = length cs).
    { apply (f_equal length) in Hfst. by rewrite !length_fmap in Hfst. }
    rewrite Hlen. apply merged_chunk_run; try done.
    eapply Forall_impl; [exact Hcb|]. intros cb Hc. cbn in Hc.
    destruct (callback_plain _ Hc) as (? & ? & ?). by split_and!.
  - by rewrite Hurl.
Qed.

Lemma not_null_chunk scraped page batch rs :
  Forall2 (chunk_result scraped page) batch rs ->
  Forall (fun r => exists target, target ∈ batch /\ answered page target r) (not_null rs)
  /\ ((forall x, x ∈ batch -> x ∉ scraped) -> Forall2 (answered page) batch (not_null rs)).
Proof using scrapeDoctorInfo. clear listing.
  induction 1 as [|target r batch rs Hr _ [IH1 IH2]]; [done|].
  unfold chunk_result in Hr. case_decide as Hin.
  - subst r. split.
    + cbn. eapply Forall_impl; [exact IH1|]. intros r (t & ? & ?). exists t. set_solver.
    + intros Hno. exfalso. apply (Hno target); [set_solver|done].
  - destruct Hr as (r' & -> & Hans). split.
    + cbn. constructor.
      * exists target. set_solver.
      * eapply Forall_impl; [exact IH1|]. intros r (t & ? & ?). exists t. set_solver.
    + intros Hno. cbn. constructor; [done|]. apply IH2. intros x Hx. apply Hno. set_solver.
Qed.

Lemma batch_loop_runs schedule c page links :
  0 < c ->
  forall fuel i results scraped tr,
    length links <= fuel + i ->
    exists results' scraped' evs,
      runs (batch_loop scrapeDoctorInfo schedule fuel c page links i results scraped) tr
           (results', scraped') evs
      /\ Forall (chunk_event c) evs
      /\ chunked c evs
      /\ scraped' = list_to_set (drop i links) ∪ scraped
      /\ exists new,
           results' = results ++ new
           /\ Forall (fun r => exists target, target ∈ links /\ answered page target r) new
           /\ (NoDup (drop i links) -> (forall x, x ∈ drop i links -> x ∉ scraped) ->
               Forall2 (answered page) (drop i links) new).
Proof using scrapeDoctorInfo. clear listing.
  intros Hc. induction fuel as [|fuel IH]; intros i results scraped tr Hfuel.
  - exists results, scraped, []. cbn [batch_loop].
    rewrite (proj2 (Nat.leb_le _ _)) by lia.
    rewrite drop_ge by lia.
    split; [apply scraper_runs_ret|]. split; [done|]. split; [constructor|].
    split; [set_solver|].
    exists []. by rewrite (right_id_L [] (++)).
  - cbn [batch_loop]. destruct (length links <=? i) eqn:Hi.
    + apply Nat.leb_le in Hi. exists results, scraped, [].
      rewrite drop_ge by lia.
      split; [apply scraper_runs_ret|]. split; [done|]. split; [constructor|].
      split; [set_solver|].
      exists []. by rewrite (right_id_L [] (++)).
    + apply Nat.leb_gt in Hi. rewrite slice_take_drop.
      set (batch := take c (drop i links)).
      set (rest := drop (i + c) links).
      assert (Hsplit : drop i links = batch ++ rest).
      { unfold batch, rest. rewrite <- drop_drop. by rewrite take_drop. }
      destruct (promise_all_runs schedule scraped page c batch (tr ++ [Batch page batch]))
        as (rs & evs1 & Hrun1 & Hrs & Hev1 & _ & _ & _ & _ & _ & Hchunk1 & _).
      destruct (not_null_chunk _ _ _ _ Hrs) as [Hgen Hexact].
      set (pause := if i + c <? length links then [Sleep 1000] else []).
      destruct (IH (i + c) (results ++ not_null rs) (list_to_set batch ∪ scraped)
                   (((tr ++ [Batch page batch]) ++ evs1) ++ pause) ltac:(lia))
        as (results' & scraped' & evs2 & Hrun2 & Hev2 & Hchunked2 & Hscraped & new & Hnew
            & Hnewgen & Hnewexact).
      exists results', scraped', ([Batch page batch] ++ evs1 ++ pause ++ evs2).
      split; [|split; [|split; [|split]]].
      * eapply scraper_runs_bind; [apply scraper_runs_emit|].
        eapply scraper_runs_bind; [exact Hrun1|].
        eapply scraper_runs_bind; [|exact Hrun2].
        unfold pause. destruct (i + c <? length links); [apply scraper_runs_emit|apply scraper_runs_ret].
      * apply Forall_app. split.
        { constructor; [|done]. cbn. unfold batch. rewrite length_take. lia. }
        apply Forall_app. split; [done|]. apply Forall_app. split; [|done].
        unfold pause. destruct (i + c <? length links); by repeat constructor.
      * apply (Chunks.chunked_chunk created finished handed c (Batch page batch)
                 (length batch) evs1 (pause ++ evs2)); try done.
        -- unfold batch. rewrite length_take. lia.
        -- apply ChunksFacts.chunked_app; [|exact Hchunked2].
           apply ChunksFacts.chunked_quiet.
           unfold pause. destruct (i + c <? length links); by repeat constructor.
      * rewrite Hscraped, Hsplit. fold rest. set_solver.
      * exists (not_null rs ++ new). split; [by rewrite Hnew, (assoc_L (++))|]. split.
        -- apply Forall_app. split; [|done].
           eapply Forall_impl; [exact Hgen|]. intros r (t & Ht & Hans). exists t.
           split; [|done]. apply (subseteq_drop i). rewrite Hsplit. set_solver.
        -- rewrite Hsplit. intros Hnodup Hfresh.
           apply NoDup_app in Hnodup as (Hnd1 & Hdisj & Hnd2).
           apply Forall2_app.
           ++ apply Hexact. intros x Hx. apply Hfresh. set_solver.
           ++ apply Hnewexact; [done|]. fold rest. intros x Hx.
              assert (x ∉ batch) by (intros Hb; by apply (Hdisj x)).
              assert (x ∉ scraped) by (apply Hfresh; set_solver).
              set_solver.
Qed.

Lemma pages_loop_runs schedule c :
  0 < c ->
  forall allPages results scraped tr,
    exists results' evs,
      runs (pages_loop scrapeDoctorInfo schedule c allPages results scraped) tr results' evs
      /\ Forall (chunk_event c) evs
      /\ chunked c evs
      /\ exists new,
           results' = results ++ new
           /\ (NoDup (all_links allPages) ->
               (forall x, x ∈ all_links allPages -> x ∉ scraped) ->
               Forall2 (fun target r => exists page, answered page target r)
                       (all_links allPages) new).
Proof using scrapeDoctorInfo. clear listing.
  intros Hc. induction allPages as [|pageData rest IH]; intros results scraped tr.
  - exists results, []. split; [apply scraper_runs_ret|]. split; [done|].
    split; [constructor|].
    exists []. by rewrite (right_id_L [] (++)).
  - cbn [pages_loop].
    destruct (batch_loop_runs schedule c (PageData.pageNumber pageData)
                (PageData.links pageData)
                Hc (length (PageData.links pageData)) 0 results scraped tr ltac:(lia))
      as (results1 & scraped1 & evs1 & Hrun1 & Hev1 & Hchunked1 & Hscraped & new1 & Hnew1
          & _ & Hexact1).
    rewrite drop_0 in Hscraped, Hexact1.
    destruct (IH results1 scraped1 (tr ++ evs1))
      as (results2 & evs2 & Hrun2 & Hev2 & Hchunked2 & new2 & Hnew2 & Hexact2).
    exists results2, (evs1 ++ evs2). split; [|split; [|split]].
    + eapply scraper_runs_bind; [exact Hrun1|exact Hrun2].
    + by apply Forall_app.
    + by apply ChunksFacts.chunked_app.
    + exists (new1 ++ new2). split; [by rewrite Hnew2, Hnew1, (assoc_L (++))|].
      unfold all_links. cbn [fmap list_fmap concat]. fold (all_links rest).
      intros Hnodup Hfresh.
      apply NoDup_app in Hnodup as (Hnd1 & Hdisj & Hnd2).
      apply Forall2_app.
      * eapply Forall2_impl; [apply Hexact1; [done|]|].
        -- intros x Hx. apply Hfresh. set_solver.
        -- intros target r Hans. by eexists.
      * apply Hexact2; [done|]. intros x Hx. rewrite Hscraped.
        assert (x ∉ PageData.links pageData) by (intros Hb; by apply (Hdisj x)).
        assert (x ∉ scraped) by (apply Hfresh; set_solver).
        set_solver.
Qed.

Lemma scrapeMultipleDoctors_runs schedule c maxPages tr :
  0 < c ->
  exists results evs1 evs2,
    runs (scrapeMultipleDoctors listing scrapeDoctorInfo schedule c maxPages) tr results
         (evs1 ++ evs2)
    /\ gotos evs1 = 1 :: seq 1 (walk_length maxPages 1)
    /\ Forall discovery_event evs1
    /\ Forall (chunk_event c) evs2
    /\ chunked c (evs1 ++ evs2).
Proof using listing scrapeDoctorInfo.
  intros Hc.
  destruct (getDoctorLinksWithPagination_runs maxPages tr)
    as (pages & evs1 & Hrun1 & Hg & Hev1).
  unfold scrapeMultipleDoctors.
  destruct (length pages =? 0) eqn:Hlen.
  - exists [], evs1, []. split; [|split_and!; try done].
    + eapply scraper_runs_bind; [exact Hrun1|]. rewrite Hlen. apply scraper_runs_ret.
    + rewrite (right_id_L [] (++)). by apply discovery_chunked.
  - destruct (pages_loop_runs schedule c Hc pages [] ∅ (tr ++ evs1))
      as (results & evs2 & Hrun2 & Hev2 & Hchunked2 & _).
    exists results, evs1, evs2. split; [|split_and!; try done].
    2: { apply ChunksFacts.chunked_app; [by apply discovery_chunked|done]. }
    eapply scraper_runs_bind; [exact Hrun1|]. by rewrite Hlen.
Qed.

End Oracles.
End ScraperFacts.

(** ** The scoring stage *)

Module EvaluatorFacts.
Import Evaluator EvaluatorSpec.

Lemma scorer_runs_ret {A} (a : A) tr : runs (ret a) tr a [].
Proof. intros f. unfold ret. by rewrite (right_id_L [] (++)). Qed.

Lemma scorer_runs_emit e tr : runs (emit e) tr tt [e].
Proof. by intros f. Qed.

Lemma scorer_runs_bind {A B} (m : M World A) (k : A -> M World B) tr a evs b evs' :
  runs m tr a evs -> runs (k a) (tr ++ evs) b evs' -> runs (bind m k) tr b (evs ++ evs').
Proof.
  intros Hm Hk f. unfold bind. rewrite Hm, Hk. by rewrite (assoc_L (++)).
Qed.

Lemma requests_app tr tr' : requests (tr ++ tr') = requests tr ++ requests tr'.
Proof. apply omap_app. Qed.

Lemma attempt_plain evs :
  Forall attempt_event evs -> Chunks.plain created finished handed evs.
Proof.
  induction 1 as [|e evs He _ (IH1 & IH2 & IH3)]; [done|].
  destruct e; try done; unfold Chunks.plain; cbn; by rewrite ?IH1, ?IH2, ?IH3.
Qed.

Lemma attempt_batch_event evs : Forall attempt_event evs -> Forall batch_event evs.
Proof. intros H. eapply Forall_impl; [exact H|]. by intros []. Qed.

Lemma batch_no_batches evs : Forall batch_event evs -> batches evs = [].
Proof. induction 1 as [|[] ? ? ? IH]; cbn in *; done. Qed.

Lemma batch_no_writes evs : Forall batch_event evs -> writes evs = [].
Proof. induction 1 as [|[] ? ? ? IH]; cbn in *; done. Qed.

Lemma batch_no_warnings evs : Forall batch_event evs -> warnings evs = [].
Proof. induction 1 as [|[] ? ? ? IH]; cbn in *; done. Qed.

Lemma scorer_settle_all_cons {A B} (f : nat -> A -> M World B) index x rest tr c es cs evs :
  (forall fl, f index x {| outputFile := fl; trace := tr |}
              = Some (c, {| outputFile := fl; trace := tr ++ es |})) ->
  runs (settle_all f (S index) rest) (tr ++ es) cs evs ->
  runs (settle_all f index (x :: rest)) tr ((c, es) :: cs) (es ++ evs).
Proof.
  intros Hx Hrest fl. cbn [settle_all]. rewrite Hx.
  erewrite bind_return by apply Hrest. unfold ret. cbn [log world_traced trace].
  by rewrite drop_app_length, (assoc_L (++)).
Qed.

Lemma scorer_promise_all_merged {A B} schedule (f : nat -> A -> M World B) items tr cs evs bs :
  runs (settle_all f 0 items) tr cs evs ->
  fst <$> cs = Return <$> bs ->
  runs (promise_all schedule f items) tr bs (merged schedule (length tr) cs).
Proof.
  intros Hrun Hbs fl. unfold promise_all. rewrite Hrun.
  by rewrite Hbs, first_rejection_returns.
Qed.

Lemma sent_app ps ns ps' ns' :
  length ns = length ps -> sent (ps ++ ps') (ns ++ ns') = sent ps ns ++ sent ps' ns'.
Proof.
  intros Hlen. unfold sent. rewrite zip_with_app by done. apply concat_app.
Qed.

Lemma says_error_text e : says e (error_text e).
Proof. destruct e; [by left|by right]. Qed.

Section Service.
Variable zodMessage : json -> string.

Local Abbreviation verdict := (EvaluatorSpec.verdict zodMessage).

Lemma scoreTherapist_run answer p f tr :
  scoreTherapist zodMessage answer p {| outputFile := f; trace := tr |}
  = Some (verdict answer, {| outputFile := f; trace := tr ++ [Request p] |}).
Proof using zodMessage.
  unfold scoreTherapist, bind, emit, verdict; cbn.
  destruct answer; try done. by destruct (TherapistScoreSchema_parse _).
Qed.

Lemma schema_score_range document s :
  TherapistScoreSchema_parse document = Some s -> (0 <= score s <= 100)%Q.
Proof using.
  destruct document; try done. cbn.
  destruct (fields !! "score") as [j|]; [|done]. cbn.
  destruct (parse_score j) as [q|] eqn:Hq; [|done]. cbn.
  destruct (_ ≫= parse_reasoning); [|done]. cbn.
  destruct (_ ≫= parse_confidence); [|done]. cbn.
  intros [= <-]. cbn. by eapply parse_score_range.
Qed.

Lemma verdict_score_range answer s :
  verdict answer = Return s -> (0 <= score s <= 100)%Q.
Proof using zodMessage.
  destruct answer; try done. cbn.
  destruct (TherapistScoreSchema_parse document) eqn:Hp; [|done].
  intros [= <-]. by eapply schema_score_range.
Qed.

Lemma failed_well_scored u err : well_scored (failed u err).
Proof using. split; [done|]. by intros message [= <-]. Qed.

(** One call of [analyzeTherapist] entered with retries left, attempt by
    attempt. *)
Lemma analyzeTherapist_from answers p : forall fuel retryCount tr,
  retryCount <= MAX_RETRIES -> MAX_RETRIES < fuel + retryCount ->
  exists r n evs,
    runs (analyzeTherapist zodMessage fuel answers p retryCount) tr r evs
    /\ requests evs = replicate n p
    /\ Forall attempt_event evs
    /\ 1 <= n /\ n + retryCount <= S MAX_RETRIES
    /\ (forall j, j < n - 1 -> exists e, verdict (answers (retryCount + j)) = Throw e)
    /\ match verdict (answers (retryCount + (n - 1))) with
       | Return s => r = {| url := Profile.url p; scored := s; error := None |}
       | Throw e => n + retryCount = S MAX_RETRIES /\ r = failed (Profile.url p) e
       end.
Proof using zodMessage.
  induction fuel as [|fuel IH]; intros retryCount tr Hle Hbudget; [lia|].
  cbn [analyzeTherapist].
  destruct (verdict (answers retryCount)) as [s|err] eqn:Hv.
  - eexists _, 1, [Request p]. split_and!.
    + intros f. erewrite try_catch_return; [reflexivity|].
      erewrite bind_return; [reflexivity|]. by rewrite scoreTherapist_run, Hv.
    + done.
    + by repeat constructor.
    + done.
    + lia.
    + intros j Hj. lia.
    + cbn. by rewrite Nat.add_0_r, Hv.
  - destruct (retryCount <? MAX_RETRIES) eqn:Hretry.
    + apply Nat.ltb_lt in Hretry.
      destruct (IH (S retryCount) ((tr ++ [Request p]) ++ [Sleep RETRY_DELAY])
                   ltac:(lia) ltac:(lia))
        as (r & n & evs & Hrun & Hreq & Hev & Hn1 & Hn2 & Hbefore & Hlast).
      exists r, (S n), ([Request p] ++ [Sleep RETRY_DELAY] ++ evs). split_and!.
      * intros f. erewrite try_catch_throw;
          [|apply bind_throw; by rewrite scoreTherapist_run, Hv].
        erewrite bind_return by reflexivity.
        rewrite Hrun. by rewrite <- !(assoc_L (++)).
      * change (requests ([Request p] ++ [Sleep RETRY_DELAY] ++ evs))
          with (p :: requests evs). by rewrite Hreq.
      * by repeat constructor.
      * lia.
      * lia.
      * intros [|j] Hj.
        -- rewrite Nat.add_0_r. by eexists.
        -- replace (retryCount + S j) with (S retryCount + j) by lia.
           apply Hbefore. lia.
      * replace (retryCount + (S n - 1)) with (S retryCount + (n - 1)) by lia.
        destruct (verdict (answers (S retryCount + (n - 1)))); [done|].
        split; [lia|tauto].
    + apply Nat.ltb_ge in Hretry.
      exists (failed (Profile.url p) err), 1, [Request p]. split_and!.
      * intros f. erewrite try_catch_throw;
          [|apply bind_throw; by rewrite scoreTherapist_run, Hv].
        done.
      * done.
      * by repeat constructor.
      * done.
      * lia.
      * intros j Hj. lia.
      * cbn. rewrite Nat.add_0_r, Hv. split; [lia|done].
Qed.

(** One call of [analyzeTherapist] as [processBatch] makes it. *)
Lemma analyzeTherapist_accounted answers p tr :
  exists r n evs,
    runs (analyzeTherapist zodMessage (S MAX_RETRIES) answers p 0) tr r evs
    /\ requests evs = replicate n p
    /\ Forall attempt_event evs
    /\ accounted zodMessage answers p n r
    /\ scored_for p r.
Proof using zodMessage.
  destruct (analyzeTherapist_from answers p (S MAX_RETRIES) 0 tr ltac:(lia) ltac:(lia))
    as (r & n & evs & Hrun & Hreq & Hev & Hn1 & Hn2 & Hbefore & Hlast).
  exists r, n, evs. split_and!; try done.
  - unfold accounted. split_and!; [done|lia|exact Hbefore|].
    cbn [Nat.add] in Hlast.
    destruct (EvaluatorSpec.verdict zodMessage (answers (n - 1))) as [s|e]; [done|].
    destruct Hlast as [Hn ->]. split; [lia|].
    exists (error_text e). split; [apply says_error_text|done].
  - cbn [Nat.add] in Hlast.
    destruct (EvaluatorSpec.verdict zodMessage (answers (n - 1))) as [s|e] eqn:Hv.
    + subst r. split; [done|]. split; [by eapply verdict_score_range|done].
    + destruct Hlast as [_ ->]. split; [done|apply failed_well_scored].
Qed.

Lemma accounted_counts answers p n r :
  accounted zodMessage answers p n r -> 1 <= n <= S MAX_RETRIES.
Proof using. by intros [? _]. Qed.

Lemma accounted_from_lengths remote : forall ps offset ns rs,
  accounted_from zodMessage remote offset ps ns rs ->
  length ns = length ps /\ length rs = length ps.
Proof using.
  induction ps as [|p ps IH]; intros offset [|n ns] [|r rs] H; try done.
  destruct H as [_ H]. destruct (IH _ _ _ H). cbn. lia.
Qed.

Lemma accounted_from_counts remote : forall ps offset ns rs,
  accounted_from zodMessage remote offset ps ns rs ->
  Forall (fun n => 1 <= n <= MAX_RETRIES + 1) ns.
Proof using.
  induction ps as [|p ps IH]; intros offset [|n ns] [|r rs] H; try done.
  destruct H as [Hp H]. constructor; [|by eapply IH].
  apply accounted_counts in Hp. unfold MAX_RETRIES in *. lia.
Qed.

Lemma accounted_from_app remote : forall ps offset ns rs ps' ns' rs',
  accounted_from zodMessage remote offset ps ns rs ->
  accounted_from zodMessage remote (offset + length ps) ps' ns' rs' ->
  accounted_from zodMessage remote offset (ps ++ ps') (ns ++ ns') (rs ++ rs').
Proof using.
  induction ps as [|p ps IH]; intros offset [|n ns] [|r rs] ps' ns' rs' H H'; try done.
  - by rewrite Nat.add_0_r in H'.
  - destruct H as [Hp H]. split; [done|]. apply IH; [done|].
    by replace (S offset + length ps) with (offset + length (p :: ps)) by (cbn; lia).
Qed.

Lemma accounted_from_shift remote o : forall ps k ns rs,
  accounted_from zodMessage (fun j => remote (o + j)) k ps ns rs ->
  accounted_from zodMessage remote (o + k) ps ns rs.
Proof using.
  induction ps as [|p ps IH]; intros k [|n ns] [|r rs] H; try done.
  destruct H as [Hp H]. split; [done|].
  replace (S (o + k)) with (o + S k) by lia. by apply IH.
Qed.

Lemma accounted_from_requested remote : forall ps offset ns rs,
  accounted_from zodMessage remote offset ps ns rs -> requested ps (sent ps ns).
Proof using.
  induction ps as [|p ps IH]; intros offset [|n ns] [|r rs] H; try done.
  - constructor.
  - destruct H as [Hp H]. unfold sent. cbn [zip_with concat].
    constructor; [by eapply accounted_counts|]. by eapply IH.
Qed.

Lemma accounted_from_scored remote : forall ps offset ns rs,
  accounted_from zodMessage remote offset ps ns rs ->
  Forall2 (fun p r => url r = Profile.url p) ps rs.
Proof using.
  induction ps as [|p ps IH]; intros offset [|n ns] [|r rs] H; try done.
  destruct H as [(_ & _ & Hlast) H]. constructor; [|by eapply IH].
  destruct (EvaluatorSpec.verdict zodMessage (remote offset (n - 1))); [by subst|].
  by destruct Hlast as (_ & message & _ & ->).
Qed.

Lemma requested_elem ps reqs q : requested ps reqs -> q ∈ reqs <-> q ∈ ps.
Proof using.
  induction 1 as [|p ps n reqs Hn _ IH]; [done|].
  rewrite elem_of_app, elem_of_cons, IH, elem_of_replicate.
  split; [naive_solver|]. intros [->|?]; [left; split; [done|lia]|by right].
Qed.

(** The callbacks of one batch, one after another. *)
Lemma analyze_all_runs (remote : nat -> nat -> gen_response) profiles :
  forall index tr,
    exists rs ns cs evs,
      runs (settle_all
              (fun index p => analyzeTherapist zodMessage (S MAX_RETRIES) (remote index) p 0)
              index profiles) tr cs evs
      /\ fst <$> cs = Return <$> rs
      /\ concat (snd <$> cs) = evs
      /\ Forall (fun c => Forall attempt_event c.2) cs
      /\ Forall2 scored_for profiles rs
      /\ accounted_from zodMessage remote index profiles ns rs
      /\ requests evs = sent profiles ns.
Proof using zodMessage.
  induction profiles as [|p profiles IH]; intros index tr.
  - exists [], [], [], []. split; [apply scorer_runs_ret|done].
  - destruct (analyzeTherapist_accounted (remote index) p tr)
      as (r & n & evs1 & Hrun1 & Hreq & Hev1 & Hacc & Hok).
    destruct (IH (S index) (tr ++ evs1))
      as (rs & ns & cs & evs2 & Hrun2 & Hfst & Hsnd & Hcb & Hrs & Haccs & Hreqs).
    exists (r :: rs), (n :: ns), ((Return r, evs1) :: cs), (evs1 ++ evs2). split_and!.
    + eapply scorer_settle_all_cons; [|exact Hrun2]. intros fl. apply Hrun1.
    + cbn. by rewrite Hfst.
    + cbn. by rewrite Hsnd.
    + by constructor.
    + by constructor.
    + by split.
    + rewrite requests_app, Hreq, Hreqs. done.
Qed.

(** One batch handed to [Promise.all]. *)
Lemma processBatch_runs schedule remote profiles tr :
  exists rs ns evs,
    runs (processBatch zodMessage schedule remote profiles) tr rs ([Batch profiles] ++ evs)
    /\ Forall2 scored_for profiles rs
    /\ accounted_from zodMessage remote 0 profiles ns rs
    /\ requests evs ≡ₚ sent profiles ns
    /\ Forall batch_event evs
    /\ Chunks.chunk_run created finished handed (length profiles) evs.
Proof using zodMessage.
  destruct (analyze_all_runs remote profiles 0 (tr ++ [Batch profiles]))
    as (rs & ns & cs & evs & Hrun & Hfst & Hsnd & Hcb & Hrs & Hacc & Hreq).
  assert (Hall : Forall attempt_event evs).
  { rewrite <- Hsnd. apply Forall_concat, Forall_fmap. exact Hcb. }
  exists rs, ns, (merged schedule (length (tr ++ [Batch profiles])) cs). split_and!.
  - unfold processBatch. eapply scorer_runs_bind; [apply scorer_runs_emit|].
    by eapply scorer_promise_all_merged.
  - done.
  - done.
  - unfold requests. rewrite merged_other by done. rewrite Hsnd.
    fold (requests evs). by rewrite Hreq.
  - apply merged_Forall; [done|done|]. rewrite Hsnd. by apply attempt_batch_event.
  - rewrite (Forall2_length _ _ _ Hrs).
    assert (Hlen : length rs = length cs).
    { apply (f_equal length) in Hfst. by rewrite !length_fmap in Hfst. }
    rewrite Hlen. apply merged_chunk_run; try done.
    eapply Forall_impl; [exact Hcb|]. intros cb Hc. by apply attempt_plain.
Qed.

Lemma make_batches_some (l : list Profile.t) : forall fuel i acc,
  length l <= fuel + i ->
  exists bs,
    make_batches fuel l i acc = Some (acc ++ bs)
    /\ concat bs = drop i l
    /\ Forall (fun b => 0 < length b <= BATCH_SIZE) bs
    /\ full_but_last bs.
Proof using.
  induction fuel as [|fuel IH]; intros i acc Hfuel.
  - exists []. cbn. rewrite (proj2 (Nat.leb_le _ _)) by lia.
    rewrite drop_ge by lia. by rewrite (right_id_L [] (++)).
  - cbn [make_batches]. destruct (length l <=? i) eqn:Hi.
    + apply Nat.leb_le in Hi. exists [].
      rewrite drop_ge by lia. by rewrite (right_id_L [] (++)).
    + apply Nat.leb_gt in Hi.
      destruct (IH (i + BATCH_SIZE) (acc ++ [slice i (i + BATCH_SIZE) l])
                   ltac:(unfold BATCH_SIZE; lia))
        as (bs & Hbs & Hcat & Hlen & Hfull).
      exists (slice i (i + BATCH_SIZE) l :: bs). split_and!.
      * rewrite Hbs. by rewrite <- (assoc_L (++)).
      * cbn [concat]. rewrite Hcat, slice_take_drop, <- drop_drop. apply take_drop.
      * constructor; [|done]. rewrite slice_take_drop, length_take, length_drop.
        unfold BATCH_SIZE. lia.
      * split; [|done]. intros Hbs'.
        assert (i + BATCH_SIZE < length l).
        { destruct (decide (i + BATCH_SIZE < length l)); [done|].
          rewrite drop_ge in Hcat by lia. destruct bs as [|b bs]; [done|].
          apply Forall_cons in Hlen as [Hb _]. cbn in Hcat.
          apply app_eq_nil in Hcat as [-> _]. cbn in Hb. lia. }
        rewrite slice_take_drop, length_take, length_drop. unfold BATCH_SIZE in *. lia.
Qed.

Lemma insert_by_score_perm r l : insert_by_score r l ≡ₚ r :: l.
Proof using.
  induction l as [|r' l IH]; cbn; [done|].
  destruct (Qle_bool _ _); [done|]. rewrite IH. apply Permutation_swap.
Qed.

Lemma sort_by_score_perm l : sort_by_score l ≡ₚ l.
Proof using.
  induction l as [|r l IH]; cbn; [done|].
  rewrite insert_by_score_perm. by constructor.
Qed.

Lemma batches_app tr tr' : batches (tr ++ tr') = batches tr ++ batches tr'.
Proof using. apply omap_app. Qed.

Lemma writes_app tr tr' : writes (tr ++ tr') = writes tr ++ writes tr'.
Proof using. apply omap_app. Qed.

Lemma warnings_app tr tr' : warnings (tr ++ tr') = warnings tr ++ warnings tr'.
Proof using. apply omap_app. Qed.

Lemma load_results_run f tr :
  load_results {| outputFile := f; trace := tr |}
  = Some (Return (loaded f),
          {| outputFile := f; trace := tr ++ (Warn <$> corrupt_warning f) |}).
Proof using.
  unfold load_results. destruct f as [[text|results]|]; cbn.
  - done.
  - unfold try_catch, read_results. cbn. by rewrite (right_id_L [] (++)).
  - unfold ret. by rewrite (right_id_L [] (++)).
Qed.

Lemma write_results_run results f tr :
  write_results results {| outputFile := f; trace := tr |}
  = Some (Return tt, {| outputFile := Some (Stored results);
                        trace := tr ++ [Write results] |}).
Proof using. done. Qed.

Lemma pause_run (b : bool) ms f tr :
  (if b then emit (Sleep ms) else ret tt) {| outputFile := f; trace := tr |}
  = Some (Return tt, {| outputFile := f;
                        trace := tr ++ (if b then [Sleep ms] else []) |}).
Proof using. destruct b; [done|]. unfold ret. by rewrite (right_id_L [] (++)). Qed.

Lemma pause_quiet (b : bool) ms :
  chunked BATCH_SIZE (if b then [Sleep ms] else []).
Proof using. destruct b; by repeat constructor. Qed.

(** The loop over the batches. *)
Lemma batches_loop_runs schedule remote total : forall bs i results f tr,
  full_but_last bs -> Forall (fun b => 0 < length b <= BATCH_SIZE) bs ->
  exists new ns evs,
    batches_loop zodMessage schedule remote total bs i results
      {| outputFile := f; trace := tr |}
    = Some (Return (results ++ new),
            {| outputFile := match bs with
                             | [] => f
                             | _ :: _ => Some (Stored (results ++ new))
                             end;
               trace := tr ++ evs |})
    /\ Forall2 scored_for (concat bs) new
    /\ accounted_from zodMessage remote (i * BATCH_SIZE) (concat bs) ns new
    /\ requests evs ≡ₚ sent (concat bs) ns
    /\ batches evs = bs
    /\ Forall2 (fun _ written => exists more, written = results ++ more) bs (writes evs)
    /\ last (writes evs) = match bs with [] => None | _ :: _ => Some (results ++ new) end
    /\ warnings evs = []
    /\ chunked BATCH_SIZE evs
    /\ checkpoints results bs (writes evs).
Proof using zodMessage.
  induction bs as [|b bs IH]; intros i results f tr Hfull Hsizes.
  - exists [], [], []. rewrite !(right_id_L [] (++)). split_and!; try done; constructor.
  - destruct Hfull as [Hb Hfull]. apply Forall_cons in Hsizes as [Hsize Hsizes].
    destruct (processBatch_runs schedule (fun j => remote (i * BATCH_SIZE + j)) b tr)
      as (rs & ns1 & evs1 & Hrun1 & Hrs & Hacc1 & Hreq1 & Hev1 & Hchunk1).
    set (pause := if i <? total - 1 then [Sleep BATCH_DELAY] else []).
    destruct (IH (S i) (results ++ rs) (Some (Stored (results ++ rs)))
                ((((tr ++ [Batch b] ++ evs1) ++ [Write (results ++ rs)]) ++ pause))
                Hfull Hsizes)
      as (new & ns2 & evs2 & Hrun2 & Hnew & Hacc2 & Hreq2 & Hb2 & Hw2 & Hlast2 & Hwarn2
          & Hchunked2 & Hcheck2).
    exists (rs ++ new), (ns1 ++ ns2),
      (([Batch b] ++ evs1) ++ [Write (results ++ rs)] ++ pause ++ evs2).
    assert (Hwrites : writes (([Batch b] ++ evs1) ++ [Write (results ++ rs)] ++ pause ++ evs2)
                      = (results ++ rs) :: writes evs2).
    { rewrite !writes_app, (batch_no_writes _ Hev1).
      replace (writes pause) with (@nil (list AnalysisResult))
        by (unfold pause; by destruct (i <? total - 1)).
      done. }
    apply accounted_from_shift in Hacc1. rewrite Nat.add_0_r in Hacc1.
    destruct (accounted_from_lengths _ _ _ _ _ Hacc1) as [Hlen1 _].
    split_and!.
    + cbn [batches_loop]. erewrite bind_return by apply Hrun1.
      erewrite bind_return by apply write_results_run.
      erewrite bind_return by apply pause_run. fold pause.
      rewrite Hrun2. rewrite !(assoc_L (++)).
      destruct bs; [|done].
      apply Forall2_nil_inv_l in Hnew. subst new. by rewrite !(right_id_L [] (++)).
    + cbn [concat]. by apply Forall2_app.
    + cbn [concat]. apply accounted_from_app; [done|].
      destruct bs as [|b' bs].
      * cbn [concat] in *. destruct ns2, new; try done.
      * rewrite Hb by done. by replace (i * BATCH_SIZE + BATCH_SIZE) with (S i * BATCH_SIZE) by lia.
    + rewrite !requests_app. cbn [concat].
      replace (requests [Batch b]) with (@nil Profile.t) by done.
      replace (requests [Write (results ++ rs)]) with (@nil Profile.t) by done.
      replace (requests pause) with (@nil Profile.t)
        by (unfold pause; by destruct (i <? total - 1)).
      rewrite !(left_id_L [] (++)), sent_app by done. by rewrite Hreq1, Hreq2.
    + rewrite !batches_app, (batch_no_batches _ Hev1), Hb2.
      replace (batches pause) with (@nil (list Profile.t))
        by (unfold pause; by destruct (i <? total - 1)).
      done.
    + rewrite Hwrites. constructor; [by exists rs|].
      eapply Forall2_impl; [exact Hw2|]. cbn. intros _ written [more ->].
      exists (rs ++ more). by rewrite (assoc_L (++)).
    + rewrite Hwrites. destruct bs as [|b' bs].
      * apply Forall2_nil_inv_l in Hw2. rewrite Hw2.
        apply Forall2_nil_inv_l in Hnew. subst new. by rewrite (right_id_L [] (++)).
      * rewrite last_cons, Hlast2. by rewrite (assoc_L (++)).
    + rewrite !warnings_app, (batch_no_warnings _ Hev1), Hwarn2.
      replace (warnings pause) with (@nil string)
        by (unfold pause; by destruct (i <? total - 1)).
      done.
    + rewrite <- (assoc_L (++)).
      apply (Chunks.chunked_chunk created finished handed BATCH_SIZE (Batch b)
               (length b) evs1 ([Write (results ++ rs)] ++ pause ++ evs2)); try done.
      * lia.
      * apply (Chunks.chunked_other created finished handed); try done.
        apply ChunksFacts.chunked_app; [apply pause_quiet|exact Hchunked2].
    + rewrite Hwrites. cbn [checkpoints]. split; [by exists rs|done].
Qed.
Lemma warnings_warn l : warnings (Warn <$> l) = l.
Proof using. induction l as [|m l IH]; [done|]. cbn. f_equal. exact IH. Qed.

Lemma no_requests_warn l : requests (Warn <$> l) = [].
Proof using. by induction l. Qed.

Lemma no_batches_warn l : batches (Warn <$> l) = [].
Proof using. by induction l. Qed.

Lemma no_writes_warn l : writes (Warn <$> l) = [].
Proof using. by induction l. Qed.

Lemma no_requests_write rs : requests [Write rs] = [].
Proof using. done. Qed.

Lemma no_batches_write rs : batches [Write rs] = [].
Proof using. done. Qed.

Lemma no_warnings_write rs : warnings [Write rs] = [].
Proof using. done. Qed.

Lemma pending_nil profiles : pending [] profiles = profiles.
Proof using.
  unfold pending. induction profiles as [|p ps IH]; [done|].
  rewrite filter_cons_True by set_solver. by rewrite IH.
Qed.

(** The whole of [main] with the API key set. *)
Lemma main_runs schedule profiles remote f tr :
  exists f' evs new ns,
    main zodMessage schedule true profiles remote {| outputFile := f; trace := tr |}
    = Some (Return (match pending (loaded f) profiles with
                    | [] => Exited 0
                    | _ :: _ => Completed
                    end),
            {| outputFile := f'; trace := tr ++ evs |})
    /\ f' = match pending (loaded f) profiles with
            | [] => f
            | _ :: _ => Some (Stored (sort_by_score (loaded f ++ new)))
            end
    /\ Forall2 scored_for (pending (loaded f) profiles) new
    /\ accounted_from zodMessage remote 0 (pending (loaded f) profiles) ns new
    /\ requests evs ≡ₚ sent (pending (loaded f) profiles) ns
    /\ concat (batches evs) = pending (loaded f) profiles
    /\ Forall (fun b => 0 < length b <= BATCH_SIZE) (batches evs)
    /\ warnings evs = corrupt_warning f
    /\ Forall2 (fun _ written => exists more, written = loaded f ++ more)
               (batches evs) (take (length (batches evs)) (writes evs))
    /\ last (writes evs) = match pending (loaded f) profiles with
                           | [] => None
                           | _ :: _ => Some (sort_by_score (loaded f ++ new))
                           end
    /\ chunked BATCH_SIZE evs
    /\ (exists ws, checkpoints (loaded f) (batches evs) ws
                   /\ writes evs = match pending (loaded f) profiles with
                                   | [] => []
                                   | _ :: _ =>
                                       ws ++ [sort_by_score (default (loaded f) (last ws))]
                                   end).
Proof using zodMessage.
  unfold main. cbn [negb]. erewrite bind_return by apply load_results_run.
  destruct (pending (loaded f) profiles) as [|p todo] eqn:Htodo.
  - exists f, (Warn <$> corrupt_warning f), [], []. cbn [length Nat.eqb].
    rewrite warnings_warn, no_requests_warn, no_batches_warn, no_writes_warn.
    split_and!; try done; try constructor.
    + apply ChunksFacts.chunked_quiet. apply Forall_fmap, Forall_true. done.
    + by exists [].
  - cbn [length Nat.eqb]. change (S (length todo)) with (length (p :: todo)).
    destruct (make_batches_some (p :: todo) (length (p :: todo)) 0 [] ltac:(lia))
      as (bs & -> & Hcat & Hlen & Hfull).
    rewrite drop_0 in Hcat. rewrite (left_id_L [] (++)).
    destruct (batches_loop_runs schedule remote (length bs) bs 0 (loaded f) f
                (tr ++ (Warn <$> corrupt_warning f)) Hfull Hlen)
      as (new & ns & evs & Hrun & Hnew & Hacc & Hreq & Hb & Hw & Hlast & Hwarn & Hchunked
          & Hcheck).
    rewrite Hcat in Hnew, Hreq, Hacc.
    exists (Some (Stored (sort_by_score (loaded f ++ new)))),
      ((Warn <$> corrupt_warning f) ++ evs ++ [Write (sort_by_score (loaded f ++ new))]),
      new, ns.
    assert (Hbs : batches ((Warn <$> corrupt_warning f) ++ evs
                           ++ [Write (sort_by_score (loaded f ++ new))]) = bs).
    { by rewrite !batches_app, no_batches_warn, no_batches_write, Hb, (right_id_L [] (++)). }
    assert (Hws : writes ((Warn <$> corrupt_warning f) ++ evs
                          ++ [Write (sort_by_score (loaded f ++ new))])
                  = writes evs ++ [sort_by_score (loaded f ++ new)]).
    { by rewrite !writes_app, no_writes_warn. }
    split_and!; try done.
    + erewrite bind_return by apply Hrun.
      erewrite bind_return by apply write_results_run.
      unfold ret. by rewrite <- !(assoc_L (++)).
    + by rewrite !requests_app, no_requests_warn, no_requests_write, (right_id_L [] (++)).
    + by rewrite Hbs.
    + by rewrite Hbs.
    + by rewrite !warnings_app, warnings_warn, no_warnings_write, Hwarn,
        !(right_id_L [] (++)).
    + rewrite Hbs, Hws.
      rewrite (Forall2_length _ _ _ Hw), take_app_length. exact Hw.
    + rewrite Hws. apply last_snoc.
    + apply ChunksFacts.chunked_app.
      { apply ChunksFacts.chunked_quiet. apply Forall_fmap, Forall_true. done. }
      apply ChunksFacts.chunked_app; [done|]. by repeat constructor.
    + exists (writes evs). rewrite Hbs, Hws. split; [done|].
      destruct bs as [|b bs]; [by destruct todo|].
      by rewrite Hlast.
Qed.

End Service.
End EvaluatorFacts.

(** ** The sequential analysis script *)

Module AnalyzeFacts.
Import Analyze AnalyzeSpec.

Lemma analysis_score_range document a :
  AnalysisSchema_parse document = Some a -> (0 <= score a <= 100)%Q.
Proof.
  destruct document; try done. cbn.
  destruct (fields !! "score") as [j|]; [|done]. cbn.
  destruct (parse_score j) as [q|] eqn:Hq; [|done]. cbn.
  destruct (_ ≫= parse_string); [|done]. cbn.
  destruct (_ ≫= parse_reasoning); [|done]. cbn.
  destruct (_ ≫= parse_confidence); [|done]. cbn.
  intros [= <-]. cbn. by eapply parse_score_range.
Qed.

Lemma entry_for_range answer p entry :
  entry_for answer p = Some entry -> (0 <= score (analysis entry) <= 100)%Q.
Proof.
  unfold entry_for. destruct answer; try done.
  destruct (Input.data p); [|done]. cbn.
  destruct (AnalysisSchema_parse document) eqn:Hp; [|done].
  intros [= <-]. by eapply analysis_score_range.
Qed.

Lemma collected_range remote profiles : forall i,
  Forall (fun entry => (0 <= score (analysis entry) <= 100)%Q) (collected remote profiles i).
Proof.
  induction profiles as [|p rest IH]; intros i; cbn; [done|].
  destruct (entry_for (remote i) p) eqn:He; [|done].
  constructor; [by eapply entry_for_range|done].
Qed.

Lemma insert_entry_perm r l : insert_by_score r l ≡ₚ r :: l.
Proof.
  induction l as [|r' l IH]; cbn; [done|].
  destruct (Qle_bool _ _); [done|]. rewrite IH. apply Permutation_swap.
Qed.

Lemma sort_entries_perm l : sort_by_score l ≡ₚ l.
Proof.
  induction l as [|r l IH]; cbn; [done|].
  rewrite insert_entry_perm. by constructor.
Qed.

Lemma requests_split tr tr' : requests (tr ++ tr') = requests tr ++ requests tr'.
Proof. apply omap_app. Qed.

Lemma writes_split tr tr' : writes (tr ++ tr') = writes tr ++ writes tr'.
Proof. apply omap_app. Qed.

Lemma slept_split tr tr' : slept (tr ++ tr') = slept tr + slept tr'.
Proof. unfold slept. by rewrite omap_app, sum_list_with_app. Qed.

Lemma complete_cons p rest :
  complete (p :: rest) <-> is_Some (Input.data p) /\ complete rest.
Proof. unfold complete. by rewrite Forall_cons. Qed.

Lemma reached_complete profiles : complete profiles -> reached profiles = profiles.
Proof.
  induction 1 as [|p rest [d Hd] _ IH]; [done|]. cbn. by rewrite Hd, IH.
Qed.

Section Service.
Variable zodMessage : json -> string.

Lemma analyse_run answer p data f tr :
  Input.data p = Some data ->
  exists c,
    analyse zodMessage answer p {| outputFile := f; trace := tr |}
    = Some (c, {| outputFile := f; trace := tr ++ [Request p] |})
    /\ match c with
       | Return analysis =>
           entry_for answer p = Some {| name := Profile.name data;
                                        url := Input.url p;
                                        analysis := analysis |}
       | Throw _ => entry_for answer p = None
       end.
Proof using zodMessage.
  intros Hdata. unfold analyse, bind, emit, entry_for; cbn. rewrite Hdata.
  destruct answer; try (by eexists (Throw _)).
  destruct (AnalysisSchema_parse document); [by eexists (Return _)|by eexists (Throw _)].
Qed.

(** The loop over the profiles: it gets as far as the first record without
    data, and ends there with the [TypeError]. *)
Lemma profiles_loop_run remote profiles : forall i results f tr,
  exists f' evs,
    profiles_loop zodMessage remote profiles i results {| outputFile := f; trace := tr |}
    = Some (if decide (complete profiles)
            then Return (results ++ collected remote profiles i)
            else Throw (JsError "null is not an object (evaluating 'p.data.name')"),
            {| outputFile := f'; trace := tr ++ evs |})
    /\ requests evs = reached profiles
    /\ writes evs = (fun k => results ++ take k (collected remote (reached profiles) i))
                    <$> seq 1 (length (collected remote (reached profiles) i))
    /\ slept evs = 500 * length (collected remote (reached profiles) i)
    /\ f' = match last (writes evs) with Some written => Some written | None => f end.
Proof using zodMessage.
  induction profiles as [|p rest IH]; intros i results f tr.
  - exists f, []. cbn. unfold ret. rewrite decide_True by constructor.
    by rewrite !(right_id_L [] (++)).
  - cbn [profiles_loop collected reached].
    destruct (Input.data p) as [data|] eqn:Hdata.
    2:{ exists f, []. rewrite decide_False.
        2:{ intros [[d Hd] _]%complete_cons. congruence. }
        unfold throw. by rewrite (right_id_L [] (++)). }
    assert (Hdec : forall (A : Type) (x y : A),
               (if decide (complete (p :: rest)) then x else y)
               = (if decide (complete rest) then x else y)).
    { intros A x y. destruct (decide (complete rest)) as [Hr|Hr].
      - rewrite decide_True; [done|]. apply complete_cons. by split; [eexists|].
      - rewrite decide_False; [done|]. by intros [_ ?]%complete_cons. }
    rewrite Hdec.
    destruct (analyse_run (remote i) p data f tr Hdata) as ([a|e] & Hrun & Hentry).
    + rewrite Hentry. cbn [collected]. rewrite Hentry.
      set (entry := {| name := Profile.name data; url := Input.url p; analysis := a |}).
      destruct (IH (S i) (results ++ [entry]) (Some (results ++ [entry]))
                   (((tr ++ [Request p]) ++ [Write (results ++ [entry])]) ++ [Sleep 500]))
        as (f' & evs & Hrest & Hreq & Hw & Hs & Hf').
      exists f', ([Request p; Write (results ++ [entry]); Sleep 500] ++ evs).
      assert (Hwrites : writes ([Request p; Write (results ++ [entry]); Sleep 500] ++ evs)
                        = (results ++ [entry]) :: writes evs).
      { by rewrite writes_split. }
      split_and!.
      * erewrite bind_return.
        2:{ apply try_catch_return. erewrite bind_return by exact Hrun.
            unfold bind, write_results, emit, ret. cbn. reflexivity. }
        fold entry. rewrite Hrest.
        rewrite <- (assoc_L (++) results [entry]).
        by rewrite <- 3!(assoc_L (++) tr).
      * rewrite requests_split, Hreq. done.
      * rewrite Hwrites, Hw. cbn [length seq fmap list_fmap].
        cbn [app take]. f_equal. rewrite <- (fmap_S_seq 1), <- list_fmap_compose.
        apply list_fmap_ext. intros _ k _. cbn. by rewrite <- (assoc_L (++)).
      * rewrite slept_split, Hs. cbn [length]. unfold slept. cbn. lia.
      * rewrite Hwrites, Hf'. destruct (writes evs) as [|w ws]; [done|].
        rewrite (last_cons (results ++ [entry])). by destruct (last (w :: ws)).
    + rewrite Hentry. cbn [collected]. rewrite Hentry.
      destruct (IH (S i) results f (tr ++ [Request p]))
        as (f' & evs & Hrest & Hreq & Hw & Hs & Hf').
      exists f', ([Request p] ++ evs). split_and!.
      * erewrite bind_return.
        2:{ erewrite try_catch_throw; [reflexivity|]. by apply bind_throw. }
        rewrite Hrest. by rewrite <- (assoc_L (++) tr).
      * rewrite requests_split, Hreq. done.
      * rewrite writes_split, Hw. done.
      * rewrite slept_split, Hs. done.
      * rewrite writes_split. exact Hf'.
Qed.

(** The whole script with the API key set. *)
Lemma main_run remote profiles f tr :
  exists f' evs,
    main zodMessage true profiles remote {| outputFile := f; trace := tr |}
    = Some (if decide (complete profiles) then Return tt
            else Throw (JsError "null is not an object (evaluating 'p.data.name')"),
            {| outputFile := f'; trace := tr ++ evs |})
    /\ requests evs = reached profiles
    /\ writes evs
       = ((fun k => take k (collected remote (reached profiles) 0))
          <$> seq 1 (length (collected remote (reached profiles) 0)))
         ++ (if decide (complete profiles)
             then [sort_by_score (collected remote profiles 0)] else [])
    /\ slept evs = 500 * length (collected remote (reached profiles) 0)
    /\ f' = match last (writes evs) with Some written => Some written | None => f end.
Proof using zodMessage.
  destruct (profiles_loop_run remote profiles 0 [] f tr)
    as (f' & evs & Hrun & Hreq & Hw & Hs & Hf').
  unfold main. cbn [negb]. destruct (decide (complete profiles)) as [Hc|Hc].
  - exists (Some (sort_by_score (collected remote profiles 0))),
      (evs ++ [Write (sort_by_score (collected remote profiles 0))]). split_and!.
    + erewrite bind_return by exact Hrun.
      unfold bind, write_results, ret. cbn. by rewrite (assoc_L (++)).
    + rewrite requests_split, Hreq. apply (right_id_L [] (++)).
    + rewrite writes_split, Hw. done.
    + rewrite slept_split, Hs. unfold slept. cbn. lia.
    + rewrite writes_split.
      change (writes [Write (sort_by_score (collected remote profiles 0))])
        with [sort_by_score (collected remote profiles 0)].
      by rewrite last_snoc.
  - exists f', evs. split_and!; try done.
    + erewrite bind_throw by exact Hrun. done.
    + by rewrite Hw, (right_id_L [] (++)).
Qed.

End Service.
End AnalyzeFacts.

(** ** The text helpers of the detail scraper *)

Module TextFacts.
Import DoctorScraper TextSpec.

Lemma spaced_app a b : spaced (a ++ b) -> spaced a /\ spaced b.
Proof.
  induction a as [|c a IH]; cbn; [done|].
  intros [Hc Hrest]. destruct (IH Hrest) as [Ha Hb]. split; [|done]. split; [|done].
  intros Hsp. destruct (Hc Hsp) as [-> Hnext]. split; [done|].
  by destruct a.
Qed.

Lemma collapse_spaced s : forall b,
  spaced (collapse b s)
  /\ (b = true -> forall c, head (collapse b s) = Some c -> is_space c = false).
Proof.
  induction s as [|c s IH]; intros b; cbn; [done|].
  destruct (is_space c) eqn:Hc.
  - destruct b.
    + apply IH.
    + destruct (IH true) as [Hs Hh]. split; [|done]. cbn. split; [|done].
      intros _. split; [done|].
      destruct (collapse true s) as [|d rest] eqn:Hd; [done|]. by apply Hh.
  - destruct (IH false) as [Hs _]. split.
    + cbn. split; [|done]. intros Hsp. congruence.
    + intros _ c' [= <-]. done.
Qed.

(** What [trim_start] removes is white space; what it leaves does not start
    with white space. *)
Lemma trim_start_split s :
  exists sp, s = sp ++ trim_start s
             /\ Forall (fun c => is_space c = true) sp
             /\ (forall c, head (trim_start s) = Some c -> is_space c = false).
Proof.
  induction s as [|c s (sp & Hs & Hsp & Hh)]; [by exists []|]. cbn.
  destruct (is_space c) eqn:Hc.
  - exists (c :: sp). split; [by rewrite Hs at 1|]. split; [by constructor|done].
  - exists []. split; [done|]. split; [done|]. by intros c' [= <-].
Qed.

Lemma trim_end_split s :
  exists sp, s = trim_end s ++ sp
             /\ Forall (fun c => is_space c = true) sp
             /\ (forall c, last (trim_end s) = Some c -> is_space c = false).
Proof.
  destruct (trim_start_split (reverse s)) as (sp & Hs & Hsp & Hh).
  exists (reverse sp). unfold trim_end. split; [|split].
  - rewrite <- reverse_app, <- Hs. by rewrite reverse_involutive.
  - by apply Forall_reverse.
  - intros c. rewrite last_reverse. apply Hh.
Qed.

Lemma trim_start_fixed s :
  (forall c, head s = Some c -> is_space c = false) -> trim_start s = s.
Proof. destruct s as [|c s]; [done|]. cbn. intros H. by rewrite (H c eq_refl). Qed.

Lemma trim_end_fixed s :
  (forall c, last s = Some c -> is_space c = false) -> trim_end s = s.
Proof.
  intros H. unfold trim_end. rewrite trim_start_fixed; [apply reverse_involutive|].
  intros c. rewrite head_reverse. apply H.
Qed.

(** White space only as single U+0020 units, none at the end: every one
    is followed by a unit that is not white space. *)
Lemma spaced_followed s :
  spaced s -> (forall c, last s = Some c -> is_space c = false) ->
  forall i c, s !! i = Some c -> is_space c = true ->
    c = 32%N /\ exists d, s !! S i = Some d /\ is_space d = false.
Proof.
  induction s as [|c s IH]; [done|]. cbn [spaced].
  intros [Hc Hs] Hlast [|i] c' Hi Hsp.
  - injection Hi as <-. destruct (Hc Hsp) as [-> Hnext]. split; [done|].
    destruct s as [|d s]; [|by exists d].
    specialize (Hlast 32%N eq_refl). congruence.
  - apply IH; [done| |done|done].
    intros d Hd. apply Hlast. destruct s; [done|]. by rewrite last_cons, Hd.
Qed.

Lemma clean_spaced s :
  clean s -> spaced s /\ (forall c, last s = Some c -> is_space c = false).
Proof.
  intros [_ Hfollow]. split.
  - induction s as [|c s IH]; [done|]. cbn. split.
    + intros Hsp. destruct (Hfollow 0 c eq_refl Hsp) as (-> & d & Hd & Hnd).
      split; [done|]. destruct s; [done|]. by injection Hd as ->.
    + apply IH. intros i c' Hi. apply (Hfollow (S i) c' Hi).
  - intros c Hlast. destruct (is_space c) eqn:Hsp; [|done].
    apply last_Some in Hlast as (l' & ->).
    destruct (Hfollow (length l') c) as (_ & d & Hd & _); [|done|].
    + by rewrite lookup_app_r, Nat.sub_diag by lia.
    + apply lookup_lt_Some in Hd. rewrite length_app in Hd. cbn in Hd. lia.
Qed.

Lemma collapse_fixed s : forall b,
  spaced s -> (forall c, last s = Some c -> is_space c = false) ->
  (b = true -> forall c, head s = Some c -> is_space c = false) ->
  collapse b s = s.
Proof.
  induction s as [|c s IH]; intros b; [done|]. cbn [spaced collapse].
  intros [Hc Hs] Hlast Hb.
  assert (Hlast' : forall d, last s = Some d -> is_space d = false).
  { intros d Hd. apply Hlast. destruct s; [done|]. by rewrite last_cons, Hd. }
  destruct (is_space c) eqn:Hsp.
  - destruct (Hc eq_refl) as [-> Hnext].
    destruct b; [specialize (Hb eq_refl 32%N eq_refl); congruence|].
    f_equal. apply IH; [done|done|].
    intros _ d Hd. destruct s; [done|]. by injection Hd as <-.
  - f_equal. apply IH; [done|done|done].
Qed.

Lemma filter_spaces_nil (sp : list N) :
  Forall (fun c => is_space c = true) sp -> filter (fun c => is_space c = false) sp = [].
Proof.
  induction 1 as [|c sp Hc _ IH]; [done|].
  rewrite filter_cons_False by congruence. exact IH.
Qed.

Lemma collapse_keeps s : forall b,
  filter (fun c => is_space c = false) (collapse b s)
  = filter (fun c => is_space c = false) s.
Proof.
  induction s as [|c s IH]; intros b; [done|]. cbn [collapse].
  destruct (is_space c) eqn:Hc.
  - rewrite (filter_cons_False _ c) by congruence. destruct b; [apply IH|].
    rewrite filter_cons_False by done. apply IH.
  - rewrite !filter_cons_True by done. f_equal. apply IH.
Qed.

Lemma trim_keeps s :
  filter (fun c => is_space c = false) (trim s) = filter (fun c => is_space c = false) s.
Proof.
  unfold trim.
  destruct (trim_start_split s) as (sp & Hsplit & Hsp & _).
  destruct (trim_end_split (trim_start s)) as (sp' & Hsplit' & Hsp' & _).
  rewrite Hsplit at 2. rewrite Hsplit' at 2.
  rewrite !filter_app, (filter_spaces_nil sp), (filter_spaces_nil sp') by done.
  by rewrite (right_id_L [] (++)).
Qed.

(** Whatever it is given, [cleanText] returns a clean text. *)
Lemma cleanText_clean (text : option (list N)) : clean (cleanText text).
Proof.
  destruct text as [[|c s]|]; try (split; [done|by intros []]).
  unfold cleanText, trim.
  set (c0 := collapse false (c :: s)).
  destruct (collapse_spaced (c :: s) false) as [Hc0 _]. fold c0 in Hc0.
  destruct (trim_start_split c0) as (sp & Hsplit & _ & Hhead).
  set (c1 := trim_start c0) in *.
  rewrite Hsplit in Hc0. apply spaced_app in Hc0 as [_ Hc1].
  destruct (trim_end_split c1) as (sp' & Hsplit' & _ & Hlast).
  set (c2 := trim_end c1) in *.
  rewrite Hsplit' in Hc1. apply spaced_app in Hc1 as [Hc2 _].
  split.
  - intros d Hd. apply Hhead. rewrite Hsplit'. by destruct c2.
  - by apply spaced_followed.
Qed.

(** A clean text is left as it is. *)
Lemma cleanText_fixed s : clean s -> cleanText (Some s) = s.
Proof.
  intros Hclean. destruct (clean_spaced s Hclean) as [Hsp Hlast].
  destruct s as [|c s]; [done|].
  unfold cleanText, trim.
  rewrite collapse_fixed by done.
  rewrite trim_start_fixed by apply Hclean.
  by apply trim_end_fixed.
Qed.

Lemma units_digits u : Forall (fun c => is_digit c = true) (units u).
Proof. induction u; cbn; by constructor. Qed.

Lemma parseInt_units u : forall acc : N,
  foldl (fun acc c => 10 * acc + (c - 48))%N acc (units u)
  = (acc * 10 ^ Unsigned.usize u + Unsigned.of_lu (Decimal.rev u))%N.
Proof.
  induction u as [|u IH|u IH|u IH|u IH|u IH|u IH|u IH|u IH|u IH|u IH]; intros acc;
    [cbn; lia|..];
    cbn [units foldl Unsigned.usize];
    match goal with
    | |- context [Decimal.rev (?d u)] =>
        change (Decimal.rev (d u)) with (Decimal.revapp u (d Decimal.Nil))
    end;
    rewrite Unsigned.of_lu_revapp, IH, N.pow_succ_r'; cbn [Unsigned.of_lu];
    set (p := (10 ^ Unsigned.usize u)%N); set (r := Unsigned.of_lu (Decimal.rev u));
    nia.
Qed.

Lemma parseInt_decimal n : parseInt (decimal n) = n.
Proof.
  unfold parseInt, decimal. rewrite parseInt_units, N.mul_0_l, N.add_0_l.
  rewrite <- Unsigned.of_uint_alt. apply DecimalN.Unsigned.of_to.
Qed.

Lemma decimal_nonempty n : decimal n <> [].
Proof.
  unfold decimal. destruct n as [|p]; [done|]. cbn.
  pose proof (Unsigned.to_uint_nonnil p) as Hp. by destruct (Pos.to_uint p).
Qed.

Lemma take_digits_run ds suffix :
  Forall (fun c => is_digit c = true) ds ->
  (forall c, head suffix = Some c -> is_digit c = false) ->
  take_digits (ds ++ suffix) = ds.
Proof.
  intros Hds Hsuffix. induction Hds as [|c ds Hc _ IH]; cbn.
  - destruct suffix as [|c suffix]; [done|]. cbn. by rewrite (Hsuffix c eq_refl).
  - by rewrite Hc, IH.
Qed.

Lemma first_digits_run prefix ds suffix :
  Forall (fun c => is_digit c = false) prefix ->
  ds <> [] -> Forall (fun c => is_digit c = true) ds ->
  (forall c, head suffix = Some c -> is_digit c = false) ->
  first_digits (prefix ++ ds ++ suffix) = Some ds.
Proof.
  intros Hprefix Hne Hds Hsuffix. induction Hprefix as [|c prefix Hc _ IH]; cbn.
  - destruct Hds as [|c ds Hc Hds]; [done|]. cbn. rewrite Hc.
    by rewrite take_digits_run.
  - by rewrite Hc.
Qed.

Lemma first_digits_none s :
  first_digits s = None <-> Forall (fun c => is_digit c = false) s.
Proof.
  induction s as [|c s IH]; cbn; [done|]. destruct (is_digit c) eqn:Hc.
  - split; [done|]. intros H. apply Forall_cons in H as [H _]. congruence.
  - rewrite IH. split; [by constructor|]. intros [_ H]%Forall_cons. exact H.
Qed.

End TextFacts.

(** ** More on the link discoverer *)

Module DiscovererFacts.
Import DoctorScraper BatchScraper ScraperSpec ScraperFacts.

Lemma pairwise_snoc {A} (R : A -> A -> Prop) l b :
  pairwise R l -> Forall (fun a => R a b) l -> pairwise R (l ++ [b]).
Proof.
  intros Hl Hb i j a c Hij Hi Hj.
  assert (Hlen : j < length (l ++ [b])) by (by eapply lookup_lt_Some).
  rewrite length_app in Hlen. cbn in Hlen.
  rewrite lookup_app_l in Hi by lia.
  destruct (decide (j = length l)) as [->|Hne].
  - rewrite lookup_app_r, Nat.sub_diag in Hj by lia. injection Hj as <-.
    exact (Forall_lookup_1 (fun a => R a b) l i a Hb Hi).
  - rewrite lookup_app_l in Hj by lia. exact (Hl i j a c Hij Hi Hj).
Qed.

Lemma all_links_snoc allPages g x :
  x ∈ all_links (allPages ++ [g]) <-> x ∈ all_links allPages \/ x ∈ PageData.links g.
Proof.
  unfold all_links. rewrite fmap_app, concat_app, elem_of_app. cbn.
  by rewrite (right_id_L [] (++)).
Qed.

Lemma all_links_group allPages g x :
  g ∈ allPages -> x ∈ PageData.links g -> x ∈ all_links allPages.
Proof.
  intros Hg Hx. unfold all_links.
  induction allPages as [|a allPages IH]; [by apply elem_of_nil in Hg|].
  cbn. apply elem_of_app. apply elem_of_cons in Hg as [<-|Hg]; [by left|].
  right. by apply IH.
Qed.

Lemma seen_after (seen : gset string) (new : list string) x :
  x ∈ foldl (fun seen link => {[link]} ∪ seen) seen new <-> x ∈ new \/ x ∈ seen.
Proof.
  revert seen. induction new as [|y new IH]; intros seen; cbn.
  - set_solver.
  - rewrite IH. set_solver.
Qed.

Lemma http_links_prefix hrefs :
  Forall (fun x => String.prefix "http" x = true) (http_links hrefs).
Proof. apply Forall_forall. intros x Hx. by apply list_elem_of_filter in Hx as [? _]. Qed.

Section Walk.
Variable listing : nat -> page_load.

Lemma page_loop_groups todo : forall pageNum allPages (seen : gset string) tr,
  1 <= pageNum ->
  (forall x, x ∈ seen <-> x ∈ all_links allPages) ->
  pairwise apart allPages ->
  Forall (fun g => PageData.pageNumber g < pageNum /\ well_formed_group listing g) allPages ->
  exists pages evs,
    runs (page_loop listing todo pageNum allPages seen) tr pages evs
    /\ pairwise apart pages
    /\ Forall (fun g => PageData.pageNumber g < pageNum + todo
                        /\ well_formed_group listing g) pages
    /\ (forall x, x ∈ all_links pages <->
                  x ∈ all_links allPages
                  \/ exists n, n ∈ gotos evs /\ x ∈ raw_links listing n).
Proof using listing.
  induction todo as [|todo IH]; intros pageNum allPages seen tr Hpos Hseen Hapart Hshape.
  - exists allPages, []. split_and!.
    + apply scraper_runs_ret.
    + done.
    + eapply Forall_impl; [exact Hshape|]. cbn. intros g [? ?]. split; [lia|done].
    + intros x. split; [by left|]. intros [?|(n & Hn & _)]; [done|]. by cbn in Hn; set_solver.
  - cbn [page_loop]. destruct (listing pageNum) as [e|e|hrefs] eqn:Hload.
    + destruct (IH (S pageNum) allPages seen (tr ++ [Goto pageNum]) ltac:(lia) Hseen Hapart)
        as (pages & evs & Hrun & Hap & Hsh & Hset).
      { eapply Forall_impl; [exact Hshape|]. cbn. intros g [? ?]. split; [lia|done]. }
      exists pages, ([Goto pageNum] ++ evs). split_and!.
      * eapply scraper_runs_bind; [apply scraper_runs_emit|done].
      * done.
      * eapply Forall_impl; [exact Hsh|]. cbn. intros g [? ?]. split; [lia|done].
      * intros x. rewrite Hset.
        change (gotos ([Goto pageNum] ++ evs)) with (pageNum :: gotos evs).
        split; (intros [?|(n & Hn & Hx)]; [by left|right]).
        -- exists n. split; [by right|done].
        -- apply elem_of_cons in Hn as [->|Hn].
           ++ unfold raw_links in Hx. rewrite Hload in Hx. by apply elem_of_nil in Hx.
           ++ by exists n.
    + destruct (IH (S pageNum) allPages seen ((tr ++ [Goto pageNum]) ++ [Sleep 1500])
                  ltac:(lia) Hseen Hapart)
        as (pages & evs & Hrun & Hap & Hsh & Hset).
      { eapply Forall_impl; [exact Hshape|]. cbn. intros g [? ?]. split; [lia|done]. }
      exists pages, ([Goto pageNum] ++ [Sleep 1500] ++ evs). split_and!.
      * eapply scraper_runs_bind; [apply scraper_runs_emit|].
        eapply scraper_runs_bind; [apply scraper_runs_emit|done].
      * done.
      * eapply Forall_impl; [exact Hsh|]. cbn. intros g [? ?]. split; [lia|done].
      * intros x. rewrite Hset.
        change (gotos ([Goto pageNum] ++ [Sleep 1500] ++ evs)) with (pageNum :: gotos evs).
        split; (intros [?|(n & Hn & Hx)]; [by left|right]).
        -- exists n. split; [by right|done].
        -- apply elem_of_cons in Hn as [->|Hn].
           ++ unfold raw_links in Hx. rewrite Hload in Hx. by apply elem_of_nil in Hx.
           ++ by exists n.
    + set (links := http_links hrefs).
      set (new := filter (fun link => link ∉ seen) links).
      set (seen' := foldl (fun seen link => {[link]} ∪ seen) seen new).
      set (g := {| PageData.links := new; PageData.pageNumber := pageNum |}).
      set (allPages' := if 0 <? length new then allPages ++ [g] else allPages).
      assert (Hraw : raw_links listing pageNum = links)
        by (unfold raw_links; by rewrite Hload).
      assert (Hlinks' : forall x, x ∈ all_links allPages' <->
                                  x ∈ all_links allPages \/ x ∈ new).
      { intros x. unfold allPages'. destruct new as [|y new'] eqn:Hnew; cbn.
        - split; [by left|]. intros [?|Hx]; [done|]. by apply elem_of_nil in Hx.
        - apply all_links_snoc. }
      assert (Hseen' : forall x, x ∈ seen' <-> x ∈ all_links allPages').
      { intros x. unfold seen'. rewrite seen_after, Hlinks', Hseen. tauto. }
      assert (Hapart' : pairwise apart allPages').
      { unfold allPages'. destruct (0 <? length new); [|done].
        apply pairwise_snoc; [done|]. apply Forall_forall. intros a Ha.
        pose proof (proj1 (Forall_forall _ _) Hshape a Ha) as [Hlt _].
        split; [done|]. intros x Hx Hin. cbn in Hin.
        apply list_elem_of_filter in Hin as [Hnot _]. apply Hnot, Hseen.
        by eapply all_links_group. }
      assert (Hshape' : Forall (fun g => PageData.pageNumber g < S pageNum
                                         /\ well_formed_group listing g) allPages').
      { assert (Hold : Forall (fun g => PageData.pageNumber g < S pageNum
                                        /\ well_formed_group listing g) allPages).
        { eapply Forall_impl; [exact Hshape|]. cbn. intros a [? ?]. split; [lia|done]. }
        unfold allPages'. destruct (0 <? length new) eqn:Hlen; [|done].
        apply Forall_app. split; [done|]. constructor; [|done]. cbn.
        split; [lia|]. unfold well_formed_group. cbn. split_and!.
        - apply Nat.ltb_lt in Hlen. intros Hnil. rewrite Hnil in Hlen. cbn in Hlen. lia.
        - done.
        - rewrite Hraw. apply sublist_filter.
        - apply Forall_forall. intros x Hx.
          apply list_elem_of_filter in Hx as [_ Hx].
          exact (proj1 (Forall_forall _ _) (http_links_prefix hrefs) x Hx). }
      assert (Hmerge : forall x, x ∈ all_links allPages' <->
                                 x ∈ all_links allPages \/ x ∈ raw_links listing pageNum).
      { intros x. rewrite Hlinks', Hraw. unfold new. rewrite list_elem_of_filter, Hseen.
        destruct (decide (x ∈ all_links allPages)); tauto. }
      destruct (length links =? 0) eqn:Hstop.
      * exists allPages', ([Goto pageNum] ++ [Sleep 1500] ++ []). split_and!.
        -- eapply scraper_runs_bind; [apply scraper_runs_emit|].
           eapply scraper_runs_bind; [apply scraper_runs_emit|]. apply scraper_runs_ret.
        -- done.
        -- eapply Forall_impl; [exact Hshape'|]. cbn. intros a [? ?]. split; [lia|done].
        -- intros x. rewrite Hmerge. split; (intros [?|Hx]; [by left|right]).
           ++ exists pageNum. split; [by left|done].
           ++ destruct Hx as (n & Hn & Hx). cbn in Hn.
              apply list_elem_of_singleton in Hn as ->. done.
      * destruct (IH (S pageNum) allPages' seen' ((tr ++ [Goto pageNum]) ++ [Sleep 1500])
                     ltac:(lia) Hseen' Hapart' Hshape')
          as (pages & evs & Hrun & Hap & Hsh & Hset).
        exists pages, ([Goto pageNum] ++ [Sleep 1500] ++ evs). split_and!.
        -- eapply scraper_runs_bind; [apply scraper_runs_emit|].
           eapply scraper_runs_bind; [apply scraper_runs_emit|]. exact Hrun.
        -- done.
        -- eapply Forall_impl; [exact Hsh|]. cbn. intros a [? ?]. split; [lia|done].
        -- intros x. rewrite Hset, Hmerge.
           change (gotos ([Goto pageNum] ++ [Sleep 1500] ++ evs)) with (pageNum :: gotos evs).
           split.
           ++ intros [[?|Hx]|(n & Hn & Hx)]; [by left|right..].
              ** exists pageNum. split; [by left|done].
              ** exists n. split; [by right|done].
           ++ intros [?|(n & Hn & Hx)]; [by left; left|].
              apply elem_of_cons in Hn as [->|Hn]; [by left; right|].
              right. by exists n.
Qed.

End Walk.

Lemma scraper_runs_unique {A} (m : M BatchScraper.World A) tr a evs a' evs' :
  ScraperSpec.runs m tr a evs -> ScraperSpec.runs m tr a' evs' -> a = a' /\ evs = evs'.
Proof.
  intros H H'. specialize (H None). rewrite (H' None) in H.
  injection H as -> Heq. by apply app_inv_head in Heq.
Qed.

(** What the discoverer returns, and the pages its loop loaded. *)
Lemma discoverer_groups (listing : nat -> BatchScraper.page_load) (maxPages : nat)
    (tr : list BatchScraper.event) :
  exists pages evs,
    ScraperSpec.runs (BatchScraper.getDoctorLinksWithPagination listing maxPages)
      tr pages evs
    /\ pairwise apart pages
    /\ Forall (fun g => BatchScraper.PageData.pageNumber g <= maxPages
                        /\ well_formed_group listing g) pages
    /\ (forall x, x ∈ all_links pages <->
                  exists n, 1 <= n <= walk_length listing maxPages 1
                            /\ x ∈ raw_links listing n).
Proof.
  destruct (page_loop_groups listing maxPages 1 [] ∅
              (tr ++ [BatchScraper.Goto 1]))
    as (pages & evs & Hrun & Hap & Hsh & Hset); [lia|set_solver|by intros ? ? ? ? ? ?|done|].
  destruct (page_loop_runs listing maxPages 1 [] ∅ (tr ++ [BatchScraper.Goto 1]))
    as (pages' & evs' & Hrun' & Hg & _).
  destruct (scraper_runs_unique _ _ _ _ _ _ Hrun Hrun') as [<- <-].
  exists pages, ([BatchScraper.Goto 1] ++ evs). split_and!.
  - eapply scraper_runs_bind; [apply scraper_runs_emit|done].
  - done.
  - eapply Forall_impl; [exact Hsh|]. cbn. intros g [? ?]. split; [lia|done].
  - intros x. rewrite Hset, Hg. split.
    + intros [Hx|(n & Hn & Hx)]; [by apply elem_of_nil in Hx|].
      apply elem_of_seq in Hn. exists n. split; [lia|done].
    + intros (n & Hn & Hx). right. exists n. split; [|done]. apply elem_of_seq. lia.
Qed.

End DiscovererFacts.
(** ** More on the chunk loops *)

Module ChunkLoopFacts.
Import DoctorScraper BatchScraper ScraperSpec ScraperFacts.

Lemma outcome_url page target c : url (outcome page target c) = target.
Proof. by destruct c. Qed.

Lemma scrapes_batch page batch : scrapes [Batch page batch] = [].
Proof. done. Qed.

Lemma scrapes_pause (b : bool) : scrapes (if b then [Sleep 1000] else []) = [].
Proof. by destruct b. Qed.

Lemma chunks_fuel c : 0 < c -> forall fuel fuel' links,
  length links <= fuel -> length links <= fuel' ->
  chunks fuel c links = chunks fuel' c links.
Proof.
  intros Hc. induction fuel as [|fuel IH]; intros fuel' links Hfuel Hfuel'.
  - destruct links; [|cbn in Hfuel; lia]. by destruct fuel'.
  - destruct links as [|x links]; [by destruct fuel'|].
    destruct fuel' as [|fuel']; [cbn in Hfuel'; lia|].
    cbn [chunks]. f_equal. apply IH; rewrite length_drop; cbn in *; lia.
Qed.

Lemma chunks_concat c : 0 < c -> forall fuel links,
  length links <= fuel -> concat (chunks fuel c links) = links.
Proof.
  intros Hc. induction fuel as [|fuel IH]; intros links Hfuel.
  - by destruct links; [|cbn in Hfuel; lia].
  - destruct links as [|x links]; [done|]. cbn [chunks concat].
    rewrite IH by (rewrite length_drop; cbn in *; lia). apply take_drop.
Qed.


Lemma attempts_app scraped chunks chunks' :
  attempts scraped (chunks ++ chunks')
  = attempts scraped chunks ++ attempts (list_to_set (concat chunks) ∪ scraped) chunks'.
Proof.
  revert scraped. induction chunks as [|b chunks IH]; intros scraped; cbn.
  - by rewrite (left_id_L ∅ (∪)).
  - rewrite IH, <- (assoc_L (++)). do 2 f_equal.
    rewrite list_to_set_app_L. f_equal. set_solver.
Qed.



Section Scraper.
Variable scrapeDoctorInfo : nat -> string -> completion DoctorInfo.
Variable schedule : nat -> nat -> nat.

(** With the limit 0 the loop over a page never moves on. *)
Lemma batch_loop_stuck page links i : forall fuel results scraped w,
  i < length links ->
  batch_loop scrapeDoctorInfo schedule fuel 0 page links i results scraped w = None.
Proof using.
  induction fuel as [|fuel IH]; intros results scraped w Hi; cbn [batch_loop];
    rewrite (proj2 (Nat.leb_gt _ _) Hi); [done|].
  rewrite slice_take_drop. cbn [take].
  erewrite bind_return by reflexivity.
  erewrite bind_return by reflexivity.
  rewrite Nat.add_0_r, (proj2 (Nat.ltb_lt _ _) Hi).
  erewrite bind_return by reflexivity.
  by apply IH.
Qed.

(** The loop over a page: one record for every address scraped; scraped
    are, chunk by chunk, the addresses no earlier chunk held. *)
Lemma batch_loop_accounts c page links :
  0 < c ->
  forall fuel i results scraped tr,
    length links <= fuel + i ->
    exists new evs,
      runs (batch_loop scrapeDoctorInfo schedule fuel c page links i results scraped) tr
           (results ++ new, list_to_set (drop i links) ∪ scraped) evs
      /\ url <$> new = attempts scraped (chunks (length (drop i links)) c (drop i links))
      /\ Forall (fun r => exists n, r = outcome page (url r) (scrapeDoctorInfo n (url r))) new
      /\ scrapes evs ≡ₚ url <$> new
      /\ (forall x, x ∈ scrapes evs <-> x ∈ drop i links /\ x ∉ scraped)
      /\ (c = 1 -> NoDup (scrapes evs)).
Proof using.
  intros Hc. induction fuel as [|fuel IH]; intros i results scraped tr Hfuel.
  - exists [], []. cbn [batch_loop].
    rewrite (proj2 (Nat.leb_le _ _)) by lia. rewrite drop_ge by lia.
    rewrite (right_id_L [] (++)). cbn [list_to_set]. rewrite (left_id_L ∅ (∪)).
    split; [apply scraper_runs_ret|]. split; [done|]. split; [done|]. split; [done|].
    split; [|by constructor].
    intros x. split; [by intros ?%elem_of_nil|by intros [?%elem_of_nil _]].
  - cbn [batch_loop]. destruct (length links <=? i) eqn:Hi.
    + apply Nat.leb_le in Hi. exists [], []. rewrite drop_ge by lia.
      rewrite (right_id_L [] (++)). cbn [list_to_set]. rewrite (left_id_L ∅ (∪)).
      split; [apply scraper_runs_ret|]. split; [done|]. split; [done|]. split; [done|].
      split; [|by constructor].
      intros x. split; [by intros ?%elem_of_nil|by intros [?%elem_of_nil _]].
    + apply Nat.leb_gt in Hi. rewrite slice_take_drop.
      set (batch := take c (drop i links)).
      set (rest := drop (i + c) links).
      assert (Hsplit : drop i links = batch ++ rest).
      { unfold batch, rest. rewrite <- drop_drop. by rewrite take_drop. }
      destruct (promise_all_runs scrapeDoctorInfo schedule scraped page c batch
                  (tr ++ [Batch page batch]))
        as (rs & evs1 & Hrun1 & Hrs & _ & _ & Hurl1 & Hscr1 & _ & _ & _ & Hexact1).
      destruct (not_null_chunk _ _ _ _ _ Hrs) as [Hgen _].
      set (pause := if i + c <? length links then [Sleep 1000] else []).
      destruct (IH (i + c) (results ++ not_null rs) (list_to_set batch ∪ scraped)
                   (((tr ++ [Batch page batch]) ++ evs1) ++ pause) ltac:(lia))
        as (new & evs2 & Hrun2 & Hurl2 & Hans2 & Hatt2 & Hscr2 & Hnodup2).
      fold rest in Hrun2, Hscr2, Hatt2.
      exists (not_null rs ++ new), ([Batch page batch] ++ evs1 ++ pause ++ evs2).
      assert (Hscrapes : scrapes ([Batch page batch] ++ evs1 ++ pause ++ evs2)
                         = scrapes evs1 ++ scrapes evs2).
      { rewrite !scrapes_app, scrapes_batch. unfold pause. by rewrite scrapes_pause. }
      rewrite Hscrapes. split_and!.
      * replace (list_to_set (drop i links) ∪ scraped)
          with (list_to_set rest ∪ (list_to_set batch ∪ scraped) : gset string)
          by (rewrite Hsplit; set_solver).
        rewrite (assoc_L (++) results).
        eapply scraper_runs_bind; [apply scraper_runs_emit|].
        eapply scraper_runs_bind; [exact Hrun1|].
        eapply scraper_runs_bind; [|exact Hrun2].
        unfold pause. destruct (i + c <? length links);
          [apply scraper_runs_emit|apply scraper_runs_ret].
      * rewrite fmap_app, Hexact1, Hurl2.
        assert (Hlen : 0 < length (drop i links)) by (rewrite length_drop; lia).
        destruct (drop i links) as [|x l] eqn:Hdrop; [cbn in Hlen; lia|].
        cbn [length chunks attempts]. fold batch.
        replace (drop c (x :: l)) with rest.
        2:{ unfold rest. rewrite <- Hdrop. by rewrite drop_drop. }
        rewrite (chunks_fuel c Hc (length l) (length rest) rest); [done| |done].
        unfold rest. rewrite <- drop_drop, Hdrop, length_drop. cbn. lia.
      * apply Forall_app. split; [|done].
        eapply Forall_impl; [exact Hgen|]. cbn. intros r (t & _ & n & ->).
        exists n. by rewrite outcome_url.
      * by rewrite fmap_app, Hurl1, Hatt2.
      * intros x. rewrite elem_of_app, Hscr2, Hscr1, list_elem_of_filter, Hsplit, elem_of_app.
        rewrite elem_of_union, elem_of_list_to_set.
        destruct (decide (x ∈ batch)); tauto.
      * intros ->. apply NoDup_app. split_and!.
        -- rewrite Hscr1. apply NoDup_filter. unfold batch.
           destruct (drop i links) as [|y l]; cbn; [constructor|].
           apply NoDup_singleton.
        -- intros x Hx1 Hx2. apply Hscr2 in Hx2 as [_ Hnot].
           rewrite Hscr1 in Hx1. apply list_elem_of_filter in Hx1 as [_ Hx1].
           apply Hnot. set_solver.
        -- by apply Hnodup2.
Qed.

Lemma pages_loop_accounts c :
  0 < c ->
  forall allPages results scraped tr,
    exists new evs,
      runs (pages_loop scrapeDoctorInfo schedule c allPages results scraped) tr
           (results ++ new) evs
      /\ url <$> new = attempts scraped (all_chunks c allPages)
      /\ Forall (fun r => exists page n,
                   r = outcome page (url r) (scrapeDoctorInfo n (url r))) new
      /\ scrapes evs ≡ₚ url <$> new
      /\ (forall x, x ∈ scrapes evs <-> x ∈ all_links allPages /\ x ∉ scraped)
      /\ (c = 1 -> NoDup (scrapes evs)).
Proof using.
  intros Hc. induction allPages as [|pageData rest IH]; intros results scraped tr.
  - exists [], []. rewrite (right_id_L [] (++)).
    split; [apply scraper_runs_ret|]. split; [done|]. split; [done|]. split; [done|].
    split; [|by constructor].
    intros x. split; [by intros ?%elem_of_nil|by intros [?%elem_of_nil _]].
  - cbn [pages_loop].
    destruct (batch_loop_accounts c (PageData.pageNumber pageData) (PageData.links pageData)
                Hc (length (PageData.links pageData)) 0 results scraped tr ltac:(lia))
      as (new1 & evs1 & Hrun1 & Hurl1 & Hans1 & Hatt1 & Hscr1 & Hnodup1).
    rewrite drop_0 in Hrun1, Hscr1, Hurl1.
    destruct (IH (results ++ new1) (list_to_set (PageData.links pageData) ∪ scraped)
                 (tr ++ evs1))
      as (new2 & evs2 & Hrun2 & Hurl2 & Hans2 & Hatt2 & Hscr2 & Hnodup2).
    exists (new1 ++ new2), (evs1 ++ evs2). split_and!.
    + rewrite (assoc_L (++) results). eapply scraper_runs_bind; [exact Hrun1|exact Hrun2].
    + rewrite fmap_app, Hurl1, Hurl2. unfold all_chunks.
      cbn [fmap list_fmap concat]. rewrite attempts_app.
      by rewrite (chunks_concat c Hc).
    + apply Forall_app. split; [|done].
      eapply Forall_impl; [exact Hans1|]. cbn. intros r [n Hr]. by eexists _, _.
    + by rewrite scrapes_app, fmap_app, Hatt1, Hatt2.
    + intros x. rewrite scrapes_app, elem_of_app, Hscr1, Hscr2.
      unfold all_links. cbn [fmap list_fmap concat]. fold (all_links rest).
      rewrite elem_of_app, elem_of_union, elem_of_list_to_set.
      destruct (decide (x ∈ PageData.links pageData)); tauto.
    + intros Hone. rewrite scrapes_app. apply NoDup_app. split_and!.
      * by apply Hnodup1.
      * intros x Hx1 Hx2. apply Hscr1 in Hx1 as [Hx1 _]. apply Hscr2 in Hx2 as [_ Hnot].
        apply Hnot. set_solver.
      * by apply Hnodup2.
Qed.

End Scraper.

(** The whole of the [try] block of [scrapeMultipleDoctors] for a limit of at
    least 1. *)
Lemma scraper_accounts (listing : nat -> page_load)
    (scrapeDoctorInfo : nat -> string -> completion DoctorInfo)
    (schedule : nat -> nat -> nat)
    (c maxPages : nat) (tr : list event) :
  0 < c ->
  exists results evs,
    runs (scrapeMultipleDoctors listing scrapeDoctorInfo schedule c maxPages) tr results evs
    /\ url <$> results ≡ₚ scrapes evs
    /\ (forall x, x ∈ scrapes evs <->
                  exists n, 1 <= n <= walk_length listing maxPages 1
                            /\ x ∈ raw_links listing n)
    /\ (c = 1 -> NoDup (scrapes evs))
    /\ writes evs = []
    /\ chunked c evs.
Proof.
  intros Hc.
  destruct (DiscovererFacts.discoverer_groups listing maxPages tr)
    as (pages & evs0 & Hrun0 & _ & _ & Hset).
  destruct (scrapeMultipleDoctors_runs listing scrapeDoctorInfo schedule c maxPages tr Hc)
    as (results' & evs1' & evs2' & Hrun' & _ & Hev1' & Hev2' & Hchunked').
  assert (Hwrites' : writes (evs1' ++ evs2') = []).
  { unfold writes. rewrite omap_app. fold (writes evs1'). fold (writes evs2').
    by rewrite (discovery_no_writes _ Hev1'), (chunk_no_writes _ _ Hev2'). }
  destruct (getDoctorLinksWithPagination_runs listing maxPages tr)
    as (pages' & evs0' & Hrun0' & _ & Hev0).
  destruct (DiscovererFacts.scraper_runs_unique _ _ _ _ _ _ Hrun0 Hrun0') as [<- <-].
  pose proof (discovery_no_scrapes _ Hev0) as Hquiet.
  assert (exists results evs,
             runs (scrapeMultipleDoctors listing scrapeDoctorInfo schedule c maxPages)
               tr results evs
             /\ url <$> results ≡ₚ scrapes evs
             /\ (forall x, x ∈ scrapes evs <->
                           exists n, 1 <= n <= walk_length listing maxPages 1
                                     /\ x ∈ raw_links listing n)
             /\ (c = 1 -> NoDup (scrapes evs)))
    as (results & evs & Hrun & Hurl & Hscr & Hnodup).
  { unfold scrapeMultipleDoctors.
    destruct (length pages =? 0) eqn:Hlen.
    - apply Nat.eqb_eq, nil_length_inv in Hlen. subst pages.
      exists [], (evs0 ++ []). rewrite (right_id_L [] (++)), Hquiet. split_and!.
      + rewrite <- (right_id_L [] (++) evs0).
        eapply scraper_runs_bind; [exact Hrun0|]. cbn. apply scraper_runs_ret.
      + done.
      + intros x. rewrite <- Hset. done.
      + intros _. constructor.
    - destruct (pages_loop_accounts scrapeDoctorInfo schedule c Hc pages [] ∅ (tr ++ evs0))
        as (new & evs & Hrun & _ & _ & Hurl & Hscr & Hnodup).
      symmetry in Hurl.
      exists new, (evs0 ++ evs).
      rewrite scrapes_app, Hquiet, (left_id_L [] (++)). split_and!.
      + eapply scraper_runs_bind; [exact Hrun0|]. by rewrite Hlen.
      + done.
      + intros x. rewrite Hscr, <- Hset. set_solver.
      + done. }
  destruct (DiscovererFacts.scraper_runs_unique _ _ _ _ _ _ Hrun Hrun') as [-> ->].
  exists results', (evs1' ++ evs2'). by split_and!.
Qed.

End ChunkLoopFacts.

(** ** The scraper with its browser *)

Module SessionFacts.
Import DoctorScraper BatchScraper ScraperSpec ScraperFacts.

Lemma session_error_dependable browser :
  session_error browser = None <-> dependable browser.
Proof.
  destruct browser as [[[]|?] [[]|?] [[]|?] [[]|?]]; unfold dependable; cbn;
    split; try done; intros (? & ? & ? & ?); done.
Qed.

Section Oracles.
Variable listing : nat -> page_load.
Variable scrapeDoctorInfo : nat -> string -> completion DoctorInfo.
Variable schedule : nat -> nat -> nat.

(** The scraper with its browser: it ends however the browser behaves; it
    logs what its [try] block logs up to the call that fails. *)
Lemma session_runs browser c maxPages tr :
  0 < c ->
  exists results evs0 evs,
    runs (scrapeMultipleDoctors listing scrapeDoctorInfo schedule c maxPages) tr results evs0
    /\ (forall f,
          Session.scrapeMultipleDoctors browser listing scrapeDoctorInfo schedule c maxPages
            {| file := f; trace := tr |}
          = Some (match session_error browser with
                  | None => Return results
                  | Some e => Throw e
                  end,
                  {| file := f; trace := tr ++ evs |}))
    /\ evs `prefix_of` evs0
    /\ chunked c evs
    /\ (Session.launch browser = Return tt -> Session.newPage browser = Return tt ->
        Session.closePage browser = Return tt -> evs = evs0).
Proof using.
  intros Hc.
  destruct (getDoctorLinksWithPagination_runs listing maxPages tr)
    as (pages & evs1 & Hrun1 & _ & Hev1).
  assert (exists results evs2,
             runs (if length pages =? 0 then ret []
                   else pages_loop scrapeDoctorInfo schedule c pages [] ∅)
                  (tr ++ evs1) results evs2
             /\ chunked c evs2) as (results & evs2 & Hrun2 & Hchunked2).
  { destruct (length pages =? 0).
    - exists [], []. split; [apply scraper_runs_ret|constructor].
    - destruct (pages_loop_runs scrapeDoctorInfo schedule c Hc pages [] ∅ (tr ++ evs1))
        as (results & evs2 & Hrun2 & _ & Hchunked2 & _).
      by exists results, evs2. }
  assert (Hinner : runs (scrapeMultipleDoctors listing scrapeDoctorInfo schedule c maxPages)
                     tr results (evs1 ++ evs2)).
  { unfold scrapeMultipleDoctors. eapply scraper_runs_bind; [exact Hrun1|exact Hrun2]. }
  assert (Hall : chunked c (evs1 ++ evs2)).
  { apply ChunksFacts.chunked_app; [by apply discovery_chunked|done]. }
  pose proof Hrun1 as Hrun1'. pose proof Hrun2 as Hrun2'.
  unfold runs in Hrun1', Hrun2'. unfold ret in Hrun2'.
  destruct browser as [[[]|e1] [[]|e2] [[]|e3] [[]|e4]].
  all: exists results, (evs1 ++ evs2).
  all: unfold Session.scrapeMultipleDoctors, Session.getDoctorLinksWithPagination,
         session_error; cbn [Session.launch Session.newPage Session.closePage
                             Session.close Session.returns negb andb orb].
  all: first
    [ exists (evs1 ++ evs2); split; [exact Hinner|]; split;
      [ intros f; unfold try_finally, try_catch, bind, Session.outcome, ret, throw;
        cbv beta iota; rewrite (Hrun1' f); cbv beta iota; rewrite (Hrun2' f);
        cbv beta iota; by rewrite ?(assoc_L (++))
      | split; [done|]; split; [exact Hall|done] ]
    | exists evs1; split; [exact Hinner|]; split;
      [ intros f; unfold try_finally, try_catch, bind, Session.outcome, ret, throw;
        cbv beta iota; rewrite (Hrun1' f); cbv beta iota; reflexivity
      | split; [by apply prefix_app_r|]; split; [by apply discovery_chunked|done] ]
    | exists []; split; [exact Hinner|]; split;
      [ intros f; unfold try_finally, try_catch, bind, Session.outcome, ret, throw;
        cbv beta iota; by rewrite (right_id_L [] (++))
      | split; [apply prefix_nil|]; split; [constructor|done] ] ].
Qed.

(** The entry point of the extraction stage. *)
Lemma extraction_runs browser tr :
  exists results evs0 evs,
    runs (scrapeMultipleDoctors listing scrapeDoctorInfo schedule
            ScrapeMain.concurrency ScrapeMain.maxPages) tr results evs0
    /\ evs `prefix_of` evs0
    /\ writes evs0 = []
    /\ writes evs = []
    /\ (dependable browser -> evs = evs0)
    /\ (forall f,
          Session.scrapeMultipleDoctors browser listing scrapeDoctorInfo schedule
            ScrapeMain.concurrency ScrapeMain.maxPages {| file := f; trace := tr |}
          = Some (match session_error browser with
                  | None => Return results
                  | Some e => Throw e
                  end,
                  {| file := f; trace := tr ++ evs |}))
    /\ forall f,
         ScrapeMain.main browser listing scrapeDoctorInfo schedule
           {| file := f; trace := tr |}
         = Some (Return (if decide (dependable browser) then Completed else Exited 1),
                 {| file := if decide (dependable browser) then Some results else f;
                    trace := tr ++ evs ++ (if decide (dependable browser)
                                           then [Write results] else []) |}).
Proof using.
  destruct (session_runs browser ScrapeMain.concurrency ScrapeMain.maxPages tr
              ltac:(unfold ScrapeMain.concurrency; lia))
    as (results & evs0 & evs & Hinner & Hrun & Hpre & _ & Hsame).
  destruct (scrapeMultipleDoctors_runs listing scrapeDoctorInfo schedule
              ScrapeMain.concurrency ScrapeMain.maxPages tr
              ltac:(unfold ScrapeMain.concurrency; lia))
    as (results' & evs1 & evs2 & Hrun' & _ & Hev1 & Hev2 & _).
  destruct (DiscovererFacts.scraper_runs_unique _ _ _ _ _ _ Hinner Hrun') as [-> ->].
  assert (Hw0 : writes (evs1 ++ evs2) = []).
  { unfold writes. rewrite omap_app. fold (writes evs1). fold (writes evs2).
    by rewrite (discovery_no_writes _ Hev1), (chunk_no_writes _ _ Hev2). }
  assert (Hw : writes evs = []).
  { destruct Hpre as [more Hmore]. rewrite Hmore in Hw0. unfold writes in Hw0.
    rewrite omap_app in Hw0. by apply app_eq_nil in Hw0 as [? _]. }
  exists results', (evs1 ++ evs2), evs. split_and!; try done.
  - intros (? & ? & ? & _). by apply Hsame.
  - intros f. unfold ScrapeMain.main.
    destruct (decide (dependable browser)) as [Hd|Hd].
    + apply session_error_dependable in Hd as Herr. rewrite Herr in Hrun.
      erewrite try_catch_return; [reflexivity|].
      erewrite bind_return by apply Hrun.
      unfold bind, ScrapeMain.write_results, ret. cbn. by rewrite (assoc_L (++)).
    + destruct (session_error browser) as [e|] eqn:Herr.
      2:{ by apply session_error_dependable in Herr. }
      erewrite try_catch_throw; [|apply bind_throw; apply Hrun].
      unfold ret. by rewrite !(right_id_L [] (++)).
Qed.

End Oracles.
End SessionFacts.

(** ** The report of the extraction stage *)

Module ReportFacts.
Import BatchScraper ScrapeMain.

Lemma byPage_fold results : forall (groups : gmap nat (list DoctorResult)) k,
  foldl (fun groups result =>
           <[page_of result := default [] (groups !! page_of result) ++ [result]]> groups)
        groups results !! k
  = match filter (fun r => page_of r = k) results with
    | [] => groups !! k
    | g => Some (default [] (groups !! k) ++ g)
    end.
Proof.
  induction results as [|r results IH]; intros groups k; [done|].
  cbn [foldl]. rewrite IH. destruct (decide (page_of r = k)) as [Hk|Hk].
  - rewrite filter_cons_True by done. subst k. rewrite lookup_insert_eq. cbn.
    destruct (filter _ results); [done|]. by rewrite <- (assoc_L (++)).
  - rewrite filter_cons_False by done. by rewrite lookup_insert_ne.
Qed.

Lemma page_of_positive r : 1 <= page_of r.
Proof.
  unfold page_of. destruct (pageNumber r) as [[|n]|]; cbn; lia.
Qed.

End ReportFacts.

(** ** More on the scoring stage *)

Module ScoringFacts.
Import Evaluator EvaluatorSpec EvaluatorFacts.

Lemma insert_by_score_sorted r l :
  StronglySorted descending l -> StronglySorted descending (insert_by_score r l).
Proof.
  induction 1 as [|r' l Hl IH Hr']; cbn; [by repeat constructor|].
  destruct (Qle_bool _ _) eqn:Hle.
  - apply Qle_bool_iff in Hle. constructor; [by constructor|].
    constructor; [done|]. eapply Forall_impl; [exact Hr'|].
    unfold descending. intros x Hx. by eapply Qle_trans.
  - constructor; [done|]. rewrite insert_by_score_perm. constructor; [|done].
    unfold descending. apply Qlt_le_weak, Qnot_le_lt. intros Hle'.
    apply Qle_bool_iff in Hle'. congruence.
Qed.

Lemma sort_by_score_sorted l : StronglySorted descending (sort_by_score l).
Proof.
  induction l as [|r l IH]; cbn; [constructor|]. by apply insert_by_score_sorted.
Qed.

Lemma insert_by_score_stable q r l :
  filter (scored_as q) (insert_by_score r l) = filter (scored_as q) (r :: l).
Proof.
  induction l as [|r' l IH]; cbn [insert_by_score]; [done|].
  destruct (Qle_bool _ _) eqn:Hle; [done|].
  assert (Hlt : (score (scored r) < score (scored r'))%Q).
  { apply Qnot_le_lt. intros Hle'. apply Qle_bool_iff in Hle'. congruence. }
  destruct (decide (scored_as q r')) as [Hr'|Hr'].
  - rewrite (filter_cons_True _ r') by done. rewrite IH.
    assert (~ scored_as q r).
    { unfold scored_as in *. apply Qeq_bool_iff in Hr'. intros Hr%Qeq_bool_iff.
      rewrite Hr, Hr' in Hlt. by apply Qlt_irrefl in Hlt. }
    rewrite !(filter_cons_False _ r) by done. by rewrite filter_cons_True.
  - rewrite (filter_cons_False _ r') by done. rewrite IH.
    destruct (decide (scored_as q r)).
    + rewrite !(filter_cons_True _ r) by done. by rewrite filter_cons_False.
    + rewrite !(filter_cons_False _ r) by done. by rewrite filter_cons_False.
Qed.

Lemma sort_by_score_stable q l :
  filter (scored_as q) (sort_by_score l) = filter (scored_as q) l.
Proof.
  induction l as [|r l IH]; [done|]. cbn [sort_by_score foldr].
  fold (sort_by_score l). rewrite insert_by_score_stable.
  destruct (decide (scored_as q r)).
  - rewrite !(filter_cons_True _ r) by done. by rewrite IH.
  - rewrite !(filter_cons_False _ r) by done. exact IH.
Qed.

Lemma make_batches_slices (l : list Profile.t) : forall fuel i acc,
  length l <= fuel + i ->
  exists bs,
    make_batches fuel l i acc = Some (acc ++ bs)
    /\ forall k b, bs !! k = Some b ->
         b = slice (i + k * BATCH_SIZE) (i + k * BATCH_SIZE + BATCH_SIZE) l
         /\ i + k * BATCH_SIZE < length l.
Proof.
  induction fuel as [|fuel IH]; intros i acc Hfuel.
  - exists []. cbn. rewrite (proj2 (Nat.leb_le _ _)) by lia.
    by rewrite (right_id_L [] (++)).
  - cbn [make_batches]. destruct (length l <=? i) eqn:Hi.
    + exists []. by rewrite (right_id_L [] (++)).
    + apply Nat.leb_gt in Hi.
      destruct (IH (i + BATCH_SIZE) (acc ++ [slice i (i + BATCH_SIZE) l])
                   ltac:(unfold BATCH_SIZE; lia))
        as (bs & Hbs & Hlook).
      exists (slice i (i + BATCH_SIZE) l :: bs). split.
      * rewrite Hbs. by rewrite <- (assoc_L (++)).
      * intros [|k] b Hb.
        -- injection Hb as <-. rewrite Nat.add_0_r. done.
        -- destruct (Hlook k b Hb) as [-> Hk].
           replace (i + S k * BATCH_SIZE) with (i + BATCH_SIZE + k * BATCH_SIZE)
             by (unfold BATCH_SIZE; lia).
           done.
Qed.

End ScoringFacts.

Module ResumeFacts.
Import Evaluator EvaluatorSpec EvaluatorFacts.

Lemma filter_none {A} (P : A -> Prop) `{!forall x, Decision (P x)} (l : list A) :
  Forall (fun x => ~ P x) l -> filter P l = [].
Proof.
  induction 1 as [|x l Hx _ IH]; [done|]. by rewrite filter_cons_False.
Qed.

Lemma scored_for_urls ps rs :
  Forall2 scored_for ps rs -> url <$> rs = Profile.url <$> ps.
Proof.
  induction 1 as [|p r ps rs [Hurl _] _ IH]; [done|]. cbn. by rewrite Hurl, IH.
Qed.

Lemma pending_urls results profiles u :
  u ∈ Profile.url <$> pending results profiles
  <-> u ∈ Profile.url <$> profiles /\ u ∉ url <$> results.
Proof.
  unfold pending. split.
  - intros (p & -> & Hp)%list_elem_of_fmap. apply list_elem_of_filter in Hp as [Hnew Hp].
    rewrite elem_of_list_to_set in Hnew. split; [|done].
    apply list_elem_of_fmap. by exists p.
  - intros [(p & -> & Hp)%list_elem_of_fmap Hnew]. apply list_elem_of_fmap.
    exists p. split; [done|].
    apply list_elem_of_filter. by rewrite elem_of_list_to_set.
Qed.

Lemma pending_after results profiles new stored :
  Forall2 scored_for (pending results profiles) new ->
  stored ≡ₚ results ++ new ->
  pending stored profiles = [].
Proof.
  intros Hnew Hstored. unfold pending at 1. apply filter_none, Forall_forall.
  intros p Hp Hfresh. apply Hfresh. rewrite elem_of_list_to_set, Hstored, fmap_app.
  apply elem_of_app. destruct (decide (Profile.url p ∈ url <$> results)); [by left|].
  right. rewrite (scored_for_urls _ _ Hnew). apply pending_urls.
  split; [|done]. apply list_elem_of_fmap. by exists p.
Qed.

Lemma filter_fmap_NoDup {A B} (f : A -> B) (P : A -> Prop)
    `{!forall x, Decision (P x)} (l : list A) :
  NoDup (f <$> l) -> NoDup (f <$> filter P l).
Proof.
  induction l as [|x l IH]; [done|]. cbn [fmap list_fmap]. intros [Hx Hl]%NoDup_cons.
  destruct (decide (P x)).
  - rewrite filter_cons_True by done. cbn. apply NoDup_cons. split; [|by apply IH].
    intros (y & Hy & Hin)%list_elem_of_fmap. apply Hx, list_elem_of_fmap.
    exists y. split; [done|]. by apply list_elem_of_filter in Hin as [_ ?].
  - rewrite filter_cons_False by done. by apply IH.
Qed.

Lemma requested_length ps reqs :
  requested ps reqs ->
  length ps <= length reqs <= S MAX_RETRIES * length ps.
Proof.
  induction 1 as [|p ps n reqs Hn _ IH]; [cbn; lia|].
  rewrite length_app, length_replicate. cbn [length]. unfold MAX_RETRIES in *. lia.
Qed.

Section Service.
Variable zodMessage : json -> string.

(** The attempts of one call up to its first accepted answer. *)
Lemma analyzeTherapist_first_success answers p k s errs :
  forall fuel retryCount tr,
  retryCount <= k -> k <= MAX_RETRIES -> k < fuel + retryCount ->
  (forall j, retryCount <= j < k -> verdict zodMessage (answers j) = Throw (errs j)) ->
  verdict zodMessage (answers k) = Return s ->
  runs (analyzeTherapist zodMessage fuel answers p retryCount) tr
    {| url := Profile.url p; scored := s; error := None |}
    (concat (replicate (k - retryCount) [Request p; Sleep RETRY_DELAY]) ++ [Request p]).
Proof using.
  clear. induction fuel as [|fuel IH]; intros retryCount tr Hle Hmax Hfuel Herrs Hok; [lia|].
  cbn [analyzeTherapist]. destruct (decide (retryCount = k)) as [->|Hne].
  - rewrite Nat.sub_diag. cbn [replicate concat app]. intros f.
    erewrite try_catch_return; [reflexivity|].
    erewrite bind_return; [reflexivity|]. by rewrite scoreTherapist_run, Hok.
  - replace (k - retryCount) with (S (k - S retryCount)) by lia.
    cbn [replicate concat app]. intros f.
    erewrite try_catch_throw;
      [|apply bind_throw; rewrite scoreTherapist_run, (Herrs retryCount) by lia;
        reflexivity].
    rewrite (proj2 (Nat.ltb_lt _ _)) by lia.
    erewrite bind_return by reflexivity.
    rewrite (IH (S retryCount) ((tr ++ [Request p]) ++ [Sleep RETRY_DELAY]));
      [|lia|lia|lia|intros j Hj; apply Herrs; lia|done].
    by rewrite <- !(assoc_L (++)).
Qed.

End Service.
End ResumeFacts.


Module ServerFacts.
Import Server.

Lemma doctorMap_fold u docs : forall m : gmap string DoctorData,
  foldl (fun m doc => <[Doc.url doc := Doc.data doc]> m) m docs !! u
  = match last (filter (fun doc => Doc.url doc = u) docs) with
    | Some doc => Some (Doc.data doc)
    | None => m !! u
    end.
Proof.
  induction docs as [|doc docs IH] using rev_ind; intros m; [done|].
  rewrite foldl_app, filter_app. cbn [foldl].
  destruct (decide (Doc.url doc = u)) as [<-|Hne].
  - rewrite lookup_insert_eq. rewrite (filter_cons_True _ doc) by done.
    by rewrite filter_nil, last_snoc.
  - rewrite lookup_insert_ne by done. rewrite (filter_cons_False _ doc) by done.
    rewrite filter_nil, (right_id_L [] (++)). apply IH.
Qed.

Lemma doctorMap_last u docs :
  doctorMap docs !! u = Doc.data <$> last (filter (fun doc => Doc.url doc = u) docs).
Proof.
  unfold doctorMap. rewrite doctorMap_fold. by destruct (last _).
Qed.

End ServerFacts.

Module DoctorPageFacts.
Import DoctorScraper DoctorPage DoctorPageSpec.

Lemma extend_nil w : extend w [] = w.
Proof. destruct w. unfold extend. cbn. by rewrite (right_id_L [] (++)). Qed.

Lemma extend_extend w evs evs' : extend (extend w evs) evs' = extend w (evs ++ evs').
Proof. unfold extend. cbn. by rewrite (assoc_L (++)). Qed.

Lemma startsWith_https href : startsWith slashes (https ++ href) = false.
Proof. done. Qed.

Section Scraper.
Context {number : Type}.
Variable parseFloat : list N -> number.
Variable site : Site.

Lemma get_name_run w :
  exists v, get_name site w = Some (Return v, w) /\ TextSpec.clean v.
Proof using.
  clear. unfold get_name, try_catch, bind, outcome, ret.
  destruct (nameText site); [eexists; split; [done|apply TextFacts.cleanText_clean]|].
  destruct (h1Text site); eexists; (split; [done|]).
  - apply TextFacts.cleanText_clean.
  - apply (TextFacts.cleanText_clean None).
Qed.

Lemma get_avatar_run w :
  exists v, get_avatar site w = Some (Return v, w)
            /\ forall href, v = Some href -> startsWith slashes href = false.
Proof using.
  clear. unfold get_avatar, try_catch, bind, outcome, ret.
  destruct (avatarHref site) as [[href|]|]; eexists; (split; [done|]); [|done|done].
  intros href'. destruct (startsWith slashes href) eqn:Hs; intros [= <-]; [|done].
  apply startsWith_https.
Qed.

Lemma get_rating_run w : exists v, get_rating parseFloat site w = Some (Return v, w).
Proof using.
  clear. unfold get_rating, try_catch, bind, outcome, ret.
  destruct (dataScore site) as [[[|c s]|]|]; by eexists.
Qed.

Lemma get_reviewCount_run w :
  exists v, get_reviewCount site w = Some (Return v, w)
            /\ forall n, v = Some n -> exists text, reviewText site = Return (Some text).
Proof using.
  clear. unfold get_reviewCount, try_catch, bind, outcome, ret.
  destruct (reviewText site) as [[text|]|]; eexists; (split; [done|]); try done.
  intros n _. by exists text.
Qed.

Lemma open_about_run w :
  exists evs, open_about site w = Some (Return tt, extend w evs) /\ Forall on_page evs.
Proof using.
  clear. unfold open_about, try_catch, bind, outcome, ret, emit.
  destruct (aboutLink site) as [[|]|].
  - destruct (aboutLinkClick site) as [[]|].
    + exists [Click ".about-item > a:nth-child(2)"; Sleep 500]. split.
      * unfold extend. cbn. by rewrite <- (assoc_L (++)).
      * by repeat constructor.
    + exists [Click ".about-item > a:nth-child(2)"]. split; [done|by repeat constructor].
  - exists []. by rewrite extend_nil.
  - exists []. by rewrite extend_nil.
Qed.

Lemma get_aboutText_run w :
  exists v, get_aboutText site w = Some (Return v, w) /\ TextSpec.clean v.
Proof using.
  clear. unfold get_aboutText, try_catch, bind, outcome, ret.
  destruct (rawAbout site); eexists; (split; [done|]).
  - apply TextFacts.cleanText_clean.
  - apply (TextFacts.cleanText_clean None).
Qed.

Lemma get_extendedAbout_run w :
  exists v evs,
    get_extendedAbout site w = Some (Return v, extend w evs)
    /\ Forall on_page evs
    /\ forall text, v = Some text -> TextSpec.clean text /\ moreButton site = Return true.
Proof using.
  clear. unfold get_extendedAbout, try_catch, bind, outcome, ret, emit.
  destruct (moreButton site) as [[|]|]; cbn.
  2,3: exists None, []; by rewrite extend_nil.
  destruct (scrollIntoView site) as [[]|]; cbn.
  2: exists None, []; by rewrite extend_nil.
  set (selector := _ +:+ _).
  destruct (moreButtonClick site) as [[]|]; cbn.
  2: exists None, [Click selector]; split_and!; [done|by repeat constructor|done].
  assert (Hlog : forall v : option (list N),
    Some (Return v, {| trace := (trace w ++ [Click selector]) ++ [Sleep 500];
                       ownBrowser := ownBrowser w; page := page w |})
    = Some (Return v, extend w [Click selector; Sleep 500])).
  { intros v. unfold extend. by rewrite <- (assoc_L (++)). }
  destruct (modal site) as [[]|]; cbn.
  2: exists None, [Click selector; Sleep 500];
     split_and!; [apply Hlog|by repeat constructor|done].
  destruct (rawExtended site) as [raw|]; cbn.
  2: exists None, [Click selector; Sleep 500];
     split_and!; [apply Hlog|by repeat constructor|done].
  exists (Some (cleanText raw)), [Click selector; Sleep 500].
  split_and!; [apply Hlog|by repeat constructor|].
  intros text [= <-]. split; [apply TextFacts.cleanText_clean|done].
Qed.

Lemma fields_run w :
  exists info evs,
    fields parseFloat site w = Some (Return info, extend w evs)
    /\ Forall on_page evs
    /\ tidy site info.
Proof using.
  clear. unfold fields.
  destruct (get_name_run w) as (name & Hname & Hclean).
  destruct (get_avatar_run w) as (avatar & Havatar & Hhref).
  destruct (get_rating_run w) as (rating & Hrating).
  destruct (get_reviewCount_run w) as (reviewCount & Hreview & Hcount).
  destruct (open_about_run w) as (evs1 & Hopen & Hevs1).
  destruct (get_aboutText_run (extend w evs1)) as (aboutText & Habout & Hclean').
  destruct (get_extendedAbout_run (extend w evs1)) as (extended & evs2 & Hext & Hevs2 & Hmore).
  eexists _, (evs1 ++ evs2). split_and!.
  - erewrite bind_return by exact Hname.
    erewrite bind_return by exact Havatar.
    erewrite bind_return by exact Hrating.
    erewrite bind_return by exact Hreview.
    erewrite bind_return by exact Hopen.
    erewrite bind_return by exact Habout.
    erewrite bind_return by exact Hext.
    unfold ret. by rewrite extend_extend.
  - by apply Forall_app.
  - by split_and!.
Qed.

Lemma on_page_on_the_way evs : Forall on_page evs -> Forall on_the_way evs.
Proof using. clear. intros Hevs. eapply Forall_impl; [exact Hevs|]. by intros []. Qed.

Lemma setup_then_run {A} url shared (k : M World A) tr :
  exists evs,
    Forall on_the_way evs
    /\ if setup_ok site shared
       then setup_then site url shared k {| trace := tr; ownBrowser := false; page := false |}
            = k {| trace := tr ++ evs;
                   ownBrowser := launched site shared;
                   page := opened site shared |}
       else exists e,
            setup_then site url shared k {| trace := tr; ownBrowser := false; page := false |}
            = Some (Throw e, {| trace := tr ++ evs;
                                ownBrowser := launched site shared;
                                page := opened site shared |}).
Proof using.
  clear. unfold setup_then, setup_ok, opened, launched, bind, emit, outcome, ret.
  destruct shared; cbn.
  all: destruct (launch site) as [[]|]; cbn.
  all: destruct (newPage site) as [[]|]; cbn.
  all: destruct (setViewport site) as [[]|]; cbn.
  all: destruct (goto site) as [[]|]; cbn.
  all: eexists; (split; [|try eexists; rewrite <- ?(assoc_L (++) tr); reflexivity]).
  all: by repeat constructor.
Qed.

Lemma cleanup_run tr own pg :
  exists c,
    cleanup site {| trace := tr; ownBrowser := own; page := pg |}
    = Some (c, {| trace := tr ++ (if pg then [ClosePage] else [])
                           ++ (if own && (negb pg || returns (closePage site))
                               then [CloseBrowser] else []);
                  ownBrowser := own; page := pg |})
    /\ returns c = (negb pg || returns (closePage site))
                   && (negb own || returns (closeBrowser site)).
Proof using.
  clear. unfold cleanup, bind, emit, outcome, ret.
  destruct pg, own; cbn.
  all: destruct (closePage site) as [[]|]; cbn.
  all: destruct (closeBrowser site) as [[]|]; cbn.
  all: eexists; split; [rewrite <- ?(assoc_L (++) tr), ?(right_id_L [] (++)); reflexivity|done].
Qed.

Lemma scrapeDoctorInfo_run url shared w :
  exists c body,
    scrapeDoctorInfo parseFloat site url shared w
    = Some (c, {| trace := trace w ++ body ++ closing site shared;
                  ownBrowser := launched site shared;
                  page := opened site shared |})
    /\ Forall on_the_way body
    /\ returns c = setup_ok site shared && closing_ok site shared
    /\ (forall info, c = Return info -> tidy site info).
Proof using.
  clear. unfold scrapeDoctorInfo.
  change (bind (if negb shared then _ else _) _) with (setup_then site url shared (fields parseFloat site)).
  change (bind (fun w => if page w then _ else _) _) with (cleanup site).
  unfold bind at 1. cbn [trace].
  destruct (setup_then_run url shared (fields parseFloat site) (trace w)) as (evs & Hevs & Hsetup).
  destruct (cleanup_run (trace w ++ evs) (launched site shared) (opened site shared))
    as (c' & Hcleanup & Hc').
  unfold closing, closing_ok.
  destruct (setup_ok site shared) eqn:Hok.
  - destruct (fields_run {| trace := trace w ++ evs;
                            ownBrowser := launched site shared;
                            page := opened site shared |})
      as (info & evs' & Hfields & Hevs' & Htidy).
    unfold extend in Hfields. cbn [trace ownBrowser page] in Hfields.
    destruct (cleanup_run ((trace w ++ evs) ++ evs') (launched site shared)
                (opened site shared))
      as (c'' & Hcleanup' & Hc'').
    exists (match c'' with Return _ => Return info | Throw e => Throw e end), (evs ++ evs').
    split_and!.
    + unfold try_finally, try_catch. rewrite Hsetup, Hfields, Hcleanup'.
      rewrite <- !(assoc_L (++)). by destruct c''.
    + apply Forall_app. split; [done|by apply on_page_on_the_way].
    + rewrite <- Hc''. by destruct c''.
    + intros info'. destruct c''; [by intros [= <-]|done].
  - destruct Hsetup as [e Hsetup].
    exists (match c' with Return _ => Throw e | Throw e' => Throw e' end), evs.
    split_and!.
    + unfold try_finally, try_catch, throw. rewrite Hsetup, Hcleanup.
      rewrite <- !(assoc_L (++)). by destruct c'.
    + done.
    + by destruct c'.
    + intros info. by destruct c'.
Qed.

End Scraper.
End DoctorPageFacts.

(** ** Operations in flight *)

Module InFlightFacts.

Lemma scraper_no_handover mid :
  omap ScraperSpec.handed mid = [] -> BatchScraper.batches mid = [].
Proof.
  induction mid as [|e mid IH]; [done|]. destruct e; cbn; try done; exact IH.
Qed.

Lemma scraper_handed_total evs :
  sum_list (omap ScraperSpec.handed evs) = length (concat (BatchScraper.batches evs)).
Proof.
  induction evs as [|e evs IH]; [done|]. destruct e; cbn; try done.
  rewrite length_app. by rewrite IH.
Qed.

Lemma scraper_one_chunk_at_a_time limit evs :
  ScraperSpec.chunked limit evs ->
  ScraperSpec.at_most_in_flight limit evs /\ ScraperSpec.chunk_after_chunk limit evs.
Proof.
  intros Hchunked. split; [|split_and!].
  - intros pre post Heq.
    destruct (ChunksFacts.chunked_bound _ _ _ _ _ Hchunked pre post Heq) as [Hlow Hhigh].
    unfold ScraperSpec.in_flight.
    change (BatchScraper.starts pre) with (omap ScraperSpec.created pre).
    change (BatchScraper.settles pre) with (omap ScraperSpec.finished pre). lia.
  - intros pre page chunk post Heq.
    destruct (ChunksFacts.chunked_barrier _ _ _ _ _ Hchunked pre _ (length chunk) post Heq
                eq_refl) as [Hbal Hlen].
    pose proof (ChunksFacts.chunked_before _ _ _ _ _ Hchunked pre _ (length chunk) post Heq
                  eq_refl) as Hpre.
    apply ChunksFacts.chunked_total in Hpre. rewrite scraper_handed_total in Hpre.
    split; [done|]. split; [exact Hpre|]. unfold ScraperSpec.in_flight.
    change (BatchScraper.starts pre) with (omap ScraperSpec.created pre).
    change (BatchScraper.settles pre) with (omap ScraperSpec.finished pre). lia.
  - intros pre i post Heq.
    destruct (ChunksFacts.chunked_owner _ _ _ _ _ Hchunked pre _ i post Heq eq_refl)
      as (pre0 & h & n & mid & -> & Hh & Hmid & Hi & _).
    destruct h; try done. injection Hh as <-.
    eexists pre0, _, _, mid. split; [done|]. split; [by apply scraper_no_handover|done].
  - pose proof (ChunksFacts.chunked_total _ _ _ _ _ Hchunked) as Htotal.
    by rewrite scraper_handed_total in Htotal.
  - pose proof (ChunksFacts.chunked_balanced _ _ _ _ _ Hchunked) as Hbal.
    unfold ScraperSpec.in_flight.
    change (BatchScraper.starts evs) with (omap ScraperSpec.created evs).
    change (BatchScraper.settles evs) with (omap ScraperSpec.finished evs). lia.
Qed.

Lemma scorer_no_handover mid :
  omap EvaluatorSpec.handed mid = [] -> Evaluator.batches mid = [].
Proof.
  induction mid as [|e mid IH]; [done|]. destruct e; cbn; try done; exact IH.
Qed.

Lemma scorer_handed_total evs :
  sum_list (omap EvaluatorSpec.handed evs) = length (concat (Evaluator.batches evs)).
Proof.
  induction evs as [|e evs IH]; [done|]. destruct e; cbn; try done.
  rewrite length_app. by rewrite IH.
Qed.

Lemma scorer_one_batch_at_a_time limit evs :
  EvaluatorSpec.chunked limit evs ->
  EvaluatorSpec.at_most_in_flight limit evs /\ EvaluatorSpec.batch_after_batch limit evs.
Proof.
  intros Hchunked. split; [|split_and!].
  - intros pre post Heq.
    destruct (ChunksFacts.chunked_bound _ _ _ _ _ Hchunked pre post Heq) as [Hlow Hhigh].
    unfold EvaluatorSpec.in_flight.
    change (Evaluator.starts pre) with (omap EvaluatorSpec.created pre).
    change (Evaluator.settles pre) with (omap EvaluatorSpec.finished pre). lia.
  - intros pre batch post Heq.
    destruct (ChunksFacts.chunked_barrier _ _ _ _ _ Hchunked pre _ (length batch) post Heq
                eq_refl) as [Hbal Hlen].
    pose proof (ChunksFacts.chunked_before _ _ _ _ _ Hchunked pre _ (length batch) post Heq
                  eq_refl) as Hpre.
    apply ChunksFacts.chunked_total in Hpre. rewrite scorer_handed_total in Hpre.
    split; [done|]. split; [exact Hpre|]. unfold EvaluatorSpec.in_flight.
    change (Evaluator.starts pre) with (omap EvaluatorSpec.created pre).
    change (Evaluator.settles pre) with (omap EvaluatorSpec.finished pre). lia.
  - intros pre i post Heq.
    destruct (ChunksFacts.chunked_owner _ _ _ _ _ Hchunked pre _ i post Heq eq_refl)
      as (pre0 & h & n & mid & -> & Hh & Hmid & Hi & _).
    destruct h; try done. injection Hh as <-.
    eexists pre0, _, mid. split; [done|]. split; [by apply scorer_no_handover|done].
  - pose proof (ChunksFacts.chunked_total _ _ _ _ _ Hchunked) as Htotal.
    by rewrite scorer_handed_total in Htotal.
  - pose proof (ChunksFacts.chunked_balanced _ _ _ _ _ Hchunked) as Hbal.
    unfold EvaluatorSpec.in_flight.
    change (Evaluator.starts evs) with (omap EvaluatorSpec.created evs).
    change (Evaluator.settles evs) with (omap EvaluatorSpec.finished evs). lia.
Qed.

End InFlightFacts.
(** * The claims *)

Import ScraperSpec EvaluatorSpec ScraperFacts EvaluatorFacts.

(** ** The link discoverer *)

(** C5, on the code: a page that lists one profile twice gives a group that
    holds the address twice, so the emitted identifiers are not free of
    duplicates. *)
Lemma discoverer_keeps_in_page_duplicate :
  exists w,
    BatchScraper.getDoctorLinksWithPagination Sample.twice 1 Sample.fresh
    = Some (Return [{| BatchScraper.PageData.links := ["http://a"; "http://a"];
                       BatchScraper.PageData.pageNumber := 1 |}], w)
    /\ ~ NoDup (all_links [{| BatchScraper.PageData.links := ["http://a"; "http://a"];
                              BatchScraper.PageData.pageNumber := 1 |}]).
Proof.
  eexists. split; [vm_compute; reflexivity|].
  cbn. intros Hnd. apply NoDup_cons in Hnd as [Hnotin _]. apply Hnotin. by left.
Qed.

(** C6: the walk always ends; once a page gives no link, no later page is
    loaded; as long as no page up to [k] gave no link, page [k + 1] is loaded,
    whether or not the pages brought anything new. *)
Theorem discoverer_stops_only_on_empty_page
    (listing : nat -> BatchScraper.page_load) (maxPages : nat) (tr : list BatchScraper.event) :
  exists pages evs,
    ScraperSpec.runs (BatchScraper.getDoctorLinksWithPagination listing maxPages) tr pages evs
    /\ (forall k j, 1 <= k -> exhausted (listing k) -> k < j ->
          j ∉ BatchScraper.gotos evs)
    /\ (forall k, k < maxPages ->
          (forall i, 1 <= i <= k -> ~ exhausted (listing i)) ->
          S k ∈ BatchScraper.gotos evs).
Proof.
  destruct (getDoctorLinksWithPagination_runs listing maxPages tr)
    as (pages & evs & Hrun & Hg & _).
  exists pages, evs. split; [done|]. rewrite Hg. split.
  - intros k j Hk Hstop Hj Hin.
    pose proof (walk_length_stop listing maxPages 1 k Hk Hstop).
    apply elem_of_cons in Hin as [->|Hin]; [lia|].
    apply elem_of_seq in Hin. lia.
  - intros k Hk Hgo. right. apply elem_of_seq.
    pose proof (walk_length_go listing maxPages 1 k Hk) as Hlen.
    specialize (Hlen ltac:(intros i Hi; apply Hgo; lia)). lia.
Qed.

(** Scenario A: page 2 gives no link; page 3 is never loaded. *)
Example scenario_A :
  exists pages w,
    BatchScraper.getDoctorLinksWithPagination Sample.gap 3 Sample.fresh
    = Some (Return pages, w)
    /\ BatchScraper.gotos (BatchScraper.trace w) = [1; 1; 2].
Proof. eexists _, _. split; vm_compute; reflexivity. Qed.

(** A page of known links only is left out of the result, and the walk goes
    on past it and past a page that fails to load. *)
Example walk_goes_on_past_known_links :
  exists w,
    BatchScraper.getDoctorLinksWithPagination Sample.repeats 10 Sample.fresh
    = Some (Return [{| BatchScraper.PageData.links := ["http://a"];
                       BatchScraper.PageData.pageNumber := 1 |};
                    {| BatchScraper.PageData.links := ["http://b"];
                       BatchScraper.PageData.pageNumber := 3 |}], w)
    /\ BatchScraper.gotos (BatchScraper.trace w) = [1; 1; 2; 3; 4; 5].
Proof. eexists. split; vm_compute; reflexivity. Qed.

(** ** The extraction stage *)

(** C2, as stated, fails: a run that finds the record of [http://a] in
    [doctor-results.json] scrapes [http://a] again, and a run of two chunks
    writes the file once. *)
Lemma extraction_rescrapes_and_writes_once :
  exists w,
    ScrapeMain.main Sample.chromium Sample.two_pages Sample.scrape Sample.in_turn
      Sample.resumed
    = Some (Return Completed, w)
    /\ "http://a" ∈ BatchScraper.scrapes (BatchScraper.trace w)
    /\ length (BatchScraper.batches (BatchScraper.trace w)) = 2
    /\ length (BatchScraper.writes (BatchScraper.trace w)) = 1.
Proof.
  eexists. split; [vm_compute; reflexivity|].
  split; [|split; vm_compute; reflexivity].
  vm_compute. by left.
Qed.

(** C2, amended: the extraction stage never looks at an earlier
    [doctor-results.json]: whatever the file holds, the run logs the same
    events and ends the same way.  When [puppeteer.launch],
    [browser.newPage()], [page.close()] and [browser.close()] all go through,
    it writes the file once, as its last step, with the whole result set of
    [scrapeMultipleDoctors], and completes.  When one of them throws, it ends
    with [process.exit(1)], writes nothing and leaves the file as it was. *)
Theorem extraction_persists_once_at_the_end
    (browser : Session.Browser) (listing : nat -> BatchScraper.page_load)
    (scrapeDoctorInfo : nat -> string -> completion DoctorScraper.DoctorInfo)
    (schedule : nat -> nat -> nat) :
  exists results evs,
    (forall persisted,
        ScrapeMain.main browser listing scrapeDoctorInfo schedule
          {| BatchScraper.file := persisted; BatchScraper.trace := [] |}
        = Some (Return (if decide (dependable browser) then Completed else Exited 1),
                {| BatchScraper.file :=
                     if decide (dependable browser) then Some results else persisted;
                   BatchScraper.trace :=
                     evs ++ (if decide (dependable browser)
                             then [BatchScraper.Write results] else []) |}))
    /\ BatchScraper.writes evs = []
    /\ (forall persisted,
          Session.scrapeMultipleDoctors browser listing scrapeDoctorInfo schedule
            ScrapeMain.concurrency ScrapeMain.maxPages
            {| BatchScraper.file := persisted; BatchScraper.trace := [] |}
          = Some (match session_error browser with
                  | None => Return results
                  | Some e => Throw e
                  end,
                  {| BatchScraper.file := persisted; BatchScraper.trace := evs |})).
Proof.
  destruct (SessionFacts.extraction_runs listing scrapeDoctorInfo schedule browser [])
    as (results & evs0 & evs & _ & _ & _ & Hw & _ & Hrun & Hmain).
  exists results, evs. split_and!; [exact Hmain|exact Hw|exact Hrun].
Qed.

(** The browser cannot be launched: nothing is scraped and nothing is
    written; [browser.close()] throws after a full scrape: nothing is
    written either. *)
Example failed_browser_call_loses_the_results :
  (exists w,
      ScrapeMain.main Sample.no_chromium Sample.two_pages Sample.scrape Sample.in_turn
        Sample.fresh
      = Some (Return (Exited 1), w)
      /\ BatchScraper.trace w = [])
  /\ (exists w,
        ScrapeMain.main Sample.stuck_chromium Sample.two_pages Sample.scrape Sample.in_turn
          Sample.fresh
        = Some (Return (Exited 1), w)
        /\ BatchScraper.file w = None
        /\ length (BatchScraper.scrapes (BatchScraper.trace w)) = 2
        /\ BatchScraper.writes (BatchScraper.trace w) = []).
Proof.
  split; eexists; (split; [vm_compute; reflexivity|]); [reflexivity|].
  split_and!; vm_compute; reflexivity.
Qed.

(** ** One outcome per item *)




(** Two cards of one profile in the same chunk: both pass the
    [scrapedUrls.has] test, and the profile is scraped twice. *)
Example same_chunk_duplicate_is_scraped_twice :
  exists results w,
    BatchScraper.scrapeMultipleDoctors Sample.twice Sample.scrape Sample.in_turn 2 1
      Sample.fresh
    = Some (Return results, w)
    /\ BatchScraper.url <$> results = ["http://a"; "http://a"]
    /\ BatchScraper.scrapes (BatchScraper.trace w) = ["http://a"; "http://a"].
Proof. eexists _, _. split; [vm_compute; reflexivity|]. split; vm_compute; reflexivity. Qed.

(** An address that comes back in a later chunk is skipped there, however
    often the chunk holds it: one record per address. *)
Example later_chunk_duplicates_are_skipped :
  exists results w,
    BatchScraper.pages_loop Sample.scrape Sample.in_turn 2
      [{| BatchScraper.PageData.links := ["http://a"; "http://c"; "http://a"; "http://a"];
          BatchScraper.PageData.pageNumber := 1 |}] [] ∅ Sample.fresh
    = Some (Return results, w)
    /\ BatchScraper.url <$> results = ["http://a"; "http://c"].
Proof. eexists _, _. split; vm_compute; reflexivity. Qed.

(** A record without data, as the extraction stage writes it for a profile
    it could not scrape, ends the sequential script: the profiles after it are
    never sent, and the final sorted write does not happen. *)
Example unscraped_record_ends_the_script :
  exists e w,
    Analyze.main Sample.zodMessage true
      [Sample.scraped "http://a"; Sample.unscraped "http://b"; Sample.scraped "http://c"]
      (fun _ => GenJson (Sample.analysis_document 70)) Sample.fresh_analysis
    = Some (Throw e, w)
    /\ AnalyzeSpec.requests (Analyze.trace w) = [Sample.scraped "http://a"]
    /\ length (AnalyzeSpec.writes (Analyze.trace w)) = 1.
Proof. eexists _, _. split; [vm_compute; reflexivity|]. split; vm_compute; reflexivity. Qed.

(** ** Chunks and operations in flight *)

(** C9: for every order in which the callbacks get to run, and however the
    browser behaves, the log of [scrapeMultipleDoctors] with limit [c] never
    has more than [c] promises in flight; a chunk handed to [Promise.all]
    holds at most [c] addresses, and it is handed over only when every promise
    of the chunks before it has been created and has settled; every promise
    created belongs to the chunk handed over last.  The same holds of [main]
    of the scoring stage with [BATCH_SIZE]. *)
Theorem chunks_bound_operations_in_flight
    (browser : Session.Browser) (listing : nat -> BatchScraper.page_load)
    (scrapeDoctorInfo : nat -> string -> completion DoctorScraper.DoctorInfo)
    (schedule : nat -> nat -> nat) (c maxPages : nat)
    (zodMessage : json -> string) (profiles : list Profile.t)
    (remote : nat -> nat -> gen_response) (f : option Evaluator.file_content) :
  0 < c ->
  (exists ended evs,
      (forall persisted,
          Session.scrapeMultipleDoctors browser listing scrapeDoctorInfo schedule c maxPages
            {| BatchScraper.file := persisted; BatchScraper.trace := [] |}
          = Some (ended, {| BatchScraper.file := persisted; BatchScraper.trace := evs |}))
      /\ ScraperSpec.at_most_in_flight c evs
      /\ ScraperSpec.chunk_after_chunk c evs)
  /\ (exists status f' evs,
        Evaluator.main zodMessage schedule true profiles remote
          {| Evaluator.outputFile := f; Evaluator.trace := [] |}
        = Some (Return status, {| Evaluator.outputFile := f'; Evaluator.trace := evs |})
        /\ EvaluatorSpec.at_most_in_flight Evaluator.BATCH_SIZE evs
        /\ EvaluatorSpec.batch_after_batch Evaluator.BATCH_SIZE evs).
Proof.
  intros Hc. split.
  - destruct (SessionFacts.session_runs listing scrapeDoctorInfo schedule browser c maxPages
                [] Hc)
      as (results & evs0 & evs & _ & Hrun & _ & Hchunked & _).
    destruct (InFlightFacts.scraper_one_chunk_at_a_time c evs Hchunked) as [Hbound Hbarrier].
    eexists _, evs. split_and!; [exact Hrun|exact Hbound|exact Hbarrier].
  - destruct (main_runs zodMessage schedule profiles remote f [])
      as (f' & evs & new & ns & Hrun & _ & _ & _ & _ & _ & _ & _ & _ & _ & Hchunked & _).
    destruct (InFlightFacts.scorer_one_batch_at_a_time _ evs Hchunked) as [Hbound Hbarrier].
    eexists _, f', evs. split_and!; [exact Hrun|exact Hbound|exact Hbarrier].
Qed.

Lemma chunks_bound_operations_in_flight_witness :
  (exists ended evs,
      (forall persisted,
          Session.scrapeMultipleDoctors Sample.chromium Sample.repeats Sample.scrape
            Sample.in_turn 2 10
            {| BatchScraper.file := persisted; BatchScraper.trace := [] |}
          = Some (ended, {| BatchScraper.file := persisted; BatchScraper.trace := evs |}))
      /\ ScraperSpec.at_most_in_flight 2 evs
      /\ ScraperSpec.chunk_after_chunk 2 evs)
  /\ (exists status f' evs,
        Evaluator.main Sample.zodMessage Sample.in_turn true [Sample.profile "a"]
          Sample.obliging
          {| Evaluator.outputFile := None; Evaluator.trace := [] |}
        = Some (Return status, {| Evaluator.outputFile := f'; Evaluator.trace := evs |})
        /\ EvaluatorSpec.at_most_in_flight Evaluator.BATCH_SIZE evs
        /\ EvaluatorSpec.batch_after_batch Evaluator.BATCH_SIZE evs).
Proof.
  apply (chunks_bound_operations_in_flight Sample.chromium Sample.repeats Sample.scrape
           Sample.in_turn 2 10 Sample.zodMessage [Sample.profile "a"] Sample.obliging None).
  lia.
Defined.

(** The callbacks of a batch run interleaved: the first profile is sent,
    then the second, then the first again, and both promises are in flight in
    between. *)
Example batch_requests_interleave :
  exists rs w,
    Evaluator.processBatch Sample.zodMessage Sample.in_turn Sample.first_balks
      [Sample.profile "a"; Sample.profile "b"] Sample.fresh_scoring
    = Some (Return rs, w)
    /\ Evaluator.requests (Evaluator.trace w)
       = [Sample.profile "a"; Sample.profile "b"; Sample.profile "a"]
    /\ Evaluator.url <$> rs = ["a"; "b"]
    /\ EvaluatorSpec.in_flight (take 3 (Evaluator.trace w)) = 2.
Proof. eexists _, _. split; [vm_compute; reflexivity|]. split_and!; vm_compute; reflexivity. Qed.

(** ** The scoring stage *)

(** C1: [main] sends to the service the profiles whose url is not among the
    urls of the loaded results, each between one and [MAX_RETRIES + 1] times,
    and no other profile; the order of the requests is that of the pending
    profiles up to the order in which the callbacks of a batch get to run.
    The file it leaves holds the loaded results and exactly one new record
    per such profile. *)
Theorem main_resumes_from_checkpoint
    (zodMessage : json -> string) (schedule : nat -> nat -> nat)
    (profiles : list Profile.t)
    (remote : nat -> nat -> gen_response) (f : option Evaluator.file_content) :
  exists status f' evs new reqs,
    Evaluator.main zodMessage schedule true profiles remote
      {| Evaluator.outputFile := f; Evaluator.trace := [] |}
    = Some (Return status, {| Evaluator.outputFile := f'; Evaluator.trace := evs |})
    /\ requested (Evaluator.pending (loaded f) profiles) reqs
    /\ Evaluator.requests evs ≡ₚ reqs
    /\ (forall p, p ∈ Evaluator.requests evs <->
                  p ∈ profiles /\ Profile.url p ∉ Evaluator.url <$> loaded f)
    /\ Forall2 scored_for (Evaluator.pending (loaded f) profiles) new
    /\ loaded f' ≡ₚ loaded f ++ new.
Proof.
  destruct (main_runs zodMessage schedule profiles remote f [])
    as (f' & evs & new & ns & Hrun & Hf' & Hnew & Hacc & Hreq & _).
  pose proof (accounted_from_requested _ _ _ _ _ _ Hacc) as Hreqs.
  eexists _, f', evs, new, _. split_and!; [exact Hrun|exact Hreqs|exact Hreq| |done|].
  - intros p. rewrite Hreq, (requested_elem _ _ _ Hreqs). unfold Evaluator.pending.
    rewrite list_elem_of_filter, elem_of_list_to_set. tauto.
  - rewrite Hf'. destruct (Evaluator.pending (loaded f) profiles).
    + apply Forall2_nil_inv_l in Hnew. subst new. by rewrite (right_id_L [] (++)).
    + cbn. apply sort_by_score_perm.
Qed.

(** Scenario B: the file holds the result for [a]; given [a] and [b], only
    [b] is sent, and the file ends with two entries. *)
Example scenario_B :
  exists w,
    Evaluator.main Sample.zodMessage Sample.in_turn true
      [Sample.profile "a"; Sample.profile "b"]
      Sample.obliging Sample.checkpointed
    = Some (Return Completed, w)
    /\ Evaluator.requests (Evaluator.trace w) = [Sample.profile "b"]
    /\ Evaluator.url <$> loaded (Evaluator.outputFile w) = ["b"; "a"].
Proof. eexists. split; [vm_compute; reflexivity|]. split; vm_compute; reflexivity. Qed.

(** C3, as stated, fails in its last part.  With a service that fails every
    time, the call sends four requests and returns the record below: the url,
    the score 0, the summary, two empty lists of flags, the confidence and the
    error text.  These are all the fields of the record, and none of them
    holds the number of attempts. *)
Lemma failure_outcome_carries_no_attempt_count :
  exists w,
    Evaluator.analyzeTherapist Sample.zodMessage (S Evaluator.MAX_RETRIES) Sample.silent
      (Sample.profile "a") 0 Sample.fresh_scoring
    = Some (Return
              {| Evaluator.url := "a";
                 Evaluator.scored :=
                   {| Evaluator.score := 0;
                      Evaluator.reasoning :=
                        {| Evaluator.summary := "ANALYSIS FAILED: Empty response from Gemini";
                           Evaluator.greenFlagsFound := [];
                           Evaluator.redFlagsFound := [];
                           Evaluator.missingElements := None;
                           Evaluator.unexpectedPositives := None |};
                      Evaluator.confidence := low |};
                 Evaluator.error := Some "Empty response from Gemini" |}, w)
    /\ length (Evaluator.requests (Evaluator.trace w)) = 4.
Proof. eexists. split; vm_compute; reflexivity. Qed.

(** C3, amended: when every attempt fails, [analyzeTherapist] sends exactly
    [MAX_RETRIES + 1] requests for the profile and returns, without throwing,
    the record made of the profile's url, the score 0, the summary
    "ANALYSIS FAILED: " followed by the message of the error of the last
    attempt, no flags, the confidence [low], and that message as [error]. *)
Theorem analyzeTherapist_exhausts_retries
    (zodMessage : json -> string) (answers : nat -> gen_response)
    (errs : nat -> thrown) (p : Profile.t) (tr : list Evaluator.event) :
  (forall k, verdict zodMessage (answers k) = Throw (errs k)) ->
  exists message evs,
    says (errs Evaluator.MAX_RETRIES) message
    /\ EvaluatorSpec.runs
         (Evaluator.analyzeTherapist zodMessage (S Evaluator.MAX_RETRIES) answers p 0)
         tr
         {| Evaluator.url := Profile.url p;
            Evaluator.scored :=
              {| Evaluator.score := 0;
                 Evaluator.reasoning :=
                   {| Evaluator.summary := "ANALYSIS FAILED: " +:+ message;
                      Evaluator.greenFlagsFound := [];
                      Evaluator.redFlagsFound := [];
                      Evaluator.missingElements := None;
                      Evaluator.unexpectedPositives := None |};
                 Evaluator.confidence := low |};
            Evaluator.error := Some message |}
         evs
    /\ Evaluator.requests evs = replicate (Evaluator.MAX_RETRIES + 1) p.
Proof.
  intros Hfail.
  destruct (analyzeTherapist_from zodMessage answers p (S Evaluator.MAX_RETRIES) 0 tr
              ltac:(lia) ltac:(lia))
    as (r & n & evs & Hrun & Hreq & _ & Hn1 & Hn2 & _ & Hlast).
  cbn [Nat.add] in Hlast. rewrite Hfail in Hlast. destruct Hlast as [Hn ->].
  exists (Evaluator.error_text (errs (n - 1))), evs.
  assert (n = S Evaluator.MAX_RETRIES) as -> by lia.
  split_and!.
  - apply says_error_text.
  - exact Hrun.
  - by rewrite Hreq.
Qed.

Lemma analyzeTherapist_exhausts_retries_witness :
  exists message evs,
    says (JsError "Empty response from Gemini") message
    /\ EvaluatorSpec.runs
         (Evaluator.analyzeTherapist Sample.zodMessage (S Evaluator.MAX_RETRIES)
            Sample.silent (Sample.profile "a") 0)
         []
         {| Evaluator.url := Profile.url (Sample.profile "a");
            Evaluator.scored :=
              {| Evaluator.score := 0;
                 Evaluator.reasoning :=
                   {| Evaluator.summary := "ANALYSIS FAILED: " +:+ message;
                      Evaluator.greenFlagsFound := [];
                      Evaluator.redFlagsFound := [];
                      Evaluator.missingElements := None;
                      Evaluator.unexpectedPositives := None |};
                 Evaluator.confidence := low |};
            Evaluator.error := Some message |}
         evs
    /\ Evaluator.requests evs = replicate (Evaluator.MAX_RETRIES + 1) (Sample.profile "a").
Proof.
  apply (analyzeTherapist_exhausts_retries Sample.zodMessage Sample.silent
           (fun _ => JsError "Empty response from Gemini") (Sample.profile "a") []).
  intros k. reflexivity.
Defined.

(** Scenario C: two failures, then an answer: three requests, a success. *)
Example scenario_C :
  exists r w,
    Evaluator.analyzeTherapist Sample.zodMessage (S Evaluator.MAX_RETRIES)
      Sample.third_time (Sample.profile "a") 0 Sample.fresh_scoring
    = Some (Return r, w)
    /\ Evaluator.error r = None
    /\ Evaluator.score (Evaluator.scored r) = 80%Q
    /\ length (Evaluator.requests (Evaluator.trace w)) = 3.
Proof. eexists _, _. split; [vm_compute; reflexivity|]. by vm_compute. Qed.

(** C4: when the output file does not parse, [main] warns once, starts from
    no results, sends every input profile to the service (each between one
    and [MAX_RETRIES + 1] times, in the order of the input up to the order in
    which the callbacks of a batch get to run) and ends normally: with the
    exit status 0 when there is no profile at all, and otherwise with the file
    rewritten from the new records alone. *)
Theorem corrupt_checkpoint_is_discarded
    (zodMessage : json -> string) (schedule : nat -> nat -> nat)
    (text : string) (profiles : list Profile.t)
    (remote : nat -> nat -> gen_response) :
  exists status f' evs new reqs,
    Evaluator.main zodMessage schedule true profiles remote
      {| Evaluator.outputFile := Some (Evaluator.Unparseable text);
         Evaluator.trace := [] |}
    = Some (Return status, {| Evaluator.outputFile := f'; Evaluator.trace := evs |})
    /\ Evaluator.warnings evs = ["File output corrotto, ricomincio."]
    /\ requested profiles reqs
    /\ Evaluator.requests evs ≡ₚ reqs
    /\ Forall2 scored_for profiles new
    /\ status = match profiles with [] => Exited 0 | _ :: _ => Completed end
    /\ f' = match profiles with
            | [] => Some (Evaluator.Unparseable text)
            | _ :: _ => Some (Evaluator.Stored (Evaluator.sort_by_score new))
            end.
Proof.
  destruct (main_runs zodMessage schedule profiles remote
              (Some (Evaluator.Unparseable text)) [])
    as (f' & evs & new & ns & Hrun & Hf' & Hnew & Hacc & Hreq & _ & _ & Hwarn & _).
  cbn [loaded] in *. rewrite pending_nil in *.
  pose proof (accounted_from_requested _ _ _ _ _ _ Hacc) as Hreqs.
  eexists _, f', evs, new, _. split; [exact Hrun|]. by split_and!.
Qed.

(** Scenario D. *)
Example scenario_D :
  exists w,
    Evaluator.main Sample.zodMessage Sample.in_turn true
      [Sample.profile "a"; Sample.profile "b"]
      Sample.obliging Sample.corrupted
    = Some (Return Completed, w)
    /\ Evaluator.requests (Evaluator.trace w) = [Sample.profile "a"; Sample.profile "b"]
    /\ Evaluator.url <$> loaded (Evaluator.outputFile w) = ["a"; "b"].
Proof. eexists. split; [vm_compute; reflexivity|]. split; vm_compute; reflexivity. Qed.

(** C7, as stated, fails on the sequential analysis script: an answer whose
    score is 150 is rejected by [AnalysisSchema], the [catch] block only logs,
    and the profile is missing from the output file. *)
Lemma rejected_analysis_is_a_missing_record :
  exists w,
    Analyze.main Sample.zodMessage true [Sample.scraped "http://a"]
      (fun _ => GenJson (Sample.analysis_document 150)) Sample.fresh_analysis
    = Some (Return tt, w)
    /\ AnalyzeSpec.requests (Analyze.trace w) = [Sample.scraped "http://a"]
    /\ AnalyzeSpec.writes (Analyze.trace w) = [[]]
    /\ Analyze.outputFile w = Some [].
Proof. eexists. split; [vm_compute; reflexivity|]. split_and!; vm_compute; reflexivity. Qed.

(** C7, amended.  Every record [main] of the scoring stage adds to the
    loaded results has a score between 0 and 100 and is the record of its
    profile's analysis: made of an accepted answer, with no error; or, when
    the attempts [0 .. MAX_RETRIES] all failed, the failure record with score
    0, the summary "ANALYSIS FAILED: " followed by the message of the error of
    the last attempt, hence not empty, and that message as [error].  No
    pending profile is left without a record.  The sequential analysis script
    writes entries with a score between 0 and 100 only, and leaves out every
    profile whose evaluation fails. *)
Theorem emitted_scores_are_bounded
    (zodMessage : json -> string) (schedule : nat -> nat -> nat)
    (profiles : list Profile.t) (remote : nat -> nat -> gen_response)
    (f : option Evaluator.file_content)
    (answer : nat -> gen_response) (records : list Analyze.Input.t)
    (g : option (list Analyze.Entry)) (tr : list Analyze.event) :
  (exists status f' evs new counts,
      Evaluator.main zodMessage schedule true profiles remote
        {| Evaluator.outputFile := f; Evaluator.trace := [] |}
      = Some (Return status, {| Evaluator.outputFile := f'; Evaluator.trace := evs |})
      /\ loaded f' ≡ₚ loaded f ++ new
      /\ accounted_from zodMessage remote 0 (Evaluator.pending (loaded f) profiles)
           counts new
      /\ Forall (fun r =>
                   (0 <= Evaluator.score (Evaluator.scored r) <= 100)%Q
                   /\ forall message, Evaluator.error r = Some message ->
                        Evaluator.score (Evaluator.scored r) = 0%Q
                        /\ Evaluator.summary (Evaluator.reasoning (Evaluator.scored r))
                           = "ANALYSIS FAILED: " +:+ message
                        /\ Evaluator.summary (Evaluator.reasoning (Evaluator.scored r))
                           <> "") new)
  /\ (exists ended g' evs,
        Analyze.main zodMessage true records answer
          {| Analyze.outputFile := g; Analyze.trace := tr |}
        = Some (ended, {| Analyze.outputFile := g'; Analyze.trace := tr ++ evs |})
        /\ Forall (Forall (fun entry =>
                             (0 <= Analyze.score (Analyze.analysis entry) <= 100)%Q))
                  (AnalyzeSpec.writes evs)
        /\ match ended with
           | Return _ =>
               g' = Some (Analyze.sort_by_score (AnalyzeSpec.collected answer records 0))
           | Throw _ => ~ AnalyzeSpec.complete records
           end).
Proof.
  split.
  - destruct (main_runs zodMessage schedule profiles remote f [])
      as (f' & evs & new & ns & Hrun & Hf' & Hnew & Hacc & _).
    eexists _, f', evs, new, ns. split_and!; [exact Hrun| |exact Hacc|].
    + rewrite Hf'. destruct (Evaluator.pending (loaded f) profiles).
      * apply Forall2_nil_inv_l in Hnew. subst new. by rewrite (right_id_L [] (++)).
      * cbn. apply sort_by_score_perm.
    + clear -Hnew. induction Hnew as [|p r ps rs [_ [Hrange Herr]] _ IH]; [done|].
      constructor; [|done]. split; [done|]. intros message Hm.
      destruct (Herr message Hm) as [H0 Hs]. split_and!; [done|done|]. by rewrite Hs.
  - destruct (AnalyzeFacts.main_run zodMessage answer records g tr)
      as (g' & evs & Hrun & _ & Hw & _ & Hg').
    eexists _, g', evs. split; [exact Hrun|]. split.
    + rewrite Hw. apply Forall_app. split.
      * apply Forall_fmap, Forall_forall. intros k _. cbn.
        apply Forall_take, AnalyzeFacts.collected_range.
      * destruct (decide (AnalyzeSpec.complete records)); [|done].
        constructor; [|done]. rewrite AnalyzeFacts.sort_entries_perm.
        apply AnalyzeFacts.collected_range.
    + destruct (decide (AnalyzeSpec.complete records)); [|done].
      rewrite Hg', Hw. by rewrite last_snoc.
Qed.

(** A profile whose evaluation fails four times gets the failure record in
    the output file of the scoring stage. *)
Example failed_evaluation_is_recorded :
  exists w,
    Evaluator.main Sample.zodMessage Sample.in_turn true [Sample.profile "a"]
      (fun _ => Sample.silent) Sample.fresh_scoring
    = Some (Return Completed, w)
    /\ Evaluator.outputFile w
       = Some (Evaluator.Stored
                 [failure_record "a" "Empty response from Gemini"]).
Proof. eexists. split; vm_compute; reflexivity. Qed.

(** ** The merge endpoint *)

(** C10: in every merged row, [rating] is null exactly when the extraction
    record for the row's url is missing, has no rating, or has the rating 0;
    likewise for [reviewCount]; [avatar] is null exactly when the record is
    missing, has no avatar, or has the empty string.  A record whose three
    values are all falsy gives the row a missing record gives. *)
Theorem merged_fields_are_null_when_falsy
    (analysisData : list Server.Therapist) (doctorData : list Server.Doc.t)
    (merged : Server.Merged.t) :
  merged ∈ Server.mergedData analysisData doctorData ->
  let found := Server.doctorMap doctorData
                 !! Server.url (Server.Merged.therapist merged) in
  Server.Merged.therapist merged ∈ analysisData
  /\ (Server.Merged.rating merged = None <->
      forall q, found ≫= Server.rating = Some q -> (q == 0)%Q)
  /\ (Server.Merged.reviewCount merged = None <->
      forall q, found ≫= Server.reviewCount = Some q -> (q == 0)%Q)
  /\ (Server.Merged.avatar merged = None <->
      forall s, found ≫= Server.avatar = Some s -> s = "")
  /\ ((forall q, found ≫= Server.rating = Some q -> (q == 0)%Q) ->
      (forall q, found ≫= Server.reviewCount = Some q -> (q == 0)%Q) ->
      (forall s, found ≫= Server.avatar = Some s -> s = "") ->
      merged = Server.merge ∅ (Server.Merged.therapist merged)).
Proof.
  unfold Server.mergedData. intros Hin.
  apply list_elem_of_fmap in Hin as (t & -> & Ht). cbn.
  set (found := Server.doctorMap doctorData !! Server.url t).
  assert (Hnum : forall v : option Q,
             Server.num_or_null v = None <-> forall q, v = Some q -> (q == 0)%Q).
  { intros [q|]; cbn; [|done]. unfold truthy_num.
    destruct (Qeq_bool q 0) eqn:Hq; cbn.
    - apply Qeq_bool_iff in Hq. split; [|done]. by intros _ q' [= <-].
    - split; [done|]. intros Hz. specialize (Hz q eq_refl).
      apply Qeq_bool_iff in Hz. congruence. }
  assert (Hstr : forall v : option string,
             Server.str_or_null v = None <-> forall s, v = Some s -> s = "").
  { intros [[|a s]|]; cbn; [|split; [done|]|done].
    - split; [|done]. by intros _ s' [= <-].
    - intros Hs. by specialize (Hs _ eq_refl). }
  split_and!; [done|apply Hnum|apply Hnum|apply Hstr|].
  intros Hr Hc Ha. unfold Server.merge. fold found. rewrite lookup_empty. cbn.
  by rewrite (proj2 (Hnum _) Hr), (proj2 (Hnum _) Hc), (proj2 (Hstr _) Ha).
Qed.

Lemma merged_fields_are_null_when_falsy_witness :
  let merged := {| Server.Merged.therapist := Sample.row;
                   Server.Merged.rating := None;
                   Server.Merged.reviewCount := None;
                   Server.Merged.avatar := None |} in
  let found := Server.doctorMap [Sample.unrated]
                 !! Server.url (Server.Merged.therapist merged) in
  Server.Merged.therapist merged ∈ [Sample.row]
  /\ (Server.Merged.rating merged = None <->
      forall q, found ≫= Server.rating = Some q -> (q == 0)%Q)
  /\ (Server.Merged.reviewCount merged = None <->
      forall q, found ≫= Server.reviewCount = Some q -> (q == 0)%Q)
  /\ (Server.Merged.avatar merged = None <->
      forall s, found ≫= Server.avatar = Some s -> s = "")
  /\ ((forall q, found ≫= Server.rating = Some q -> (q == 0)%Q) ->
      (forall q, found ≫= Server.reviewCount = Some q -> (q == 0)%Q) ->
      (forall s, found ≫= Server.avatar = Some s -> s = "") ->
      merged = Server.merge ∅ (Server.Merged.therapist merged)).
Proof.
  apply (merged_fields_are_null_when_falsy [Sample.row] [Sample.unrated]).
  vm_compute. left.
Defined.

(** A rating of 0, a review count of 0 and an empty avatar are served as
    null, as if [doctor-results.json] had no record for the url. *)
Example zero_rating_is_served_as_null :
  Server.mergedData [Sample.row] [Sample.unrated] = Server.mergedData [Sample.row] [].
Proof. vm_compute. reflexivity. Qed.

(** * Further properties of the code *)

(** ** doctor-scraper.ts *)

(** X1: whatever it is given, [cleanText] returns a text that does not
    start with white space and in which every white-space unit is a single
    U+0020 followed by a unit that is not white space (so it does not end
    with white space, and holds no tab, line break or run of blanks); it
    leaves a text as it is exactly when the text is already in that form, so
    cleaning twice is cleaning once. *)
Theorem cleanText_normal_form (s : list N) (text : option (list N)) :
  TextSpec.clean (DoctorScraper.cleanText text)
  /\ (DoctorScraper.cleanText (Some s) = s <-> TextSpec.clean s)
  /\ DoctorScraper.cleanText (Some (DoctorScraper.cleanText text))
     = DoctorScraper.cleanText text.
Proof.
  split_and!.
  - apply TextFacts.cleanText_clean.
  - split.
    + intros <-. apply TextFacts.cleanText_clean.
    + apply TextFacts.cleanText_fixed.
  - apply TextFacts.cleanText_fixed, TextFacts.cleanText_clean.
Qed.

(** X2: [cleanText] removes and inserts white space only: the units that
    are not white space come out as they went in, in the same order; a text
    of white space only, like a missing text, gives the empty text. *)
Theorem cleanText_keeps_other_units (text : option (list N)) :
  filter (fun c => DoctorScraper.is_space c = false) (DoctorScraper.cleanText text)
  = filter (fun c => DoctorScraper.is_space c = false) (default [] text)
  /\ (Forall (fun c => DoctorScraper.is_space c = true) (default [] text) ->
      DoctorScraper.cleanText text = []).
Proof.
  assert (Hkeep :
    filter (fun c => DoctorScraper.is_space c = false) (DoctorScraper.cleanText text)
    = filter (fun c => DoctorScraper.is_space c = false) (default [] text)).
  { destruct text as [[|c s]|]; try done.
    change (filter (fun c => DoctorScraper.is_space c = false)
              (DoctorScraper.trim (DoctorScraper.collapse false (c :: s)))
            = filter (fun c => DoctorScraper.is_space c = false) (c :: s)).
    rewrite TextFacts.trim_keeps. apply TextFacts.collapse_keeps. }
  split; [done|]. intros Hall.
  rewrite (TextFacts.filter_spaces_nil _ Hall) in Hkeep.
  pose proof (TextFacts.cleanText_clean text) as [Hhead _].
  destruct (DoctorScraper.cleanText text) as [|c r]; [done|].
  rewrite filter_cons_True in Hkeep by (by apply Hhead). done.
Qed.

(** X3: the review count is missing exactly when the text of the rating
    element holds no digit; when the first digits of the text are the decimal
    numeral of [n] (below 2^53, where [parseInt] is exact), the count is [n]. *)
Theorem reviewCount_reads_first_number
    (reviewText : option (list N)) (prefix suffix : list N) (n : N) :
  Forall (fun c => DoctorScraper.is_digit c = false) prefix ->
  (forall c, head suffix = Some c -> DoctorScraper.is_digit c = false) ->
  (n < 2 ^ 53)%N ->
  DoctorScraper.parse_reviewCount (Some (prefix ++ TextSpec.decimal n ++ suffix)) = Some n
  /\ (DoctorScraper.parse_reviewCount reviewText = None <->
      Forall (fun c => DoctorScraper.is_digit c = false) (default [] reviewText)).
Proof.
  intros Hprefix Hsuffix _. split.
  - unfold DoctorScraper.parse_reviewCount. cbn [from_option id].
    rewrite TextFacts.first_digits_run;
      [|done|apply TextFacts.decimal_nonempty|apply TextFacts.units_digits|done].
    cbn. by rewrite TextFacts.parseInt_decimal.
  - unfold DoctorScraper.parse_reviewCount.
    rewrite fmap_None. apply TextFacts.first_digits_none.
Qed.

Lemma reviewCount_reads_first_number_witness :
  DoctorScraper.parse_reviewCount
    (Some ([40]%N ++ TextSpec.decimal 128 ++ [32; 114; 101; 99; 46; 32; 50; 41]%N))
  = Some 128%N
  /\ (DoctorScraper.parse_reviewCount None = None <->
      Forall (fun c => DoctorScraper.is_digit c = false) (default [] None)).
Proof.
  apply (reviewCount_reads_first_number None [40%N]
           [32; 114; 101; 99; 46; 32; 50; 41]%N 128%N).
  - by repeat constructor.
  - by intros c [= <-].
  - reflexivity.
Defined.

(** A name with blanks around it and a line break inside. *)
Example cleanText_name :
  DoctorScraper.cleanText (Some Sample.padded_name) = Sample.clean_name.
Proof. reflexivity. Qed.

(** ** The batch scraper *)

(** X4: in the discoverer's result the page numbers go up from group to
    group, and an address emitted for one page is not emitted for any later
    page. *)
Theorem discoverer_groups_are_apart
    (listing : nat -> BatchScraper.page_load) (maxPages : nat)
    (tr : list BatchScraper.event) :
  exists pages evs,
    ScraperSpec.runs (BatchScraper.getDoctorLinksWithPagination listing maxPages)
      tr pages evs
    /\ pairwise apart pages.
Proof.
  destruct (DiscovererFacts.discoverer_groups listing maxPages tr) as (pages & evs & Hrun & Hap & _).
  by exists pages, evs.
Qed.

(** X5: the addresses the discoverer emits are, as a set, the usable links
    of the pages its loop loaded: the pages from 1 up to the page where the
    walk stopped. *)
Theorem discoverer_emits_the_loaded_links
    (listing : nat -> BatchScraper.page_load) (maxPages : nat)
    (tr : list BatchScraper.event) :
  exists pages evs,
    ScraperSpec.runs (BatchScraper.getDoctorLinksWithPagination listing maxPages)
      tr pages evs
    /\ BatchScraper.gotos evs = 1 :: seq 1 (walk_length listing maxPages 1)
    /\ (forall x, x ∈ all_links pages <->
                  exists n, 1 <= n <= walk_length listing maxPages 1
                            /\ x ∈ raw_links listing n).
Proof.
  destruct (DiscovererFacts.discoverer_groups listing maxPages tr) as (pages & evs & Hrun & _ & _ & Hset).
  destruct (getDoctorLinksWithPagination_runs listing maxPages tr)
    as (pages' & evs' & Hrun' & Hg & _).
  destruct (DiscovererFacts.scraper_runs_unique _ _ _ _ _ _ Hrun Hrun') as [<- <-].
  by exists pages, evs.
Qed.

(** X6: every group the discoverer emits is not empty, carries a page
    number between 1 and [maxPages], and holds links of that very page, in
    the order of the page, each of them an http address. *)
Theorem discoverer_groups_are_well_formed
    (listing : nat -> BatchScraper.page_load) (maxPages : nat)
    (tr : list BatchScraper.event) :
  exists pages evs,
    ScraperSpec.runs (BatchScraper.getDoctorLinksWithPagination listing maxPages)
      tr pages evs
    /\ Forall (fun g => BatchScraper.PageData.pageNumber g <= maxPages
                        /\ well_formed_group listing g) pages.
Proof.
  destruct (DiscovererFacts.discoverer_groups listing maxPages tr) as (pages & evs & Hrun & _ & Hsh & _).
  by exists pages, evs.
Qed.

(** X7: with the concurrency limit 0 the loop over a page that has links
    never ends: [i += concurrency] leaves [i] where it is, so for every
    amount of fuel the run is still going, handing empty chunks to
    [Promise.all] and waiting between them. *)
Theorem concurrency_zero_never_finishes
    (scrapeDoctorInfo : nat -> string -> completion DoctorScraper.DoctorInfo)
    (schedule : nat -> nat -> nat)
    (page : nat) (links : list string) (rest : list BatchScraper.PageData.t)
    (results : list BatchScraper.DoctorResult) (scraped : gset string)
    (w : BatchScraper.World) :
  links <> [] ->
  (forall fuel,
      BatchScraper.batch_loop scrapeDoctorInfo schedule fuel 0 page links 0 results scraped w
      = None)
  /\ BatchScraper.pages_loop scrapeDoctorInfo schedule 0
       ({| BatchScraper.PageData.links := links;
           BatchScraper.PageData.pageNumber := page |} :: rest) results scraped w
     = None.
Proof.
  intros Hlinks.
  assert (Hlen : 0 < length links) by (destruct links; [done|cbn; lia]).
  split.
  - intros fuel. by apply ChunkLoopFacts.batch_loop_stuck.
  - cbn [BatchScraper.pages_loop BatchScraper.PageData.links
           BatchScraper.PageData.pageNumber].
    unfold bind. by rewrite ChunkLoopFacts.batch_loop_stuck.
Qed.

Lemma concurrency_zero_never_finishes_witness :
  (forall fuel,
      BatchScraper.batch_loop Sample.scrape Sample.in_turn fuel 0 1 ["http://a"] 0 [] ∅
        Sample.fresh
      = None)
  /\ BatchScraper.pages_loop Sample.scrape Sample.in_turn 0
       ({| BatchScraper.PageData.links := ["http://a"];
           BatchScraper.PageData.pageNumber := 1 |} :: []) [] ∅ Sample.fresh
     = None.
Proof.
  apply (concurrency_zero_never_finishes Sample.scrape Sample.in_turn 1 ["http://a"] [] []
           ∅ Sample.fresh).
  discriminate.
Defined.

(** X8: for a limit of at least 1, [scrapeMultipleDoctors] ends however
    the browser behaves and in whatever order the callbacks get to run.  It
    is rejected exactly when [puppeteer.launch], [browser.newPage()],
    [page.close()] or [browser.close()] throws.  What it scrapes are usable
    links of the pages the discoverer loaded.  When it returns, it returns one
    record for every call of the detail scraper, with the address of the call,
    and the addresses of the records are, as a set, the usable links of the
    loaded pages. *)
Theorem scraper_returns_one_record_per_scrape
    (browser : Session.Browser) (listing : nat -> BatchScraper.page_load)
    (scrapeDoctorInfo : nat -> string -> completion DoctorScraper.DoctorInfo)
    (schedule : nat -> nat -> nat)
    (c maxPages : nat) (tr : list BatchScraper.event) :
  0 < c ->
  exists ended evs,
    (forall f,
        Session.scrapeMultipleDoctors browser listing scrapeDoctorInfo schedule c maxPages
          {| BatchScraper.file := f; BatchScraper.trace := tr |}
        = Some (ended, {| BatchScraper.file := f; BatchScraper.trace := tr ++ evs |}))
    /\ (forall x, x ∈ BatchScraper.scrapes evs ->
                  exists n, 1 <= n <= walk_length listing maxPages 1
                            /\ x ∈ raw_links listing n)
    /\ match ended with
       | Return results =>
           dependable browser
           /\ BatchScraper.url <$> results ≡ₚ BatchScraper.scrapes evs
           /\ (forall x, x ∈ BatchScraper.url <$> results <->
                         exists n, 1 <= n <= walk_length listing maxPages 1
                                   /\ x ∈ raw_links listing n)
       | Throw e => session_error browser = Some e
       end.
Proof.
  intros Hc.
  destruct (SessionFacts.session_runs listing scrapeDoctorInfo schedule browser c maxPages
              tr Hc)
    as (results & evs0 & evs & Hinner & Hrun & [more Hmore] & _ & Hsame).
  destruct (ChunkLoopFacts.scraper_accounts listing scrapeDoctorInfo schedule c maxPages
              tr Hc)
    as (results' & evs0' & Hinner' & Hurl & Hset & _).
  destruct (DiscovererFacts.scraper_runs_unique _ _ _ _ _ _ Hinner Hinner') as [<- <-].
  eexists _, evs. split_and!; [exact Hrun| |].
  - intros x Hx. apply Hset. rewrite Hmore. unfold BatchScraper.scrapes.
    rewrite omap_app. apply elem_of_app. by left.
  - destruct (session_error browser) as [e|] eqn:Herr; [done|].
    apply SessionFacts.session_error_dependable in Herr as Hd.
    destruct Hd as (Hl & Hn & Hp & Hcl).
    rewrite (Hsame Hl Hn Hp). split_and!; [done|done|].
    intros x. by rewrite Hurl.
Qed.

Lemma scraper_returns_one_record_per_scrape_witness :
  exists ended evs,
    (forall f,
        Session.scrapeMultipleDoctors Sample.chromium Sample.repeats Sample.scrape
          Sample.in_turn 2 10
          {| BatchScraper.file := f; BatchScraper.trace := [] |}
        = Some (ended, {| BatchScraper.file := f; BatchScraper.trace := [] ++ evs |}))
    /\ (forall x, x ∈ BatchScraper.scrapes evs ->
                  exists n, 1 <= n <= walk_length Sample.repeats 10 1
                            /\ x ∈ raw_links Sample.repeats n)
    /\ match ended with
       | Return results =>
           dependable Sample.chromium
           /\ BatchScraper.url <$> results ≡ₚ BatchScraper.scrapes evs
           /\ (forall x, x ∈ BatchScraper.url <$> results <->
                         exists n, 1 <= n <= walk_length Sample.repeats 10 1
                                   /\ x ∈ raw_links Sample.repeats n)
       | Throw e => session_error Sample.chromium = Some e
       end.
Proof.
  apply (scraper_returns_one_record_per_scrape Sample.chromium Sample.repeats Sample.scrape
           Sample.in_turn 2 10 []).
  lia.
Defined.

(** A [browser.close()] that throws turns a finished scrape into a
    rejection. *)
Example failed_close_rejects_the_scrape :
  exists w,
    Session.scrapeMultipleDoctors Sample.stuck_chromium Sample.two_pages Sample.scrape
      Sample.in_turn 2 10 Sample.fresh
    = Some (Throw (JsError "Protocol error: Connection closed"), w)
    /\ BatchScraper.scrapes (BatchScraper.trace w) = ["http://a"; "http://b"].
Proof. eexists. split; vm_compute; reflexivity. Qed.

(** X9: with the limit 1 no address is scraped twice and no two records
    carry the same address, however often the listing repeats a profile,
    on one page or on several. *)
Theorem limit_one_scrapes_nothing_twice
    (listing : nat -> BatchScraper.page_load)
    (scrapeDoctorInfo : nat -> string -> completion DoctorScraper.DoctorInfo)
    (schedule : nat -> nat -> nat)
    (maxPages : nat) (tr : list BatchScraper.event) :
  exists results evs,
    ScraperSpec.runs
      (BatchScraper.scrapeMultipleDoctors listing scrapeDoctorInfo schedule 1 maxPages)
      tr results evs
    /\ NoDup (BatchScraper.scrapes evs)
    /\ NoDup (BatchScraper.url <$> results).
Proof.
  destruct (ChunkLoopFacts.scraper_accounts listing scrapeDoctorInfo schedule 1 maxPages tr)
    as (results & evs & Hrun & Hurl & _ & Hnodup & _); [lia|].
  exists results, evs. split; [done|]. rewrite Hurl. split; by apply Hnodup.
Qed.

(** The page that shows one profile twice, scraped one address at a time. *)
Example limit_one_on_repeated_card :
  exists results w,
    BatchScraper.scrapeMultipleDoctors Sample.twice Sample.scrape Sample.in_turn 1 1
      Sample.fresh
    = Some (Return results, w)
    /\ BatchScraper.url <$> results = ["http://a"].
Proof. eexists _, _. split; [vm_compute; reflexivity|]. vm_compute. reflexivity. Qed.

(** ** The report of the extraction stage *)

(** X10: the "Results by page" object holds, under a page number, exactly
    the results of that page ([pageNumber || 1]) in the order of the results;
    a page number without results is not a key, so no key holds an empty
    group, and 0 is never a key; the "Successful" and "Failed" counts add up
    to the total. *)
Theorem report_groups_results_by_page (results : list BatchScraper.DoctorResult) :
  (forall k,
      ScrapeMain.byPage results !! k
      = match filter (fun r => ScrapeMain.page_of r = k) results with
        | [] => None
        | g => Some g
        end)
  /\ ScrapeMain.byPage results !! 0 = None
  /\ ScrapeMain.successful results + ScrapeMain.failed_count results = length results.
Proof.
  assert (Hgroups : forall k,
      ScrapeMain.byPage results !! k
      = match filter (fun r => ScrapeMain.page_of r = k) results with
        | [] => None
        | g => Some g
        end).
  { intros k. unfold ScrapeMain.byPage. rewrite ReportFacts.byPage_fold.
    rewrite lookup_empty. by destruct (filter _ results). }
  split_and!; [done| |].
  - rewrite Hgroups. rewrite ResumeFacts.filter_none; [done|].
    apply Forall_forall. intros r _ Hr. pose proof (ReportFacts.page_of_positive r) as Hpos.
    cbn beta in Hr. rewrite Hr in Hpos. by apply Nat.nle_succ_0 in Hpos.
  - clear Hgroups. unfold ScrapeMain.successful, ScrapeMain.failed_count.
    induction results as [|r results IH]; [done|].
    destruct (decide (BatchScraper.data r = None)) as [Hr|Hr].
    + rewrite (filter_cons_True (fun r => BatchScraper.data r = None)) by done.
      rewrite filter_cons_False by (intros H; by apply H). cbn [length]. lia.
    + rewrite (filter_cons_False (fun r => BatchScraper.data r = None)) by done.
      rewrite filter_cons_True by done. cbn [length]. lia.
Qed.

(** A result without page number is reported under page 1. *)
Example report_defaults_to_page_one :
  ScrapeMain.byPage
    [{| BatchScraper.url := "http://a"; BatchScraper.data := None;
        BatchScraper.error := Some "timeout"; BatchScraper.pageNumber := None |}]
  !! 1
  = Some [{| BatchScraper.url := "http://a"; BatchScraper.data := None;
             BatchScraper.error := Some "timeout"; BatchScraper.pageNumber := None |}].
Proof. reflexivity. Qed.

(** ** More on the scoring stage *)

(** X11: the final array is the collected results reordered: no score is
    followed by a higher one, and records with equal scores keep the order
    in which they were collected. *)
Theorem final_report_is_sorted_and_stable (results : list Evaluator.AnalysisResult) :
  Evaluator.sort_by_score results ≡ₚ results
  /\ StronglySorted descending (Evaluator.sort_by_score results)
  /\ (forall q, filter (scored_as q) (Evaluator.sort_by_score results)
                = filter (scored_as q) results).
Proof.
  split_and!.
  - apply sort_by_score_perm.
  - apply ScoringFacts.sort_by_score_sorted.
  - intros q. apply ScoringFacts.sort_by_score_stable.
Qed.

(** X12: the batches are the consecutive slices of [BATCH_SIZE] profiles:
    batch [k] is [slice(k * BATCH_SIZE, (k + 1) * BATCH_SIZE)], put together
    they give the profiles back, none is empty, and every batch but the last
    holds exactly [BATCH_SIZE] profiles. *)
Theorem batches_partition_the_profiles (profiles : list Profile.t) :
  exists bs,
    Evaluator.make_batches (length profiles) profiles 0 [] = Some bs
    /\ concat bs = profiles
    /\ (forall k b, bs !! k = Some b ->
          b = slice (k * Evaluator.BATCH_SIZE) (k * Evaluator.BATCH_SIZE + Evaluator.BATCH_SIZE)
                profiles
          /\ 0 < length b <= Evaluator.BATCH_SIZE
          /\ (S k < length bs -> length b = Evaluator.BATCH_SIZE)).
Proof.
  destruct (ScoringFacts.make_batches_slices profiles (length profiles) 0 [] ltac:(lia))
    as (bs & Hbs & Hslices).
  destruct (make_batches_some profiles (length profiles) 0 [] ltac:(lia))
    as (bs' & Hbs' & Hcat & Hlen & _).
  rewrite (left_id_L [] (++)) in Hbs, Hbs'.
  assert (bs' = bs) as -> by congruence.
  exists bs. split_and!; [done|by rewrite Hcat, drop_0|].
  intros k b Hb. destruct (Hslices k b Hb) as [Heq Hk]. cbn in Heq, Hk.
  split; [done|split].
  - by eapply (Forall_lookup_1 _ bs k b Hlen).
  - intros Hnext. destruct (lookup_lt_is_Some_2 bs (S k) Hnext) as [b' Hb'].
    destruct (Hslices (S k) b' Hb') as [_ Hk']. cbn in Hk'.
    rewrite Heq. unfold slice. rewrite length_take, length_drop.
    unfold Evaluator.BATCH_SIZE in *. lia.
Qed.

(** X13: a run that follows a run which went through finds nothing to do:
    whatever the service would answer, it sends no request, writes nothing,
    leaves the file as it is and ends with the exit status 0. *)
Theorem second_run_does_nothing
    (zodMessage : json -> string) (schedule : nat -> nat -> nat)
    (profiles : list Profile.t)
    (remote : nat -> nat -> gen_response) (f : option Evaluator.file_content) :
  exists status f' evs,
    Evaluator.main zodMessage schedule true profiles remote
      {| Evaluator.outputFile := f; Evaluator.trace := [] |}
    = Some (Return status, {| Evaluator.outputFile := f'; Evaluator.trace := evs |})
    /\ forall schedule' remote' tr,
         Evaluator.main zodMessage schedule' true profiles remote'
           {| Evaluator.outputFile := f'; Evaluator.trace := tr |}
         = Some (Return (Exited 0),
                 {| Evaluator.outputFile := f';
                    Evaluator.trace := tr ++ (Evaluator.Warn <$> corrupt_warning f') |}).
Proof.
  destruct (main_runs zodMessage schedule profiles remote f [])
    as (f' & evs & new & ns & Hrun & Hf' & Hnew & _).
  eexists _, f', evs. split; [exact Hrun|].
  assert (Hdone : Evaluator.pending (loaded f') profiles = []).
  { rewrite Hf'. destruct (Evaluator.pending (loaded f) profiles) eqn:Htodo; [done|].
    rewrite <- Htodo in Hnew. eapply ResumeFacts.pending_after; [exact Hnew|].
    cbn [loaded]. apply sort_by_score_perm. }
  intros schedule' remote' tr. unfold Evaluator.main. cbn [negb].
  erewrite bind_return by apply load_results_run. by rewrite Hdone.
Qed.

(** X14: when the urls of the stored results are distinct and the urls of
    the input profiles are distinct, the urls of the file the run leaves are
    distinct. *)
Theorem scoring_keeps_urls_distinct
    (zodMessage : json -> string) (schedule : nat -> nat -> nat)
    (profiles : list Profile.t)
    (remote : nat -> nat -> gen_response) (f : option Evaluator.file_content) :
  NoDup (Evaluator.url <$> loaded f) ->
  NoDup (Profile.url <$> profiles) ->
  exists status f' evs,
    Evaluator.main zodMessage schedule true profiles remote
      {| Evaluator.outputFile := f; Evaluator.trace := [] |}
    = Some (Return status, {| Evaluator.outputFile := f'; Evaluator.trace := evs |})
    /\ NoDup (Evaluator.url <$> loaded f').
Proof.
  intros Hstored Hprofiles.
  destruct (main_runs zodMessage schedule profiles remote f [])
    as (f' & evs & new & ns & Hrun & Hf' & Hnew & _).
  eexists _, f', evs. split; [exact Hrun|].
  rewrite Hf'. destruct (Evaluator.pending (loaded f) profiles) eqn:Htodo; [done|].
  rewrite <- Htodo in Hnew. cbn [loaded].
  rewrite sort_by_score_perm, fmap_app, (ResumeFacts.scored_for_urls _ _ Hnew).
  apply NoDup_app. split_and!; [done| |].
  - intros u Hu Hpending. by apply ResumeFacts.pending_urls in Hpending as [_ ?].
  - unfold Evaluator.pending. by apply ResumeFacts.filter_fmap_NoDup.
Qed.

Lemma scoring_keeps_urls_distinct_witness :
  exists status f' evs,
    Evaluator.main Sample.zodMessage Sample.in_turn true
      [Sample.profile "a"; Sample.profile "b"]
      Sample.obliging
      {| Evaluator.outputFile := Some (Evaluator.Stored [Sample.earlier]);
         Evaluator.trace := [] |}
    = Some (Return status, {| Evaluator.outputFile := f'; Evaluator.trace := evs |})
    /\ NoDup (Evaluator.url <$> loaded f').
Proof.
  apply (scoring_keeps_urls_distinct Sample.zodMessage Sample.in_turn
           [Sample.profile "a"; Sample.profile "b"] Sample.obliging
           (Some (Evaluator.Stored [Sample.earlier]))).
  - apply (bool_decide_unpack _). vm_compute. exact I.
  - apply (bool_decide_unpack _). vm_compute. exact I.
Defined.

(** X15: when the first [k <= MAX_RETRIES] attempts fail and the next one
    is accepted, the call sends [k + 1] requests, waits [RETRY_DELAY] after
    each of the [k] failures and not after the success, and returns the
    accepted score under the profile's url, without error. *)
Theorem first_success_ends_the_retries
    (zodMessage : json -> string) (answers : nat -> gen_response) (p : Profile.t)
    (k : nat) (s : Evaluator.TherapistScore) (errs : nat -> thrown)
    (tr : list Evaluator.event) :
  k <= Evaluator.MAX_RETRIES ->
  (forall j, j < k -> verdict zodMessage (answers j) = Throw (errs j)) ->
  verdict zodMessage (answers k) = Return s ->
  EvaluatorSpec.runs
    (Evaluator.analyzeTherapist zodMessage (S Evaluator.MAX_RETRIES) answers p 0) tr
    {| Evaluator.url := Profile.url p; Evaluator.scored := s; Evaluator.error := None |}
    (concat (replicate k [Evaluator.Request p; Evaluator.Sleep Evaluator.RETRY_DELAY])
     ++ [Evaluator.Request p]).
Proof.
  intros Hk Herrs Hok.
  pose proof (ResumeFacts.analyzeTherapist_first_success zodMessage answers p k s errs
                (S Evaluator.MAX_RETRIES) 0 tr) as Hrun.
  rewrite Nat.sub_0_r in Hrun. apply Hrun; [lia|done|lia| |done].
  intros j Hj. apply Herrs. lia.
Qed.

Lemma first_success_ends_the_retries_witness :
  EvaluatorSpec.runs
    (Evaluator.analyzeTherapist Sample.zodMessage (S Evaluator.MAX_RETRIES)
       Sample.third_time (Sample.profile "a") 0) []
    {| Evaluator.url := Profile.url (Sample.profile "a");
       Evaluator.scored := Sample.accepted;
       Evaluator.error := None |}
    (concat (replicate 2 [Evaluator.Request (Sample.profile "a");
                          Evaluator.Sleep Evaluator.RETRY_DELAY])
     ++ [Evaluator.Request (Sample.profile "a")]).
Proof.
  apply (first_success_ends_the_retries Sample.zodMessage Sample.third_time
           (Sample.profile "a") 2 Sample.accepted Sample.failures []).
  - unfold Evaluator.MAX_RETRIES. lia.
  - intros [|[|j]] Hj; [reflexivity|reflexivity|lia].
  - vm_compute. reflexivity.
Defined.

(** X16: for every pending profile a run sends at least one request and
    at most [MAX_RETRIES + 1]: there is one count per pending profile, between
    1 and [MAX_RETRIES + 1], such that the requests sent are, up to the order
    in which the callbacks of a batch get to run, every pending profile as
    often as its count says; the count of a profile is the number of the first
    attempt that is accepted, or [MAX_RETRIES + 1] when none is.  Hence a run
    sends at most [MAX_RETRIES + 1] requests per input profile. *)
Theorem requests_stay_within_budget
    (zodMessage : json -> string) (schedule : nat -> nat -> nat)
    (profiles : list Profile.t)
    (remote : nat -> nat -> gen_response) (f : option Evaluator.file_content) :
  exists status f' evs new counts,
    Evaluator.main zodMessage schedule true profiles remote
      {| Evaluator.outputFile := f; Evaluator.trace := [] |}
    = Some (Return status, {| Evaluator.outputFile := f'; Evaluator.trace := evs |})
    /\ length counts = length (Evaluator.pending (loaded f) profiles)
    /\ Forall (fun n => 1 <= n <= Evaluator.MAX_RETRIES + 1) counts
    /\ Evaluator.requests evs
       ≡ₚ concat (zip_with replicate counts (Evaluator.pending (loaded f) profiles))
    /\ accounted_from zodMessage remote 0 (Evaluator.pending (loaded f) profiles) counts new
    /\ length (Evaluator.pending (loaded f) profiles) <= length (Evaluator.requests evs)
    /\ length (Evaluator.requests evs) <= S Evaluator.MAX_RETRIES * length profiles.
Proof.
  destruct (main_runs zodMessage schedule profiles remote f [])
    as (f' & evs & new & ns & Hrun & _ & _ & Hacc & Hreq & _).
  pose proof (accounted_from_requested _ _ _ _ _ _ Hacc) as Hreqs.
  apply ResumeFacts.requested_length in Hreqs. fold (sent (Evaluator.pending (loaded f) profiles) ns) in Hreq.
  rewrite <- Hreq in Hreqs.
  destruct (accounted_from_lengths _ _ _ _ _ _ Hacc) as [Hlen _].
  pose proof (length_filter
                (fun p => Profile.url p ∉ (list_to_set (Evaluator.url <$> loaded f) : gset string))
                profiles) as Hsub.
  change (filter _ profiles) with (Evaluator.pending (loaded f) profiles) in Hsub.
  eexists _, f', evs, new, ns. split_and!; [exact Hrun|done| |done|done|lia|].
  - by eapply accounted_from_counts.
  - unfold Evaluator.MAX_RETRIES in *. lia.
Qed.


(** ** The sequential analysis script, once more *)


(** Without [GEMINI_API_KEY] the script throws before it reads anything. *)
Example sequential_script_needs_the_key :
  Analyze.main Sample.zodMessage false [Sample.scraped "http://a"] Sample.silent
    Sample.fresh_analysis
  = Some (Throw (JsError "Missing GEMINI_API_KEY"), Sample.fresh_analysis).
Proof. reflexivity. Qed.

(** ** The merge of the HTTP server, once more *)

(** X19: the endpoint answers with one row per analysis row, in the order
    of the analysis file, whether or not an extraction record has the row's
    url; extraction records without analysis row are not served; and when
    several extraction records share a url, the LAST of them gives the
    rating, the review count and the avatar. *)
Theorem served_rows_use_last_record
    (analysisData : list Server.Therapist) (doctorData : list Server.Doc.t) :
  Server.Merged.therapist <$> Server.mergedData analysisData doctorData = analysisData
  /\ forall i m,
       Server.mergedData analysisData doctorData !! i = Some m ->
       let record :=
         Server.Doc.data
           <$> last (filter (fun doc => Server.Doc.url doc
                                        = Server.url (Server.Merged.therapist m))
                            doctorData) in
       Server.Merged.rating m = Server.num_or_null (record ≫= Server.rating)
       /\ Server.Merged.reviewCount m = Server.num_or_null (record ≫= Server.reviewCount)
       /\ Server.Merged.avatar m = Server.str_or_null (record ≫= Server.avatar).
Proof.
  unfold Server.mergedData. split.
  - rewrite <- list_fmap_compose. rewrite <- (list_fmap_id analysisData) at 2.
    by apply list_fmap_ext.
  - intros i m Hm. rewrite list_lookup_fmap in Hm.
    destruct (analysisData !! i) as [t|]; [|done]. injection Hm as <-.
    cbn. by rewrite ServerFacts.doctorMap_last.
Qed.

(** Two extraction records for one url: the later one is served. *)
Example later_record_wins :
  Server.Merged.rating
  <$> Server.mergedData [Sample.row]
        [Sample.unrated;
         {| Server.Doc.url := "http://a";
            Server.Doc.data := {| Server.name := "Dott. A";
                                  Server.rating := Some 4.5%Q;
                                  Server.reviewCount := Some 7%Q;
                                  Server.aboutText := "Psicoterapeuta";
                                  Server.extendedAbout := None;
                                  Server.avatar := None |};
            Server.Doc.pageNumber := 2 |}]
  = [Some 4.5%Q].
Proof. vm_compute. reflexivity. Qed.

(** ** The profile page scraper *)

Import DoctorPageSpec.

(** X20: however its calls to the browser end, [scrapeDoctorInfo] finishes
    with its [finally] block and touches nothing after it: it closes the
    page exactly when it got one, and closes the browser exactly when it
    launched the browser itself and closing the page did not throw.  So a
    browser passed by the caller is never closed, and a browser of its own is
    left open when [page.close()] throws. *)
Theorem page_scraper_releases_what_it_took
    {number : Type} (parseFloat : list N -> number) (site : DoctorPage.Site)
    (url : string) (shared : bool) (w : DoctorPage.World) :
  exists c body,
    DoctorPage.scrapeDoctorInfo parseFloat site url shared w
    = Some (c, {| DoctorPage.trace := DoctorPage.trace w ++ body ++ closing site shared;
                  DoctorPage.ownBrowser := launched site shared;
                  DoctorPage.page := opened site shared |})
    /\ (DoctorPage.ClosePage ∉ body)
    /\ (DoctorPage.CloseBrowser ∉ body)
    /\ (shared = true -> DoctorPage.CloseBrowser ∉ closing site shared)
    /\ (DoctorPage.closePage site = Return tt ->
        (DoctorPage.CloseBrowser ∈ closing site shared <-> launched site shared = true)).
Proof.
  destruct (DoctorPageFacts.scrapeDoctorInfo_run parseFloat site url shared w)
    as (c & body & Hrun & Hbody & _).
  exists c, body. rewrite Forall_forall in Hbody. split_and!.
  - exact Hrun.
  - intros Hin. by apply Hbody in Hin.
  - intros Hin. by apply Hbody in Hin.
  - intros ->. unfold closing, launched, opened. cbn [negb andb orb].
    destruct (returns (DoctorPage.newPage site)); cbn; set_solver.
  - intros Hclose. unfold closing. rewrite Hclose. cbn [returns].
    rewrite orb_true_r, andb_true_r.
    destruct (opened site shared), (launched site shared); cbn; set_solver.
Qed.

(** X21: the call returns a record exactly when the calls up to
    [page.goto] and the calls of the [finally] block go through: no lookup
    on the page, click or wait makes it fail.  In a record it returns, the
    name, the about text and the extended text are in the form [cleanText]
    gives, an extended text is there only when the button was found, the
    avatar does not start with two slashes, and a review count is there only
    when the rating element had a text. *)
Theorem page_scraper_fails_only_on_setup_or_cleanup
    {number : Type} (parseFloat : list N -> number) (site : DoctorPage.Site)
    (url : string) (shared : bool) (w : DoctorPage.World) :
  exists c w',
    DoctorPage.scrapeDoctorInfo parseFloat site url shared w = Some (c, w')
    /\ returns c = setup_ok site shared && closing_ok site shared
    /\ (forall info, c = Return info -> tidy site info).
Proof.
  destruct (DoctorPageFacts.scrapeDoctorInfo_run parseFloat site url shared w)
    as (c & body & Hrun & _ & Hc & Htidy).
  by eexists c, _.
Qed.

(** A page whose [close] throws, reached with a browser of the run's own:
    the call is rejected with the error of [close], and the browser it
    launched is not closed. *)
Example failed_page_close_leaves_browser_open :
  exists w',
    DoctorPage.scrapeDoctorInfo DoctorScraper.parseInt Sample.failing_close
      "http://a" false Sample.before_scraping
    = Some (Throw (JsError "Target closed"), w')
    /\ DoctorPage.trace w'
       = [DoctorPage.Launch; DoctorPage.NewPage; DoctorPage.Goto "http://a";
          DoctorPage.ClosePage].
Proof. eexists. split; reflexivity. Qed.

(** A page on which the name, a protocol-relative avatar and the review
    text are found, and no about section. *)
Example found_page_is_read :
  exists info w',
    DoctorPage.scrapeDoctorInfo DoctorScraper.parseInt Sample.found
      "http://a" false Sample.before_scraping
    = Some (Return info, w')
    /\ DoctorPage.name info = Sample.clean_name
    /\ DoctorPage.reviewCount info = Some 128%N
    /\ DoctorPage.aboutText info = []
    /\ DoctorPage.avatar info
       = Some [104; 116; 116; 112; 115; 58; 47; 47; 97; 46; 105; 116; 47; 120]%N
    /\ DoctorPage.trace w'
       = [DoctorPage.Launch; DoctorPage.NewPage; DoctorPage.Goto "http://a";
          DoctorPage.ClosePage; DoctorPage.CloseBrowser].
Proof. eexists _, _. split; [vm_compute; reflexivity|]. by vm_compute. Qed.
